(** * Result normalisation and trial aggregation of [quantum_sort_ibm.py]

    A shallow embedding of the utilities [_to_bits] and
    [_bitarray_to_strings] and of the trial loop of [run], with the
    Python operations they rely on ([int], [str], [format], [round],
    float multiplication, [Counter], [try]/[except]) written out. *)

From Stdlib Require Import ZArith Lia Bool List Ascii String.
From Stdlib Require Import Floats.SpecFloat.
From Stdlib Require Import Numbers.DecimalString Numbers.DecimalPos.
From Stdlib Require Import Numbers.DecimalFacts.
From stdpp Require Import gmap strings list fin_maps.

Local Open Scope Z_scope.

(** ** Python values, exceptions and results *)

Module Py.

(** The exception classes that the modelled code can meet.
    [OtherError] stands for any other class that derives from
    [Exception] ([QiskitError], ...), and [BaseOnly] for a class that
    derives from [BaseException] without deriving from [Exception]
    ([KeyboardInterrupt], [SystemExit]). *)
Inductive exn :=
| AttributeError
| TypeError
| ValueError
| OverflowError
| IndexError
| KeyError
| RuntimeError (msg : string)
| OtherError (name : string)
| BaseOnly (name : string).

Definition is_AttributeError (e : exn) : bool :=
  match e with AttributeError => true | _ => false end.

(** [isinstance(e, Exception)] *)
Definition is_Exception (e : exn) : bool :=
  match e with BaseOnly _ => false | _ => true end.

Inductive result (A : Type) :=
| Ok (a : A)
| Raise (e : exn).
Arguments Ok {A} a.
Arguments Raise {A} e.

Definition bind {A B} (r : result A) (k : A -> result B) : result B :=
  match r with
  | Ok a => k a
  | Raise e => Raise e
  end.

(** [try: body / except C: handler], where [catches e] tells whether [e]
    is an instance of [C]. *)
Definition try_except {A} (body : result A) (catches : exn -> bool)
    (handler : result A) : result A :=
  match body with
  | Ok a => Ok a
  | Raise e => if catches e then handler else Raise e
  end.

(** The values found inside a list returned by [tolist()]: integers,
    booleans, [None], and lists and tuples of these. *)
#[warnings="-register-all"]
Inductive pyval :=
| PInt (z : Z)
| PBool (b : bool)
| PNone
| PList (items : list pyval)
| PTuple (items : list pyval).

(** [int(v)] *)
Definition py_int (v : pyval) : result Z :=
  match v with
  | PInt z => Ok z
  | PBool b => Ok (if b then 1 else 0)
  | PNone | PList _ | PTuple _ => Raise TypeError
  end.

(** [iter(v)], fully consumed *)
Definition py_iter (v : pyval) : result (list pyval) :=
  match v with
  | PList l | PTuple l => Ok l
  | PInt _ | PBool _ | PNone => Raise TypeError
  end.

(** The decimal digits of [z], with [-] for negatives *)
Definition decimal (z : Z) : string :=
  NilZero.string_of_int (Z.to_int z).

(** The number of decimal digits of [z], the sign not counted *)
Definition decimal_digits (z : Z) : nat :=
  String.length (decimal (Z.abs z)).

(** [sys.get_int_max_str_digits()], as CPython sets it by default *)
Definition int_max_str_digits : nat := 4300.

(** [str(z)] and [repr(z)] for an int: its decimal digits, and a
    [ValueError] when there are more of them than the limit. *)
Definition str_of_int (z : Z) : result string :=
  if (decimal_digits z <=? int_max_str_digits)%nat then Ok (decimal z)
  else Raise ValueError.

(** [', '.join(l)] *)
Fixpoint join_comma (l : list string) : string :=
  match l with
  | [] => ""
  | [s] => s
  | s :: rest => s +:+ ", " +:+ join_comma rest
  end.

(** [repr(v)], which is also [str(v)] on these values.  The elements of
    a list or tuple are rendered from the left, and the first one that
    cannot be rendered raises. *)
Fixpoint py_repr (v : pyval) : result string :=
  let reprs :=
    fix reprs (l : list pyval) : result (list string) :=
      match l with
      | [] => Ok []
      | x :: rest =>
          bind (py_repr x) (fun s =>
          bind (reprs rest) (fun ss => Ok (s :: ss)))
      end in
  match v with
  | PInt z => str_of_int z
  | PBool true => Ok "True"
  | PBool false => Ok "False"
  | PNone => Ok "None"
  | PList l => bind (reprs l) (fun ss => Ok ("[" +:+ join_comma ss +:+ "]"))
  | PTuple l =>
      bind (reprs l) (fun ss =>
        match ss with
        | [s] => Ok ("(" +:+ s +:+ ",)")
        | _ => Ok ("(" +:+ join_comma ss +:+ ")")
        end)
  end.

(** Binary digits of a positive number, most significant first, pushed
    in front of [acc]. *)
Fixpoint bin_pos (p : positive) (acc : string) : string :=
  match p with
  | xH => String "1" acc
  | xO q => bin_pos q (String "0" acc)
  | xI q => bin_pos q (String "1" acc)
  end.

(** Binary digits of [|z|] *)
Definition bin_digits (z : Z) : string :=
  match z with
  | Z0 => "0"
  | Zpos p | Zneg p => bin_pos p ""
  end.

Fixpoint zeros (n : nat) : string :=
  match n with
  | O => ""
  | S k => String "0" (zeros k)
  end.

(** Left-pad [s] with ['0'] up to [w] characters. *)
Definition zfill (w : nat) (s : string) : string :=
  zeros (w - String.length s)%nat +:+ s.

(** [format(z, f"0{width}b")].  A negative [width] makes the format
    specification ["0-1b"] and the like, which [format] rejects.  With
    the zero flag the padding goes between the sign and the digits. *)
Definition format_0b (width : Z) (z : Z) : result string :=
  if width <? 0 then Raise ValueError
  else if z <? 0
       then Ok (String "-" (zfill (Z.to_nat width - 1)%nat (bin_digits z)))
       else Ok (zfill (Z.to_nat width) (bin_digits z)).

(** [int(s, 2)] on a string of binary digits; any other character, or
    the empty string, is a [ValueError]. *)
Fixpoint int_base2_acc (s : string) (acc : Z) : result Z :=
  match s with
  | EmptyString => Ok acc
  | String c rest =>
      if Ascii.eqb c "0" then int_base2_acc rest (2 * acc)
      else if Ascii.eqb c "1" then int_base2_acc rest (2 * acc + 1)
      else Raise ValueError
  end.

Definition int_base2 (s : string) : result Z :=
  match s with
  | EmptyString => Raise ValueError
  | _ => int_base2_acc s 0
  end.

End Py.

Import Py.

(** [result] is a monad; stdpp's [x ← r; k] sequences statements and
    lets the first exception through. *)
#[global] Instance result_ret : MRet result := @Ok.
#[global] Instance result_bind : MBind result :=
  fun A B k r => bind r k.


(** ** Floats

    Python floats are IEEE 754 binary64 numbers; [spec_float] with
    [prec = 53] and [emax = 1024] is their specification. *)

Module PyFloat.

Definition prec : Z := 53.
Definition emax : Z := 1024.

(** [float(n)] for an int [n]: the nearest double, [OverflowError] when
    [n] is too large to convert. *)
Definition float_of_int (n : Z) : result spec_float :=
  match binary_normalize prec emax n 0 false with
  | S754_infinity _ => Raise OverflowError
  | f => Ok f
  end.

(** [p * n] for a float [p] and an int [n] *)
Definition mul_int (p : spec_float) (n : Z) : result spec_float :=
  f ← float_of_int n; Ok (SFmul prec emax p f).

(** The integer nearest to [m * 2^e], ties to the even one *)
Definition round_half_even (m : positive) (e : Z) : Z :=
  if 0 <=? e then Zpos m * 2 ^ e
  else
    let d := 2 ^ (- e) in
    let q := Zpos m / d in
    match (2 * (Zpos m mod d) ?= d) with
    | Lt => q
    | Gt => q + 1
    | Eq => if Z.even q then q else q + 1
    end.

(** [round(x)] with one argument: an int, or an error for infinities
    and NaN. *)
Definition py_round (x : spec_float) : result Z :=
  match x with
  | S754_zero _ => Ok 0
  | S754_infinity _ => Raise OverflowError
  | S754_nan => Raise ValueError
  | S754_finite s m e => Ok (cond_Zopp s (round_half_even m e))
  end.

(** Floats that are zero or positive; [nan] is neither. *)
Definition float_nonneg (x : spec_float) : bool :=
  match x with
  | S754_zero _ => true
  | S754_infinity s | S754_finite s _ _ => negb s
  | S754_nan => false
  end.

(** [x] is [nan] or carries the sign bit [s]. *)
Definition has_sign (s : bool) (x : spec_float) : Prop :=
  match x with
  | S754_zero s' | S754_infinity s' | S754_finite s' _ _ => s' = s
  | S754_nan => True
  end.

(** [x] is [nan], a zero, or positive. *)
Definition nonneg_or_nan (x : spec_float) : Prop :=
  match x with
  | S754_zero _ | S754_nan => True
  | S754_infinity s | S754_finite s _ _ => s = false
  end.

(** The double [1.0] *)
Definition f1_0 : spec_float := S754_finite false 4503599627370496 (-52).

(** A double [p] with [0.0 <= p <= 1.0] *)
Definition is_probability (p : spec_float) : bool :=
  valid_binary prec emax p && SFleb (S754_zero false) p && SFleb p f1_0.

(** The doubles written [0.6], [0.4], [0.5] and [0.15] in Python *)
Definition f0_6 : spec_float := S754_finite false 5404319552844595 (-53).
Definition f0_4 : spec_float := S754_finite false 7205759403792794 (-54).
Definition f0_5 : spec_float := S754_finite false 4503599627370496 (-53).
Definition f0_15 : spec_float := S754_finite false 5404319552844595 (-55).

End PyFloat.

Import PyFloat.

(** ** The utilities of [quantum_sort_ibm.py] *)

(** An object of some other class, as [_to_bits] sees it.  [obj_to01]
    is [None] when the object has no attribute [to01], and otherwise
    what the call [to01()] returns or raises.  Iterating the object
    yields [obj_items] and then ends, normally when [obj_stop] is [None]
    and with that exception otherwise (an object that is not iterable
    has no items and stops with [TypeError]).  [obj_str] is what
    [str(key)] returns or raises. *)
Record pyobject := {
  obj_to01 : option (result string);
  obj_items : list pyval;
  obj_stop : option exn;
  obj_str : result string
}.

(** A key of a quasi-distribution: a [str], a bit array whose [to01()]
    returns [bits], a plain value, or an object of any other class. *)
Inductive qkey :=
| KStr (s : string)
| KTo01 (bits : string)
| KVal (v : pyval)
| KObj (o : pyobject).

(** [key.to01()] *)
Definition call_to01 (key : qkey) : result string :=
  match key with
  | KTo01 bits => Ok bits
  | KObj o =>
      match obj_to01 o with
      | Some r => r
      | None => Raise AttributeError
      end
  | KStr _ | KVal _ => Raise AttributeError
  end.

(** [for b in key], for a key that [_to_bits] iterates: the items
    yielded, and the exception that ends the iteration when the end is
    not the normal one.  ([_to_bits] iterates neither a [str] nor a bit
    array, whose [to01()] returns.) *)
Definition key_items (key : qkey) : list pyval * option exn :=
  match key with
  | KVal (PList l) | KVal (PTuple l) => (l, None)
  | KVal (PInt _) | KVal (PBool _) | KVal PNone => ([], Some TypeError)
  | KObj o => (obj_items o, obj_stop o)
  | KStr _ | KTo01 _ => ([], Some TypeError)
  end.

(** [iter(key)], fully consumed *)
Definition key_iter (key : qkey) : result (list pyval) :=
  match key_items key with
  | (items, None) => Ok items
  | (_, Some e) => Raise e
  end.

(** [str(key)] *)
Definition py_str (key : qkey) : result string :=
  match key with
  | KStr s => Ok s
  | KTo01 bits => Ok ("bitarray('" +:+ bits +:+ "')")
  | KVal v => py_repr v
  | KObj o => obj_str o
  end.

(** [''.join(str(int(b)) for b in items)]: the generator is consumed
    from the left and the first failing [int(b)] or [str(...)] ends
    it. *)
Fixpoint join_bits (items : list pyval) : result string :=
  match items with
  | [] => Ok ""
  | b :: rest =>
      z ← py_int b;
      d ← str_of_int z;
      s ← join_bits rest;
      Ok (d +:+ s)
  end.

(** [''.join(str(int(b)) for b in key)]: an item that fails comes
    before the exception that ends the iteration. *)
Definition join_key (key : qkey) : result string :=
  let (items, stop) := key_items key in
  s ← join_bits items;
  match stop with
  | None => Ok s
  | Some e => Raise e
  end.

Definition _to_bits (key : qkey) : result string :=
  match key with
  | KStr s => Ok s
  | _ =>
      try_except (call_to01 key) is_AttributeError
        (try_except (join_key key) is_Exception (py_str key))
  end.

(** The object handed to [_bitarray_to_strings].  A field is [None] when
    the attribute is absent (for [_array] and [array] also when it is
    Python's [None]); [tolist], [_array] and [array] otherwise hold the
    rows that their [tolist()] returns. *)
Record BitArray := {
  tolist : option (list pyval);
  _array : option (list pyval);
  array : option (list pyval);
  num_bits : option Z
}.

Definition unrecognised_internals : exn :=
  RuntimeError "Unrecognised BitArray internals.".

(** What line 89 raises: the message is built first, and [{sample!r}]
    can fail. *)
Definition unexpected_row (sample : pyval) : exn :=
  match py_repr sample with
  | Ok text => RuntimeError ("Unexpected BitArray row: " +:+ text)
  | Raise e => e
  end.

(** Lines 65-74: the rows of the bit array *)
Definition bitarr_rows (bitarr : BitArray) : result (list pyval) :=
  match tolist bitarr with
  | Some rows => Ok rows
  | None =>
      match _array bitarr with
      | Some rows => Ok rows
      | None =>
          match array bitarr with
          | Some rows => Ok rows
          | None => Raise unrecognised_internals
          end
      end
  end.

(** [getattr(bitarr, "num_bits", 3)] *)
Definition bitarr_width (bitarr : BitArray) : Z :=
  default 3 (num_bits bitarr).

(** The body of the loop over the rows (lines 79-89): the string
    appended for [sample], or the error raised. *)
Definition sample_string (width : Z) (sample : pyval) : result string :=
  match sample with
  | PList items | PTuple items =>
      if Z.of_nat (length items) =? width then join_bits items
      else
        match items with
        | [x] => z ← py_int x; format_0b width z
        | _ => Raise (unexpected_row sample)
        end
  | PInt z => format_0b width z
  | PBool b => format_0b width (if b then 1 else 0)
  | PNone => Raise (unexpected_row sample)
  end.

(** [for sample in rows: strings.append(...)] *)
Fixpoint rows_loop (width : Z) (rows : list pyval) (strings : list string)
    : result (list string) :=
  match rows with
  | [] => Ok strings
  | sample :: rest =>
      s ← sample_string width sample;
      rows_loop width rest (strings ++ [s])
  end.

Definition _bitarray_to_strings (bitarr : BitArray) : result (list string) :=
  rows ← bitarr_rows bitarr;
  rows_loop (bitarr_width bitarr) rows [].

(** ** Counters *)

(** [Counter(strings)] *)
Definition Counter (strings : list string) : gmap string Z :=
  foldl (fun c s => <[s := default 0 (c !! s) + 1]> c) ∅ strings.

(** [aggregated.update(counts)]: counts are added, absent keys count
    as zero. *)
Definition Counter_update (aggregated counts : gmap string Z)
    : gmap string Z :=
  map_fold (fun k v acc => <[k := v + default 0 (acc !! k)]> acc)
           aggregated counts.

(** [sum(m.values())] *)
Definition total (m : gmap string Z) : Z :=
  map_fold (fun _ v acc => v + acc) 0 m.

(** ** The trial loop of [run] *)

(** A legacy quasi-distribution: what [q.keys()] and
    [q.probabilities()] iterate over. *)
Record QuasiDist := {
  keys : list qkey;
  probabilities : list spec_float
}.

(** The object returned by [sampler.run(...).result()].  [quasi_dists]
    and [quasi_distributions] are [None] when the attribute is absent;
    [pubs] lists the [data] mappings of [raw[0]], [raw[1]], ... *)
Record SamplerResult := {
  quasi_dists : option (list QuasiDist);
  quasi_distributions : option (list QuasiDist);
  pubs : list (gmap string BitArray)
}.

(** [l[0]] *)
Definition index0 {A} (l : list A) : result A :=
  match l with
  | [] => Raise IndexError
  | x :: _ => Ok x
  end.

(** [d[k]] *)
Definition getitem {A} (d : gmap string A) (k : string) : result A :=
  match d !! k with
  | Some a => Ok a
  | None => Raise KeyError
  end.

(** [int(round(p * shots))] *)
Definition count_of (p : spec_float) (shots : Z) : result Z :=
  x ← mul_int p shots; py_round x.

(** The dict comprehension of lines 118-121 over the zipped pairs: the
    key is evaluated before the value, and a later pair replaces an
    earlier one with the same key. *)
Fixpoint dict_comp (shots : Z) (pairs : list (qkey * spec_float))
    (d : gmap string Z) : result (gmap string Z) :=
  match pairs with
  | [] => Ok d
  | (k, p) :: rest =>
      s ← _to_bits k;
      c ← count_of p shots;
      dict_comp shots rest (<[s := c]> d)
  end.

Definition quasi_counts (shots : Z) (q : QuasiDist)
    : result (gmap string Z) :=
  dict_comp shots (zip (keys q) (probabilities q)) ∅.

(** Line 126: [Counter(_bitarray_to_strings(bitarr))] *)
Definition bitarray_counts (bitarr : BitArray) : result (gmap string Z) :=
  strings ← _bitarray_to_strings bitarr;
  Ok (Counter strings).

(** Lines 115-126: the counts of one hardware trial *)
Definition hw_counts (shots : Z) (raw : SamplerResult)
    : result (gmap string Z) :=
  match quasi_dists raw, quasi_distributions raw with
  | Some qs, _ | None, Some qs =>
      q ← index0 qs; quasi_counts shots q
  | None, None =>
      pub ← index0 (pubs raw);
      bitarr ← getitem pub "c";
      bitarray_counts bitarr
  end.

(** The backends.  [job_error i] is the exception with which the calls
    to the backend fail in trial [i] ([transpile], [run], [result()]
    and, on the simulator, [get_counts()]: lines 112-113 and 128-129),
    [None] when they all return; [sampler_result i] and [get_counts i]
    are then what the hardware job and the simulator job return. *)
Record Backend := {
  sampler_result : nat -> SamplerResult;
  get_counts : nat -> gmap string Z;
  job_error : nat -> option exn
}.

(** Lines 109-129: the counts of trial [i] *)
Definition trial_counts (hw : bool) (shots : Z) (b : Backend) (i : nat)
    : result (gmap string Z) :=
  match job_error b i with
  | Some e => Raise e
  | None =>
      if hw then hw_counts shots (sampler_result b i)
      else Ok (get_counts b i)
  end.

(** [for _ in range(trials)] from trial [i] on, [n] trials left *)
Fixpoint trials_loop (hw : bool) (shots : Z) (b : Backend) (n i : nat)
    (aggregated : gmap string Z) : result (gmap string Z) :=
  match n with
  | O => Ok aggregated
  | S n' =>
      counts ← trial_counts hw shots b i;
      trials_loop hw shots b n' (S i) (Counter_update aggregated counts)
  end.

(** Lines 107-131 of [run]: the aggregate after the loop.  The report
    printed afterwards only reads it. *)
Definition run_trials (trials shots : Z) (hw : bool) (b : Backend)
    : result (gmap string Z) :=
  trials_loop hw shots b (Z.to_nat trials) 0 ∅.

(** ** Concrete inputs *)

(** The rows [[[0,1,1],[0,1,1],[1,0,0]]] *)
Definition example_rows : list pyval :=
  [PList [PInt 0; PInt 1; PInt 1];
   PList [PInt 0; PInt 1; PInt 1];
   PList [PInt 1; PInt 0; PInt 0]].

(** Rows of each valid shape for a register of three bits:
    [[[0,1,1], [3], 5, (7,)]] *)
Definition mixed_rows : list pyval :=
  [PList [PInt 0; PInt 1; PInt 1]; PList [PInt 3]; PInt 5; PTuple [PInt 7]].

(** A bit array that only has [tolist()], returning [rows] *)
Definition bitarr_of (rows : list pyval) (width : option Z) : BitArray :=
  {| tolist := Some rows; _array := None; array := None; num_bits := width |}.

(** The quasi-distribution [{"011": 0.6, "100": 0.4}] *)
Definition example_quasi : QuasiDist :=
  {| keys := [KStr "011"; KStr "100"]; probabilities := [f0_6; f0_4] |}.

(** The quasi-distribution [{"011": 0.5, "100": 0.5}] *)
Definition coin_quasi : QuasiDist :=
  {| keys := [KStr "011"; KStr "100"]; probabilities := [f0_5; f0_5] |}.

(** The quasi-distribution [{"011": 0.15}] *)
Definition fifteen_quasi : QuasiDist :=
  {| keys := [KStr "011"]; probabilities := [f0_15] |}.

(** The quasi-distribution [{"011": -0.25}] *)
Definition negative_quasi : QuasiDist :=
  {| keys := [KStr "011"];
     probabilities := [S754_finite true 4503599627370496 (-54)] |}.

(** The key [10**4300], an integer of 4301 digits *)
Definition long_int_key : qkey := KVal (PInt (10 ^ 4300)).


(** A hardware result that exposes [quasi_dists = [q]] *)
Definition quasi_result (q : QuasiDist) : SamplerResult :=
  {| quasi_dists := Some [q]; quasi_distributions := None; pubs := [] |}.

(** A hardware result whose first pub holds [bitarr] under ["c"] *)
Definition bitarray_result (bitarr : BitArray) : SamplerResult :=
  {| quasi_dists := None; quasi_distributions := None;
     pubs := [ {[ "c" := bitarr ]} ] |}.

(** Backends whose jobs all succeed and answer alike *)
Definition constant_backend (raw : SamplerResult) (counts : gmap string Z)
    : Backend :=
  {| sampler_result := fun _ => raw; get_counts := fun _ => counts;
     job_error := fun _ => None |}.

(** A backend whose jobs all fail with [e] *)
Definition failing_backend (e : exn) : Backend :=
  {| sampler_result := fun _ =>
       {| quasi_dists := None; quasi_distributions := None; pubs := [] |};
     get_counts := fun _ => ∅;
     job_error := fun _ => Some e |}.

(** ** Shapes of inputs and outputs *)

Fixpoint is_bitstring (s : string) : bool :=
  match s with
  | EmptyString => true
  | String c rest =>
      (Ascii.eqb c "0" || Ascii.eqb c "1") && is_bitstring rest
  end.

(** A canonical outcome: [W] characters, each ['0'] or ['1'] *)
Definition bitstring_of_width (W : Z) (s : string) : Prop :=
  is_bitstring s = true /\ Z.of_nat (String.length s) = W.

Definition is_bit (v : pyval) : Prop := v = PInt 0 \/ v = PInt 1.

(** A sequence of [W] 0/1 values *)
Definition bit_row (W : Z) (items : list pyval) : Prop :=
  Z.of_nat (length items) = W /\ Forall is_bit items.

(** The valid rows of a bit-array result *)
Inductive valid_row (W : Z) : pyval -> Prop :=
| vr_list items : bit_row W items -> valid_row W (PList items)
| vr_tuple items : bit_row W items -> valid_row W (PTuple items)
| vr_single_list n : 0 <= n < 2 ^ W -> valid_row W (PList [PInt n])
| vr_single_tuple n : 0 <= n < 2 ^ W -> valid_row W (PTuple [PInt n])
| vr_int n : 0 <= n < 2 ^ W -> valid_row W (PInt n).

(** The valid keys of a quasi-distribution *)
Inductive valid_key (W : Z) : qkey -> Prop :=
| vk_str s : bitstring_of_width W s -> valid_key W (KStr s)
| vk_to01 s : bitstring_of_width W s -> valid_key W (KTo01 s)
| vk_list items : bit_row W items -> valid_key W (KVal (PList items))
| vk_tuple items : bit_row W items -> valid_key W (KVal (PTuple items)).

(** The quasi-distribution that line 117 selects, when there is one *)
Definition selected_quasi (raw : SamplerResult) : option (list QuasiDist) :=
  match quasi_dists raw with
  | Some qs => Some qs
  | None => quasi_distributions raw
  end.

(** A valid result of a job, for a register of [W] bits: the job
    returned, with flat counts over canonical outcomes from the
    simulator, and from the hardware a quasi-distribution with valid
    keys or a bit array of width [W] with valid rows. *)
Inductive valid_input (W : Z) (b : Backend) (i : nat) : bool -> Prop :=
| valid_flat :
    job_error b i = None ->
    (forall s, s ∈ dom (get_counts b i) -> bitstring_of_width W s) ->
    valid_input W b i false
| valid_quasi q rest :
    job_error b i = None ->
    selected_quasi (sampler_result b i) = Some (q :: rest) ->
    Forall (valid_key W) (keys q) ->
    valid_input W b i true
| valid_bitarray pub rest bitarr rows :
    job_error b i = None ->
    selected_quasi (sampler_result b i) = None ->
    pubs (sampler_result b i) = pub :: rest ->
    pub !! "c" = Some bitarr ->
    bitarr_rows bitarr = Ok rows ->
    bitarr_width bitarr = W ->
    Forall (valid_row W) rows ->
    valid_input W b i true.

(** A row whose shape [_bitarray_to_strings] recognises: a sequence of
    length [W], a sequence of one element, or an int. *)
Definition recognised_shape (W : Z) (sample : pyval) : Prop :=
  match sample with
  | PList items | PTuple items =>
      Z.of_nat (length items) = W \/ length items = 1%nat
  | PInt _ | PBool _ => True
  | PNone => False
  end.

(** An entry that [int()] accepts *)
Definition int_like (v : pyval) : Prop :=
  match v with
  | PInt _ | PBool _ => True
  | PNone | PList _ | PTuple _ => False
  end.

(** An entry that [str(int(...))] renders: at most 4300 digits *)
Definition short_int (v : pyval) : Prop :=
  match v with
  | PInt z => (decimal_digits z <= int_max_str_digits)%nat
  | _ => True
  end.

(** A row of recognised shape whose entries are integers, of at most
    4300 digits each where the row is read as a row of [W] bits *)
Definition well_formed_row (W : Z) (sample : pyval) : Prop :=
  recognised_shape W sample /\
  match sample with
  | PList items | PTuple items =>
      Forall int_like items
      /\ (Z.of_nat (length items) = W -> Forall short_int items)
  | _ => True
  end.

(** A key that is an iterable of 0/1 values *)
Definition iterable_of_bits (key : qkey) : Prop :=
  exists items, key_iter key = Ok items /\ Forall is_bit items.

(** A key that is an iterable whose elements all convert with [int()] *)
Definition iterable_of_ints (key : qkey) : Prop :=
  exists items, key_iter key = Ok items /\ Forall int_like items.

Definition is_str (key : qkey) : Prop :=
  match key with KStr _ => True | _ => False end.

Definition has_to01 (key : qkey) : Prop :=
  match key with
  | KTo01 _ => True
  | KObj o => obj_to01 o <> None
  | _ => False
  end.

(** A key that is an iterable whose elements all convert with
    [str(int(...))] *)
Definition iterable_of_short_ints (key : qkey) : Prop :=
  exists items, key_iter key = Ok items
                /\ Forall int_like items /\ Forall short_int items.

(** [c] is the integer nearest to the value of the double [x], and the
    even one when two integers are equally near. *)
Definition rounds_to (x : spec_float) (c : Z) : Prop :=
  match x with
  | S754_zero _ => c = 0
  | S754_finite s m e =>
      let v := cond_Zopp s (Zpos m) in
      if 0 <=? e then c = v * 2 ^ e
      else Z.abs (2 * (c * 2 ^ (- e) - v)) <= 2 ^ (- e)
           /\ (Z.abs (2 * (c * 2 ^ (- e) - v)) = 2 ^ (- e) ->
               Z.even c = true)
  | S754_infinity _ | S754_nan => False
  end.

(** ** Sums over the trials *)

(** [f i + f (i+1) + ... + f (i+n-1)] *)
Fixpoint sum_from (f : nat -> Z) (i n : nat) : Z :=
  match n with
  | O => 0
  | S k => f i + sum_from f (S i) k
  end.

(** What trial [i] counted for the bitstring [s]; nothing when the trial
    raised. *)
Definition trial_count (hw : bool) (shots : Z) (b : Backend) (s : string)
    (i : nat) : Z :=
  match trial_counts hw shots b i with
  | Ok counts => default 0 (counts !! s)
  | Raise _ => 0
  end.

(** The integer that a row of bits spells, most significant bit first,
    continuing from [acc]. *)
Fixpoint bits_value (items : list pyval) (acc : Z) : Z :=
  match items with
  | [] => acc
  | PInt z :: rest => bits_value rest (2 * acc + z)
  | PBool b :: rest => bits_value rest (2 * acc + (if b then 1 else 0))
  | _ :: rest => bits_value rest (2 * acc)
  end.

(** ** Circuits

    A [QuantumCircuit] of qiskit is kept as its sizes and the list of
    instructions appended so far.  The methods used by the scripts
    append one instruction per call (one per listed qubit when given a
    list) and raise [CircuitError] -- [None] here -- for an index that
    names no qubit or for a qubit given twice to one gate.  Indices are
    natural numbers. *)

Inductive instruction :=
| XGate (q : nat)
| HGate (q : nat)
| CXGate (c t : nat)
| CCXGate (c1 c2 t : nat)
| CSwapGate (c a b : nat)
| Barrier
| Measure (q c : nat).

Record QuantumCircuit := {
  num_qubits : nat;
  num_clbits : nat;
  data : list instruction
}.

(** [QuantumCircuit(n, m)] *)
Definition new_circuit (n m : nat) : QuantumCircuit :=
  {| num_qubits := n; num_clbits := m; data := [] |}.

Definition append_instruction (qc : QuantumCircuit) (g : instruction)
    : QuantumCircuit :=
  {| num_qubits := num_qubits qc; num_clbits := num_clbits qc;
     data := data qc ++ [g] |}.

(** The qubit arguments of one gate: all in range, none repeated *)
Definition valid_qargs (qc : QuantumCircuit) (qs : list nat) : bool :=
  forallb (fun q => q <? num_qubits qc)%nat qs && bool_decide (NoDup qs).

Definition add_gate (qc : QuantumCircuit) (g : instruction) (qs : list nat)
    : option QuantumCircuit :=
  if valid_qargs qc qs then Some (append_instruction qc g) else None.

(** [qc.x(q)], [qc.h(q)], [qc.cx(c, t)], [qc.ccx(c1, c2, t)],
    [qc.cswap(c, a, b)] *)
Definition qc_x (qc : QuantumCircuit) (q : nat) := add_gate qc (XGate q) [q].
Definition qc_h (qc : QuantumCircuit) (q : nat) := add_gate qc (HGate q) [q].
Definition qc_cx (qc : QuantumCircuit) (c t : nat) :=
  add_gate qc (CXGate c t) [c; t].
Definition qc_ccx (qc : QuantumCircuit) (c1 c2 t : nat) :=
  add_gate qc (CCXGate c1 c2 t) [c1; c2; t].
Definition qc_cswap (qc : QuantumCircuit) (c a b : nat) :=
  add_gate qc (CSwapGate c a b) [c; a; b].

(** [qc.x([q0, q1, ...])] and [qc.h([q0, q1, ...])]: one gate per qubit,
    in the order of the list *)
Fixpoint qc_x_each (qc : QuantumCircuit) (qs : list nat)
    : option QuantumCircuit :=
  match qs with
  | [] => Some qc
  | q :: rest => qc' ← qc_x qc q; qc_x_each qc' rest
  end.

Fixpoint qc_h_each (qc : QuantumCircuit) (qs : list nat)
    : option QuantumCircuit :=
  match qs with
  | [] => Some qc
  | q :: rest => qc' ← qc_h qc q; qc_h_each qc' rest
  end.

(** [qc.barrier()] *)
Definition qc_barrier (qc : QuantumCircuit) : QuantumCircuit :=
  append_instruction qc Barrier.

Definition measure_one (qc : QuantumCircuit) (q c : nat)
    : option QuantumCircuit :=
  if ((q <? num_qubits qc) && (c <? num_clbits qc))%nat
  then Some (append_instruction qc (Measure q c)) else None.

Fixpoint measure_pairs (qc : QuantumCircuit) (pairs : list (nat * nat))
    : option QuantumCircuit :=
  match pairs with
  | [] => Some qc
  | (q, c) :: rest => qc' ← measure_one qc q c; measure_pairs qc' rest
  end.

(** [qc.measure(qubits, clbits)] with two lists: qubit by qubit when the
    lengths agree, one qubit into every listed bit when it is alone, and
    an error otherwise. *)
Definition qc_measure (qc : QuantumCircuit) (qubits clbits : list nat)
    : option QuantumCircuit :=
  if (length qubits =? length clbits)%nat
  then measure_pairs qc (zip qubits clbits)
  else match qubits, clbits with
       | [q], _ :: _ => measure_pairs qc (map (fun c => (q, c)) clbits)
       | _, _ => None
       end.

(** *** [quantum_search_3pass.py] *)

Definition compare_and_swap (qc : QuantumCircuit) (i j anc_notj anc_cond : nat)
    : option QuantumCircuit :=
  qc ← qc_x qc j;
  qc ← qc_cx qc j anc_notj;
  qc ← qc_x qc j;
  qc ← qc_ccx qc i anc_notj anc_cond;
  qc ← qc_cswap qc anc_cond i j;
  qc ← qc_ccx qc i anc_notj anc_cond;
  qc_cx qc j anc_notj.

(** [bit == 1] *)
Definition py_eq_1 (v : pyval) : bool :=
  match v with
  | PInt z => z =? 1
  | PBool b => b
  | PNone | PList _ | PTuple _ => false
  end.

(** [for idx, bit in enumerate(input_bits): if bit == 1: qc.x(idx)],
    from index [idx] on *)
Fixpoint load_input_bits (qc : QuantumCircuit) (idx : nat)
    (input_bits : list pyval) : option QuantumCircuit :=
  match input_bits with
  | [] => Some qc
  | bit :: rest =>
      qc' ← (if py_eq_1 bit then qc_x qc idx else Some qc);
      load_input_bits qc' (S idx) rest
  end.

Definition quantum_sort_3pass (input_bits : list pyval)
    : option QuantumCircuit :=
  qc ← load_input_bits (new_circuit 5 5) 0 input_bits;
  qc ← compare_and_swap qc 0 1 3 4;
  qc ← compare_and_swap qc 1 2 3 4;
  qc ← compare_and_swap qc 0 1 3 4;
  qc_measure (qc_barrier qc) [0; 1; 2; 3; 4]%nat [4; 3; 2; 1; 0]%nat.

(** [most_common[k]] *)
Definition str_index (s : string) (k : nat) : result ascii :=
  match String.get k s with
  | Some c => Ok c
  | None => Raise IndexError
  end.

(** [int(c)] for a string of one character *)
Definition int_of_char (c : ascii) : result Z :=
  let n := nat_of_ascii c in
  if ((48 <=? n) && (n <=? 57))%nat then Ok (Z.of_nat n - 48)
  else Raise ValueError.

(** Lines 78-82: [sorted_q] *)
Definition sorted_q (most_common : string) : result (list Z) :=
  c4 ← str_index most_common 4; x ← int_of_char c4;
  c3 ← str_index most_common 3; y ← int_of_char c3;
  c2 ← str_index most_common 2; z ← int_of_char c2;
  Ok [x; y; z].

(** *** [quantum_search_2pass.py] *)

Definition comparator (qc : QuantumCircuit) (a b ancilla : nat)
    : option QuantumCircuit :=
  qc ← qc_cx qc b ancilla;
  qc ← qc_cx qc a ancilla;
  qc ← qc_ccx qc ancilla a b;
  qc ← qc_cx qc a ancilla;
  qc_cx qc b ancilla.

(** [for i, bit in enumerate(bits): if bit == "1": qc.x(i)] over the
    characters of a string, from index [i] on *)
Fixpoint load_bit_chars (qc : QuantumCircuit) (i : nat) (bits : string)
    : option QuantumCircuit :=
  match bits with
  | EmptyString => Some qc
  | String bit rest =>
      qc' ← (if Ascii.eqb bit "1" then qc_x qc i else Some qc);
      load_bit_chars qc' (S i) rest
  end.

Definition run_quantum_sort (bits : string) : option QuantumCircuit :=
  qc ← load_bit_chars (new_circuit 4 3) 0 bits;
  qc ← comparator (qc_barrier qc) 0 1 3;
  qc ← comparator qc 1 2 3;
  qc_measure (qc_barrier qc) [0; 1; 2]%nat [0; 1; 2]%nat.

(** [inputs = [format(i, "03b") for i in range(8)]] *)
Definition inputs : list (result string) :=
  map (fun i => format_0b 3 (Z.of_nat i)) (seq 0 8).

(** *** The Grover circuit of [quantum_sort_ibm.py] *)

Definition TARGET_STATE : string := "011".
Definition NUM_GROVER_ITERS : nat := 2.

Definition apply_oracle (qc : QuantumCircuit) : option QuantumCircuit :=
  qc ← qc_x qc 2;
  qc ← qc_h qc 0;
  qc ← qc_ccx qc 1 2 0;
  qc ← qc_h qc 0;
  qc_x qc 2.

Definition apply_diffusion (qc : QuantumCircuit) : option QuantumCircuit :=
  qc ← qc_h_each qc [0; 1; 2]%nat;
  qc ← qc_x_each qc [0; 1; 2]%nat;
  qc ← qc_h qc 2;
  qc ← qc_ccx qc 0 1 2;
  qc ← qc_h qc 2;
  qc ← qc_x_each qc [0; 1; 2]%nat;
  qc_h_each qc [0; 1; 2]%nat.

(** [for _ in range(n): apply_oracle(qc); apply_diffusion(qc)] *)
Fixpoint grover_iterations (n : nat) (qc : QuantumCircuit)
    : option QuantumCircuit :=
  match n with
  | O => Some qc
  | S k =>
      qc ← apply_oracle qc;
      qc ← apply_diffusion qc;
      grover_iterations k qc
  end.

Definition build_circuit : option QuantumCircuit :=
  qc ← qc_h_each (new_circuit 3 3) [0; 1; 2]%nat;
  qc ← grover_iterations NUM_GROVER_ITERS qc;
  qc_measure qc [0; 1; 2]%nat [0; 1; 2]%nat.

(** ** Running a circuit on basis states

    The gates X, CX, CCX and CSWAP map a basis state to a basis state:
    the qubits are booleans, X negates, the controlled gates act when
    their controls are set.  H leaves the basis states; a circuit with
    an H has no run of this kind. *)

Definition qubit (qs : list bool) (q : nat) : bool := default false (qs !! q).

Definition exec_basis (g : instruction) (st : list bool * list bool)
    : option (list bool * list bool) :=
  let (qs, cs) := st in
  match g with
  | XGate q => Some (<[q := negb (qubit qs q)]> qs, cs)
  | HGate _ => None
  | CXGate c t => Some (<[t := xorb (qubit qs t) (qubit qs c)]> qs, cs)
  | CCXGate c1 c2 t =>
      Some (<[t := xorb (qubit qs t) (qubit qs c1 && qubit qs c2)]> qs, cs)
  | CSwapGate c a b =>
      Some (if qubit qs c
            then <[a := qubit qs b]> (<[b := qubit qs a]> qs)
            else qs, cs)
  | Barrier => Some (qs, cs)
  | Measure q c => Some (qs, <[c := qubit qs q]> cs)
  end.

Fixpoint exec_basis_list (gs : list instruction) (st : list bool * list bool)
    : option (list bool * list bool) :=
  match gs with
  | [] => Some st
  | g :: rest => st' ← exec_basis g st; exec_basis_list rest st'
  end.

(** All qubits and classical bits start at 0. *)
Definition run_basis (qc : QuantumCircuit) : option (list bool * list bool) :=
  exec_basis_list (data qc)
    (replicate (num_qubits qc) false, replicate (num_clbits qc) false).

(** The key of [get_counts()]: the classical bits, bit 0 last *)
Fixpoint key_of_clbits (cs : list bool) : string :=
  match cs with
  | [] => ""
  | c :: rest => key_of_clbits rest +:+ (if c then "1" else "0")
  end.

(** [get_counts()] of a noise-free simulation: every shot gives the same
    key. *)
Definition basis_counts (qc : QuantumCircuit) (shots : Z)
    : option (gmap string Z) :=
  st ← run_basis qc; Some {[ key_of_clbits (snd st) := shots ]}.

(** ** Running a circuit on amplitudes

    A state of [n] qubits is a list of [2^n] integers and a count [h] of
    the H gates applied: the amplitude of the basis state number [i]
    (qubit [q] is bit [q] of [i]) is [amps[i] / sqrt(2)^h].  X and the
    controlled gates permute the amplitudes; H sends the pair [(a, b)]
    of a qubit to [(a + b, a - b)] and counts one more. *)

Record qstate := { hcount : nat; amps : list Z }.

Definition amp (v : list Z) (i : nat) : Z := default 0 (v !! i).

Definition flip_bit (i q : nat) : nat := Nat.lxor i (2 ^ q).

Definition exec_amps (g : instruction) (st : qstate) : qstate :=
  let v := amps st in
  match g with
  | XGate q =>
      {| hcount := hcount st;
         amps := imap (fun i _ => amp v (flip_bit i q)) v |}
  | HGate q =>
      {| hcount := S (hcount st);
         amps := imap (fun i a => if Nat.testbit i q
                                  then amp v (flip_bit i q) - a
                                  else a + amp v (flip_bit i q)) v |}
  | CXGate c t =>
      {| hcount := hcount st;
         amps := imap (fun i a => if Nat.testbit i c
                                  then amp v (flip_bit i t) else a) v |}
  | CCXGate c1 c2 t =>
      {| hcount := hcount st;
         amps := imap (fun i a => if Nat.testbit i c1 && Nat.testbit i c2
                                  then amp v (flip_bit i t) else a) v |}
  | CSwapGate c a b =>
      {| hcount := hcount st;
         amps := imap (fun i x =>
                         if Nat.testbit i c
                            && xorb (Nat.testbit i a) (Nat.testbit i b)
                         then amp v (flip_bit (flip_bit i a) b) else x) v |}
  | Barrier | Measure _ _ => st
  end.

Definition exec_amps_list (gs : list instruction) (st : qstate) : qstate :=
  foldl (fun st g => exec_amps g st) st gs.

(** The state [|0...0>] of [n] qubits *)
Definition zero_state (n : nat) : qstate :=
  {| hcount := 0; amps := 1 :: replicate (2 ^ n - 1) 0 |}.

(** The state before the final measurements *)
Definition run_amps (qc : QuantumCircuit) : qstate :=
  exec_amps_list (data qc) (zero_state (num_qubits qc)).

(** The probability of the basis state number [i] is
    [prob_num st i / prob_den st]. *)
Definition prob_num (st : qstate) (i : nat) : Z := amp (amps st) i ^ 2.
Definition prob_den (st : qstate) : Z := 2 ^ Z.of_nat (hcount st).

(** ** Renaming qubits

    [rename_gate ks g] is the gate [g] with every qubit position [p]
    replaced by the qubit [ks[p]]; it lets a circuit on a few qubits
    stand for the same circuit on any distinct qubits of a larger
    register. *)
Definition rename_gate (ks : list nat) (g : instruction) : instruction :=
  let r p := nth p ks O in
  match g with
  | XGate q => XGate (r q)
  | HGate q => HGate (r q)
  | CXGate c t => CXGate (r c) (r t)
  | CCXGate c1 c2 t => CCXGate (r c1) (r c2) (r t)
  | CSwapGate c a b => CSwapGate (r c) (r a) (r b)
  | Barrier => Barrier
  | Measure q c => Measure (r q) c
  end.

(** The positions that a gate names are below [n]. *)
Definition gate_below (n : nat) (g : instruction) : Prop :=
  match g with
  | XGate q | HGate q | Measure q _ => (q < n)%nat
  | CXGate c t => (c < n /\ t < n)%nat
  | CCXGate c1 c2 t => (c1 < n /\ c2 < n /\ t < n)%nat
  | CSwapGate c a b => (c < n /\ a < n /\ b < n)%nat
  | Barrier => True
  end.

(** The character of a bit *)
Definition bit_char (b : bool) : ascii := if b then "1"%char else "0"%char.

(** The string of three bits *)
Definition bits3 (b0 b1 b2 : bool) : string :=
  String (bit_char b0) (String (bit_char b1) (String (bit_char b2) "")).

(** One Grover iteration on a state whose target amplitude is the
    integer [t] and whose seven other amplitudes are all [o] *)
Definition grover_step (s : Z * Z) : Z * Z :=
  let (t, o) := s in (- 24 * t - 56 * o, 8 * t - 24 * o).

(** ** The whole of [run]

    [run] returns [None] or raises.  Besides the errors of the trials it
    can raise [ImportError] and, in its report, the errors of the
    division [100 * cnt / total] of two ints.  The text it prints is not
    kept. *)

Inductive run_exn :=
| TrialError (e : exn)
| ImportError
| ZeroDivisionError.

Inductive outcome :=
| Returns
| Raises (e : run_exn).

(** [a / b] for two ints gives the nearest double; it raises
    [ZeroDivisionError] for [b = 0] and [OverflowError] when that double
    would be beyond the largest one, that is from
    [|a / b| >= 2^1024 - 2^970] on.  [None] stands for a float. *)
Definition float_overflow_bound : Z := 2 ^ 1024 - 2 ^ 970.

Definition true_div_error (a b : Z) : option run_exn :=
  if b =? 0 then Some ZeroDivisionError
  else if float_overflow_bound * Z.abs b <=? Z.abs a
       then Some (TrialError OverflowError)
       else None.

(** The first error among the divisions of the loop of lines 136-139 *)
Fixpoint items_error (total : Z) (items : list (string * Z))
    : option run_exn :=
  match items with
  | [] => None
  | (_, cnt) :: rest =>
      match true_div_error (100 * cnt) total with
      | Some e => Some e
      | None => items_error total rest
      end
  end.

(** Lines 134-142.  The items are taken in the order of [map_to_list]
    and not sorted: with [total = 0] the first division fails in any
    order, and otherwise the only possible error is [OverflowError],
    whichever item raises it. *)
Definition report (total : Z) (aggregated : gmap string Z) : outcome :=
  match items_error total (map_to_list aggregated) with
  | Some e => Raises e
  | None =>
      match true_div_error (100 * default 0 (aggregated !! TARGET_STATE))
                           total with
      | Some e => Raises e
      | None => Returns
      end
  end.

(** [run(trials, shots, hw=hw, backend_name=...)];
    [runtime_installed] tells whether [qiskit_ibm_runtime] was imported,
    that is whether [QiskitRuntimeService] is not [None].  The service,
    the backend and their jobs are the [Backend] given, and printing is
    taken to succeed. *)
Definition run (runtime_installed : bool) (trials shots : Z) (hw : bool)
    (b : Backend) : outcome :=
  if hw && negb runtime_installed then Raises ImportError
  else
    match run_trials trials shots hw b with
    | Raise e => Raises (TrialError e)
    | Ok aggregated => report (trials * shots) aggregated
    end.

(** ** The Python operations on small inputs *)

Example format_3 : format_0b 3 3 = Ok "011".
Proof. reflexivity. Qed.

Example format_neg : format_0b 5 (-3) = Ok "-0011".
Proof. reflexivity. Qed.

Example format_wide : format_0b 3 12 = Ok "1100".
Proof. reflexivity. Qed.

Example format_bad_width : format_0b (-1) 5 = Raise ValueError.
Proof. reflexivity. Qed.

Example repr_nested :
  py_repr (PList [PInt 2; PTuple [PInt (-3)]; PNone; PTuple []; PBool true])
  = Ok "[2, (-3,), None, (), True]".
Proof. reflexivity. Qed.

Example literals_are_doubles :
  forallb (valid_binary prec emax) [f0_6; f0_4; f0_5; f0_15] = true.
Proof. reflexivity. Qed.

Example six_tenths_of_ten : mul_int f0_6 10
  = Ok (S754_finite false 6755399441055744 (-50)).
Proof. vm_compute. reflexivity. Qed.

Example round_half_to_even : count_of f0_5 1 = Ok 0 /\ count_of f0_5 3 = Ok 2.
Proof. split; vm_compute; reflexivity. Qed.

(** The product is rounded to a double before [round] sees it:
    [0.15 * 10] is [1.5] and rounds to 2, though the double [0.15] is
    below 15/100. *)
Example product_is_rounded_first : count_of f0_15 10 = Ok 2.
Proof. vm_compute. reflexivity. Qed.

Example int_key : _to_bits (KVal (PInt 3)) = Ok "3".
Proof. reflexivity. Qed.

Example tuple_key_with_none :
  _to_bits (KVal (PTuple [PInt 0; PNone])) = Ok "(0, None)".
Proof. reflexivity. Qed.

Example row_with_none :
  _bitarray_to_strings (bitarr_of [PList [PNone; PInt 0; PInt 0]] None)
  = Raise TypeError.
Proof. reflexivity. Qed.

Example two_trials_aggregated :
  Counter_update (Counter_update ∅ {[ "011" := 600 ]})
                 {[ "011" := 500; "100" := 20 ]}
  = {[ "011" := 1100; "100" := 20 ]}.
Proof. vm_compute. reflexivity. Qed.

(** A job that fails ends the trial, and the run, with its error. *)
Example failed_job_ends_run :
  trial_counts false 0 (failing_backend (OtherError "QiskitError")) 0
  = Raise (OtherError "QiskitError")
  /\ run_trials 1 0 false (failing_backend (OtherError "QiskitError"))
     = Raise (OtherError "QiskitError")
  /\ run false 1 0 false (failing_backend (OtherError "QiskitError"))
     = Raises (TrialError (OtherError "QiskitError")).
Proof. repeat split. Qed.

Example no_internals :
  _bitarray_to_strings
    {| tolist := None; _array := None; array := None; num_bits := Some 3 |}
  = Raise unrecognised_internals.
Proof. reflexivity. Qed.

(** ** Strings *)

Lemma length_app_string (s t : string) :
  String.length (s +:+ t) = (String.length s + String.length t)%nat.
Proof. induction s as [|c s IH]; simpl; [reflexivity | now rewrite IH]. Qed.

Lemma is_bitstring_app (s t : string) :
  is_bitstring (s +:+ t) = is_bitstring s && is_bitstring t.
Proof.
  induction s as [|c s IH]; simpl; [reflexivity |].
  rewrite IH. now rewrite andb_assoc.
Qed.

Lemma length_zeros n : String.length (zeros n) = n.
Proof. induction n; simpl; congruence. Qed.

Lemma is_bitstring_zeros n : is_bitstring (zeros n) = true.
Proof. induction n; simpl; auto. Qed.

Lemma length_bin_pos p acc :
  String.length (bin_pos p acc) = (Pos.size_nat p + String.length acc)%nat.
Proof.
  revert acc. induction p as [p IH|p IH|]; intros acc; simpl;
    try rewrite IH; simpl; lia.
Qed.

Lemma is_bitstring_bin_pos p acc :
  is_bitstring (bin_pos p acc) = is_bitstring acc.
Proof.
  revert acc. induction p as [p IH|p IH|]; intros acc; simpl;
    try rewrite IH; reflexivity.
Qed.

Lemma is_bitstring_bin_digits z : is_bitstring (bin_digits z) = true.
Proof. destruct z; simpl; try apply is_bitstring_bin_pos; reflexivity. Qed.

Lemma length_zfill w s :
  String.length (zfill w s) = Nat.max w (String.length s).
Proof. unfold zfill. rewrite length_app_string, length_zeros. lia. Qed.

Lemma is_bitstring_zfill w s : is_bitstring (zfill w s) = is_bitstring s.
Proof. unfold zfill. now rewrite is_bitstring_app, is_bitstring_zeros. Qed.

(** The number of binary digits against powers of two *)
Lemma size_nat_le p (n : nat) :
  Zpos p < 2 ^ Z.of_nat n -> (Pos.size_nat p <= n)%nat.
Proof.
  revert n. induction p as [p IH|p IH|]; intros n H; simpl.
  - destruct n as [|n]; [simpl in H; lia |].
    rewrite Nat2Z.inj_succ, Z.pow_succ_r in H by lia.
    specialize (IH n). lia.
  - destruct n as [|n]; [simpl in H; lia |].
    rewrite Nat2Z.inj_succ, Z.pow_succ_r in H by lia.
    specialize (IH n). lia.
  - destruct n as [|n]; [simpl in H; lia | lia].
Qed.

Lemma size_nat_gt p (n : nat) :
  2 ^ Z.of_nat n <= Zpos p -> (n < Pos.size_nat p)%nat.
Proof.
  revert n. induction p as [p IH|p IH|]; intros n H; simpl.
  - destruct n as [|n]; [lia |].
    rewrite Nat2Z.inj_succ, Z.pow_succ_r in H by lia.
    specialize (IH n). lia.
  - destruct n as [|n]; [lia |].
    rewrite Nat2Z.inj_succ, Z.pow_succ_r in H by lia.
    specialize (IH n). lia.
  - destruct n as [|n]; [lia |].
    rewrite Nat2Z.inj_succ, Z.pow_succ_r in H by lia.
    assert (0 < 2 ^ Z.of_nat n) by (apply Z.pow_pos_nonneg; lia). lia.
Qed.

Lemma length_bin_digits_le z (n : nat) :
  0 <= z < 2 ^ Z.of_nat n -> (1 <= n)%nat ->
  (String.length (bin_digits z) <= n)%nat.
Proof.
  intros [H0 H1] Hn. destruct z as [|p|p]; simpl; [lia | | lia].
  rewrite length_bin_pos. simpl. pose proof (size_nat_le p n H1). lia.
Qed.

Lemma length_bin_digits_gt z (n : nat) :
  2 ^ Z.of_nat n <= z -> (n < String.length (bin_digits z))%nat.
Proof.
  intros H. assert (0 < 2 ^ Z.of_nat n) by (apply Z.pow_pos_nonneg; lia).
  destruct z as [|p|p]; simpl; [lia | | lia].
  rewrite length_bin_pos. simpl. pose proof (size_nat_gt p n H). lia.
Qed.

(** ** [format] and [join] *)

Ltac unfold_bind := unfold mbind, result_bind, bind in *.

Lemma format_0b_in_range W n :
  0 < W -> 0 <= n < 2 ^ W ->
  exists s, format_0b W n = Ok s /\ bitstring_of_width W s.
Proof.
  intros HW Hn. unfold format_0b.
  destruct (Z.ltb_spec W 0); [lia |].
  destruct (Z.ltb_spec n 0); [lia |].
  eexists; split; [reflexivity |]. split.
  - now rewrite is_bitstring_zfill, is_bitstring_bin_digits.
  - rewrite length_zfill.
    assert (String.length (bin_digits n) <= Z.to_nat W)%nat.
    { apply length_bin_digits_le; [rewrite Z2Nat.id by lia; lia | lia]. }
    lia.
Qed.

Lemma format_0b_above W n :
  0 <= W -> 2 ^ W <= n ->
  exists s, format_0b W n = Ok s /\ is_bitstring s = true
            /\ W < Z.of_nat (String.length s).
Proof.
  intros HW Hn. unfold format_0b.
  assert (0 < 2 ^ W) by (apply Z.pow_pos_nonneg; lia).
  destruct (Z.ltb_spec W 0); [lia |].
  destruct (Z.ltb_spec n 0); [lia |].
  eexists; split; [reflexivity |]. split.
  - now rewrite is_bitstring_zfill, is_bitstring_bin_digits.
  - rewrite length_zfill.
    assert (Z.to_nat W < String.length (bin_digits n))%nat.
    { apply length_bin_digits_gt. rewrite Z2Nat.id by lia. lia. }
    lia.
Qed.

Lemma str_of_int_0 : str_of_int 0 = Ok "0".
Proof. reflexivity. Qed.

Lemma str_of_int_1 : str_of_int 1 = Ok "1".
Proof. reflexivity. Qed.

Lemma str_of_int_short z :
  (decimal_digits z <= int_max_str_digits)%nat -> str_of_int z = Ok (decimal z).
Proof.
  intros H. unfold str_of_int. apply Nat.leb_le in H. now rewrite H.
Qed.

Lemma str_of_int_long z :
  (int_max_str_digits < decimal_digits z)%nat -> str_of_int z = Raise ValueError.
Proof.
  intros H. unfold str_of_int. apply Nat.leb_gt in H. now rewrite H.
Qed.

(** The decimal rendering of [10^k] has [k + 1] digits. *)
Lemma length_string_of_uint d :
  String.length (NilEmpty.string_of_uint d) = Decimal.nb_digits d.
Proof. induction d; simpl; congruence. Qed.

Lemma to_little_uint_pow10 (k : nat) :
  exists p, 10 ^ Z.of_nat k = Zpos p
            /\ Pos.to_little_uint p
               = Nat.iter k Decimal.D0 (Decimal.D1 Decimal.Nil).
Proof.
  induction k as [|k (p & Hp & Hd)].
  - exists 1%positive. split; reflexivity.
  - exists (10 * p)%positive. split.
    + rewrite Nat2Z.inj_succ, Z.pow_succ_r, Hp by lia. reflexivity.
    + change (Nat.iter (S k) Decimal.D0 (Decimal.D1 Decimal.Nil))
        with (Decimal.D0 (Nat.iter k Decimal.D0 (Decimal.D1 Decimal.Nil))).
      rewrite <- Hd. exact (DecimalPos.Unsigned.to_ldec_tenfold p).
Qed.

Lemma decimal_digits_pow10 (k : nat) :
  decimal_digits (10 ^ Z.of_nat k) = S k
  /\ decimal_digits (- 10 ^ Z.of_nat k) = S k.
Proof.
  destruct (to_little_uint_pow10 k) as (p & Hp & Hd). rewrite Hp.
  assert (H : decimal_digits (Zpos p) = S k).
  { assert (Hs : decimal (Zpos p) = NilEmpty.string_of_uint (Pos.to_uint p)).
    { unfold decimal. change (Z.to_int (Zpos p)) with (Decimal.Pos (Pos.to_uint p)).
      unfold NilZero.string_of_int, NilZero.string_of_uint.
      pose proof (DecimalPos.Unsigned.to_uint_nonnil p) as Hnil.
      destruct (Pos.to_uint p); [now destruct Hnil | reflexivity ..]. }
    unfold decimal_digits. change (Z.abs (Zpos p)) with (Zpos p).
    rewrite Hs, length_string_of_uint. unfold Pos.to_uint.
    rewrite DecimalFacts.nb_digits_rev, Hd, DecimalFacts.nb_digits_iter_D0.
    simpl. lia. }
  split; [exact H |]. exact H.
Qed.

(** [str(10**4299)] has 4300 digits and is rendered; [str(10**4300)]
    has 4301 and raises, as does [str(-10**4300)]. *)
Lemma str_of_int_limit :
  str_of_int (10 ^ 4299) = Ok (decimal (10 ^ 4299))
  /\ str_of_int (10 ^ 4300) = Raise ValueError
  /\ str_of_int (- 10 ^ 4300) = Raise ValueError.
Proof.
  split; [| split].
  - change 4299 with (Z.of_nat 4299). apply str_of_int_short.
    rewrite (proj1 (decimal_digits_pow10 4299)). apply Nat.le_refl.
  - change 4300 with (Z.of_nat 4300). apply str_of_int_long.
    rewrite (proj1 (decimal_digits_pow10 4300)). apply Nat.lt_succ_diag_r.
  - change 4300 with (Z.of_nat 4300). apply str_of_int_long.
    rewrite (proj2 (decimal_digits_pow10 4300)). apply Nat.lt_succ_diag_r.
Qed.

Lemma str_of_int_cases z :
  str_of_int z = Ok (decimal z) \/ str_of_int z = Raise ValueError.
Proof. unfold str_of_int. destruct (_ <=? _)%nat; auto. Qed.

Lemma join_bits_cons b rest :
  join_bits (b :: rest)
  = (z ← py_int b; d ← str_of_int z; s ← join_bits rest; Ok (d +:+ s)).
Proof. reflexivity. Qed.

Lemma join_bits_bit_row items :
  Forall is_bit items ->
  exists s, join_bits items = Ok s /\ is_bitstring s = true
            /\ String.length s = length items.
Proof.
  induction 1 as [|b items Hb _ IH].
  - exists ""; auto.
  - destruct IH as (s & Hj & Hs & Hlen). rewrite join_bits_cons, Hj.
    destruct Hb as [-> | ->]; cbn [py_int]; unfold_bind;
      rewrite ?str_of_int_0, ?str_of_int_1;
      eexists; (split; [reflexivity |]);
      rewrite is_bitstring_app, length_app_string, Hs, Hlen; auto.
Qed.

Lemma join_bits_valid W items :
  bit_row W items ->
  exists s, join_bits items = Ok s /\ bitstring_of_width W s.
Proof.
  intros [Hlen Hbits].
  destruct (join_bits_bit_row items Hbits) as (s & Hs & Hb & Hl).
  exists s. repeat split; auto. now rewrite Hl.
Qed.

(** ** The loop over the rows *)

Lemma append_empty_r (s : string) : s +:+ "" = s.
Proof.
  unfold String.append. induction s as [|c s IH]; simpl; congruence.
Qed.

(** On a single-element row the first test succeeds exactly when the
    width is 1. *)
Lemma join_bits_single n : join_bits [PInt n] = str_of_int n.
Proof.
  rewrite join_bits_cons. cbn [py_int join_bits]. unfold_bind.
  destruct (str_of_int n); [| reflexivity]. now rewrite append_empty_r.
Qed.

Lemma sample_string_single_list W n :
  sample_string W (PList [PInt n])
  = if 1 =? W then str_of_int n else format_0b W n.
Proof.
  unfold sample_string. change (Z.of_nat (length [PInt n])) with 1.
  destruct (1 =? W); [apply join_bits_single | reflexivity].
Qed.

Lemma sample_string_single_tuple W n :
  sample_string W (PTuple [PInt n])
  = if 1 =? W then str_of_int n else format_0b W n.
Proof.
  unfold sample_string. change (Z.of_nat (length [PInt n])) with 1.
  destruct (1 =? W); [apply join_bits_single | reflexivity].
Qed.

Lemma sample_string_valid W sample :
  0 < W -> valid_row W sample ->
  exists s, sample_string W sample = Ok s /\ bitstring_of_width W s.
Proof.
  intros HW Hv.
  assert (Hsingle : forall n, 0 <= n < 2 ^ W ->
     exists s, (if 1 =? W then str_of_int n else format_0b W n) = Ok s
               /\ bitstring_of_width W s).
  { intros n Hn. destruct (Z.eqb_spec 1 W) as [<- | Hne].
    - assert (n = 0 \/ n = 1) as [-> | ->] by lia;
        eexists; (split; [reflexivity |]); split; reflexivity.
    - now apply format_0b_in_range. }
  destruct Hv as [items Hr|items Hr|n Hn|n Hn|n Hn].
  - simpl. destruct Hr as [Hlen Hbits]. rewrite (proj2 (Z.eqb_eq _ _) Hlen).
    now apply join_bits_valid.
  - simpl. destruct Hr as [Hlen Hbits]. rewrite (proj2 (Z.eqb_eq _ _) Hlen).
    now apply join_bits_valid.
  - rewrite sample_string_single_list. now apply Hsingle.
  - rewrite sample_string_single_tuple. now apply Hsingle.
  - now apply format_0b_in_range.
Qed.

(** The loop appends, row by row, the string of each row, and stops at
    the first row whose conversion raises. *)
Lemma rows_loop_ok W rows strings out :
  rows_loop W rows strings = Ok out <->
  exists strs, out = strings ++ strs
               /\ Forall2 (fun r s => sample_string W r = Ok s) rows strs.
Proof.
  revert strings out. induction rows as [|r rows IH]; intros strings out; simpl.
  - split.
    + intros [= <-]. exists []. rewrite app_nil_r. auto.
    + intros (strs & -> & HF). inversion HF. now rewrite app_nil_r.
  - unfold_bind. destruct (sample_string W r) as [s|e] eqn:Hs.
    + rewrite IH. split.
      * intros (strs & -> & HF). exists (s :: strs).
        rewrite <- app_assoc. simpl. auto.
      * intros (strs & -> & HF). inversion HF as [|? s' ? strs' Hs' HF']; subst.
        assert (s' = s) as -> by congruence.
        exists strs'. rewrite <- app_assoc. auto.
    + split; [discriminate |].
      intros (strs & _ & HF). inversion HF; congruence.
Qed.



(** ** Counters and their totals *)

Lemma total_empty : total ∅ = 0.
Proof. unfold total. apply map_fold_empty. Qed.

Lemma total_insert_fresh (m : gmap string Z) k v :
  m !! k = None -> total (<[k := v]> m) = v + total m.
Proof.
  intros Hk. unfold total.
  rewrite map_fold_insert_L; [reflexivity | intros; lia | exact Hk].
Qed.

Lemma total_insert (m : gmap string Z) k v :
  total (<[k := v]> m) = v + total m - default 0 (m !! k).
Proof.
  destruct (m !! k) as [old|] eqn:Hk; simpl.
  - rewrite <- (insert_delete_id m k old Hk) at 2.
    rewrite <- insert_delete_eq.
    rewrite !total_insert_fresh by apply lookup_delete_eq. lia.
  - rewrite total_insert_fresh by exact Hk. lia.
Qed.

Lemma Counter_snoc l s :
  Counter (l ++ [s]) = <[s := default 0 (Counter l !! s) + 1]> (Counter l).
Proof. unfold Counter. now rewrite foldl_app. Qed.

Lemma total_Counter l : total (Counter l) = Z.of_nat (length l).
Proof.
  induction l as [|s l IH] using rev_ind.
  - apply total_empty.
  - rewrite Counter_snoc, total_insert, IH, length_app. simpl. lia.
Qed.

Lemma dom_Counter l s : s ∈ dom (Counter l) <-> s ∈ l.
Proof.
  induction l as [|x l IH] using rev_ind.
  - unfold Counter. simpl. rewrite dom_empty_L. split.
    + intros H. now apply not_elem_of_empty in H.
    + intros H. now apply not_elem_of_nil in H.
  - rewrite Counter_snoc, dom_insert_L, elem_of_union, elem_of_singleton.
    rewrite elem_of_app, IH, list_elem_of_singleton. tauto.
Qed.

Lemma Counter_update_empty agg : Counter_update agg ∅ = agg.
Proof. unfold Counter_update. apply map_fold_empty. Qed.

Lemma Counter_update_insert agg (counts : gmap string Z) k v :
  counts !! k = None ->
  Counter_update agg (<[k := v]> counts)
  = <[k := v + default 0 (Counter_update agg counts !! k)]>
      (Counter_update agg counts).
Proof.
  intros Hk. unfold Counter_update.
  rewrite map_fold_insert_L; [reflexivity | | exact Hk].
  intros j1 j2 z1 z2 y Hne _ _.
  rewrite !lookup_insert_ne by congruence.
  now apply insert_insert_ne.
Qed.

(** Updating adds the counts key by key. *)
Lemma lookup_Counter_update agg (counts : gmap string Z) k :
  default 0 (Counter_update agg counts !! k)
  = default 0 (agg !! k) + default 0 (counts !! k).
Proof.
  induction counts as [|j v counts Hj IH] using map_ind.
  - rewrite Counter_update_empty, lookup_empty. simpl. lia.
  - rewrite Counter_update_insert by exact Hj.
    destruct (decide (j = k)) as [-> | Hne].
    + rewrite !lookup_insert_eq. simpl. rewrite IH, Hj. simpl. lia.
    + rewrite !lookup_insert_ne by exact Hne. exact IH.
Qed.

Lemma total_Counter_update agg counts :
  total (Counter_update agg counts) = total agg + total counts.
Proof.
  induction counts as [|j v counts Hj IH] using map_ind.
  - rewrite Counter_update_empty, total_empty. lia.
  - rewrite Counter_update_insert by exact Hj.
    rewrite total_insert, total_insert_fresh by exact Hj. rewrite IH.
    destruct (Counter_update agg counts !! j); simpl; lia.
Qed.

(** ** Conversion of keys *)

Lemma join_bits_ints items :
  Forall int_like items -> Forall short_int items ->
  exists s, join_bits items = Ok s.
Proof.
  induction 1 as [|b items Hb _ IH]; intros Hs; [exists ""; reflexivity |].
  apply Forall_cons in Hs as [Hb' Hs]. destruct (IH Hs) as [s Hj].
  rewrite join_bits_cons, Hj.
  destruct b as [z|[|]| | |]; simpl in Hb; try contradiction;
    cbn [py_int]; unfold_bind.
  - rewrite str_of_int_short by exact Hb'. eauto.
  - rewrite str_of_int_1. eauto.
  - rewrite str_of_int_0. eauto.
Qed.

Lemma join_bits_Ok items s :
  join_bits items = Ok s -> Forall int_like items /\ Forall short_int items.
Proof.
  revert s. induction items as [|b items IH]; intros s; [split; constructor |].
  rewrite join_bits_cons. unfold_bind.
  destruct b as [z|c| | |]; cbn [py_int]; try discriminate.
  - unfold str_of_int.
    destruct (Nat.leb_spec (decimal_digits z) int_max_str_digits) as [Hz|];
      [| discriminate].
    destruct (join_bits items) as [t|] eqn:Hj; [| discriminate].
    intros _. destruct (IH t eq_refl) as [Hi Hs].
    split; constructor; simpl; auto.
  - destruct (str_of_int _); [| discriminate].
    destruct (join_bits items) as [t|] eqn:Hj; [| discriminate].
    intros _. destruct (IH t eq_refl) as [Hi Hs].
    split; constructor; simpl; auto.
Qed.

(** The join fails with the [TypeError] of an [int(b)] or with the
    [ValueError] of a [str(...)], both of them [Exception]s. *)
Lemma join_bits_Raise items e :
  join_bits items = Raise e -> e = TypeError \/ e = ValueError.
Proof.
  induction items as [|b items IH]; [discriminate |].
  rewrite join_bits_cons. unfold_bind.
  destruct (py_int b) as [z|e'] eqn:Hb.
  - destruct (str_of_int_cases z) as [-> | ->].
    + destruct (join_bits items); [discriminate |].
      intros [= <-]. now apply IH.
    + intros [= <-]. auto.
  - destruct b; simpl in Hb; try discriminate; injection Hb as <-;
      intros [= <-]; auto.
Qed.

Lemma join_bits_Raise_Exception items e :
  join_bits items = Raise e -> is_Exception e = true.
Proof. intros H. now destruct (join_bits_Raise _ _ H) as [-> | ->]. Qed.

Lemma bind_Ok_r {A} (r : result A) : (a ← r; Ok a) = r.
Proof. now destruct r. Qed.

Lemma join_key_list l : join_key (KVal (PList l)) = join_bits l.
Proof. unfold join_key. cbn [key_items]. apply bind_Ok_r. Qed.

Lemma join_key_tuple l : join_key (KVal (PTuple l)) = join_bits l.
Proof. unfold join_key. cbn [key_items]. apply bind_Ok_r. Qed.

(** The join of a key returns exactly when the key is an iterable of
    integers that [str] renders. *)
Lemma join_key_Ok key s :
  join_key key = Ok s <->
  exists items, key_iter key = Ok items /\ join_bits items = Ok s.
Proof.
  unfold join_key, key_iter. destruct (key_items key) as [items [e|]].
  - split.
    + unfold_bind. destruct (join_bits items); discriminate.
    + intros (? & ? & _). discriminate.
  - rewrite bind_Ok_r. split.
    + intros H. exists items. auto.
    + intros (? & [= <-] & H). exact H.
Qed.

(** When the join of a key raises, the exception is one of the join
    itself or the one that ended the iteration. *)
Lemma join_key_Raise key e :
  join_key key = Raise e ->
  e = TypeError \/ e = ValueError \/ snd (key_items key) = Some e.
Proof.
  unfold join_key. destruct (key_items key) as [items stop]. unfold_bind.
  destruct (join_bits items) as [s|e'] eqn:Hj.
  - destruct stop as [e'|]; [| discriminate]. intros [= <-]. auto.
  - intros [= <-]. destruct (join_bits_Raise _ _ Hj); auto.
Qed.

Lemma _to_bits_not_str key :
  ~ is_str key ->
  _to_bits key
  = try_except (call_to01 key) is_AttributeError
      (try_except (join_key key) is_Exception (py_str key)).
Proof. destruct key; simpl; tauto. Qed.

Lemma call_to01_no_attribute key :
  ~ has_to01 key -> ~ is_str key -> call_to01 key = Raise AttributeError.
Proof.
  destruct key as [s|bits|v|o]; simpl; try tauto.
  intros H _. destruct (obj_to01 o); [| reflexivity]. now destruct H.
Qed.

Lemma _to_bits_fallback key :
  ~ is_str key -> ~ has_to01 key -> ~ iterable_of_short_ints key ->
  (forall e, snd (key_items key) = Some e -> is_Exception e = true) ->
  _to_bits key = py_str key.
Proof.
  intros Hs Ht Hi Hstop.
  rewrite (_to_bits_not_str _ Hs), (call_to01_no_attribute _ Ht Hs).
  cbn [try_except is_AttributeError].
  destruct (join_key key) as [s|e] eqn:Hj.
  - exfalso. apply Hi. apply join_key_Ok in Hj as (items & Hiter & Hjoin).
    exists items. split; [exact Hiter |]. now apply join_bits_Ok in Hjoin.
  - cbn [try_except].
    destruct (join_key_Raise _ _ Hj) as [-> | [-> | Hstop']];
      try reflexivity.
    now rewrite (Hstop _ Hstop').
Qed.

Lemma _to_bits_joined key items :
  ~ is_str key -> ~ has_to01 key ->
  key_iter key = Ok items -> Forall int_like items -> Forall short_int items ->
  _to_bits key = join_bits items.
Proof.
  intros Hs Ht Hiter Hints Hshort.
  rewrite (_to_bits_not_str _ Hs), (call_to01_no_attribute _ Ht Hs).
  cbn [try_except is_AttributeError].
  destruct (join_bits_ints items Hints Hshort) as [s Hj].
  assert (Hk : join_key key = Ok s) by (apply join_key_Ok; eauto).
  now rewrite Hk, Hj.
Qed.

(** A key that is an int is rendered by the final [str(key)]. *)
Lemma _to_bits_int z : _to_bits (KVal (PInt z)) = str_of_int z.
Proof. reflexivity. Qed.

(** A plain value raises in [_to_bits] only through its string form. *)
Lemma _to_bits_value v :
  (exists s, _to_bits (KVal v) = Ok s) \/ _to_bits (KVal v) = py_repr v.
Proof.
  cbn [_to_bits call_to01 try_except is_AttributeError].
  destruct (join_key (KVal v)) as [s|e] eqn:Hj; [left; eauto |].
  right. cbn [try_except py_str].
  destruct (join_key_Raise _ _ Hj) as [-> | [-> | Hstop]]; try reflexivity.
  destruct v as [z|c| |l|l]; cbn in Hstop; try discriminate;
    injection Hstop as <-; reflexivity.
Qed.

Lemma _to_bits_valid W key :
  valid_key W key -> exists s, _to_bits key = Ok s /\ bitstring_of_width W s.
Proof.
  intros [s Hs|s Hs|items Hr|items Hr]; simpl; eauto;
    rewrite ?join_key_list, ?join_key_tuple;
    destruct (join_bits_valid W items Hr) as (s & -> & Hs); simpl; eauto.
Qed.

(** ** The dict comprehension *)

Lemma dict_comp_dom shots pairs d m :
  dict_comp shots pairs d = Ok m ->
  forall s, s ∈ dom m ->
    s ∈ dom d \/ exists k p, (k, p) ∈ pairs /\ _to_bits k = Ok s.
Proof.
  revert d. induction pairs as [|[k p] pairs IH]; intros d Hm s Hs; simpl in Hm.
  - injection Hm as <-. auto.
  - unfold_bind. destruct (_to_bits k) as [sk|] eqn:Hk; [| discriminate].
    destruct (count_of p shots) as [c|]; [| discriminate].
    destruct (IH _ Hm s Hs) as [Hd | (k' & p' & Hin & Hk')].
    + rewrite dom_insert_L, elem_of_union, elem_of_singleton in Hd.
      destruct Hd as [-> | Hd]; [| auto].
      right. exists k, p. split; [apply list_elem_of_here | exact Hk].
    + right. exists k', p'. split; [now apply list_elem_of_further | exact Hk'].
Qed.

(** ** One trial *)

Lemma rows_loop_all W (P : string -> Prop) rows strings :
  Forall (fun r => exists s, sample_string W r = Ok s /\ P s) rows ->
  exists strs, rows_loop W rows strings = Ok (strings ++ strs)
               /\ Forall2 (fun r s => sample_string W r = Ok s) rows strs
               /\ Forall P strs.
Proof.
  intros HF. revert strings.
  induction HF as [|r rows (s & Hs & HP) _ IH]; intros strings; simpl.
  - exists []. rewrite app_nil_r. auto.
  - unfold_bind. rewrite Hs.
    destruct (IH (strings ++ [s])) as (strs & -> & HF2 & HFP).
    exists (s :: strs). rewrite <- app_assoc. simpl. auto.
Qed.

Lemma _bitarray_to_strings_rows bitarr rows :
  bitarr_rows bitarr = Ok rows ->
  _bitarray_to_strings bitarr = rows_loop (bitarr_width bitarr) rows [].
Proof. intros H. unfold _bitarray_to_strings. now rewrite H. Qed.

Lemma hw_counts_quasi shots raw q rest :
  selected_quasi raw = Some (q :: rest) ->
  hw_counts shots raw = quasi_counts shots q.
Proof.
  unfold selected_quasi, hw_counts. intros H.
  destruct (quasi_dists raw) as [qs|].
  - injection H as ->. reflexivity.
  - rewrite H. reflexivity.
Qed.

Lemma hw_counts_bitarray shots raw pub rest bitarr :
  selected_quasi raw = None ->
  pubs raw = pub :: rest ->
  pub !! "c" = Some bitarr ->
  hw_counts shots raw = bitarray_counts bitarr.
Proof.
  unfold selected_quasi, hw_counts, getitem. intros H Hp Hc.
  destruct (quasi_dists raw); [discriminate |].
  rewrite H, Hp. simpl. unfold_bind. now rewrite Hc.
Qed.

(** C1: for every valid raw input of the normaliser -- flat counts over
    bitstrings of length [W], a quasi-distribution whose keys are
    bitstrings of length [W] (given as strings or through [to01()]) or
    rows of [W] 0/1 values, a bit array of
    width [W] whose rows are rows of [W] 0/1 values, single-element
    rows holding an integer of [[0, 2^W)] or bare integers of
    [[0, 2^W)] -- every key of the counts mapping that the normaliser
    returns is a bitstring of length exactly [W]; and on flat and
    bit-array input the normaliser does return a mapping. *)
Theorem normaliser_keys_have_width W b i hw shots :
  0 < W -> valid_input W b i hw ->
  (forall counts, trial_counts hw shots b i = Ok counts ->
     forall s, s ∈ dom counts -> bitstring_of_width W s)
  /\ (hw = false \/ selected_quasi (sampler_result b i) = None ->
      exists counts, trial_counts hw shots b i = Ok counts).
Proof.
  intros HW Hv.
  destruct Hv as [Hjob Hflat | q rest Hjob Hq Hkeys
                  | pub rest bitarr rows Hjob Hq Hp Hc Hrows Hw Hvalid];
    unfold trial_counts; rewrite Hjob.
  - split; [| eauto]. intros counts [= <-]. exact Hflat.
  - rewrite (hw_counts_quasi shots _ q rest Hq). split.
    + intros counts Hcounts s Hs. unfold quasi_counts in Hcounts.
      destruct (dict_comp_dom _ _ _ _ Hcounts s Hs) as [Hd | (k & p & Hin & Hk)].
      * rewrite dom_empty_L in Hd. now apply not_elem_of_empty in Hd.
      * apply elem_of_zip_l in Hin.
        rewrite Forall_forall in Hkeys. specialize (Hkeys k Hin).
        destruct (_to_bits_valid W k Hkeys) as (s' & Hs' & Hwidth).
        congruence.
    + intros [? | Hnone]; [discriminate | congruence].
  - rewrite (hw_counts_bitarray shots _ pub rest bitarr Hq Hp Hc).
    unfold bitarray_counts. rewrite (_bitarray_to_strings_rows _ _ Hrows), Hw.
    destruct (rows_loop_all W (bitstring_of_width W) rows []) as (strs & -> & _ & HP).
    { eapply Forall_impl; [exact Hvalid |].
      intros r Hr. now apply sample_string_valid. }
    simpl. split; [| eauto].
    intros counts [= <-] s Hs. apply dom_Counter in Hs.
    rewrite Forall_forall in HP. auto.
Qed.

(** ** Unrecognised rows *)

Lemma sample_string_row W items :
  Z.of_nat (length items) = W ->
  sample_string W (PList items) = join_bits items
  /\ sample_string W (PTuple items) = join_bits items.
Proof.
  intros H. apply Z.eqb_eq in H. unfold sample_string. now rewrite H.
Qed.

Lemma sample_string_unrecognised W sample :
  ~ recognised_shape W sample ->
  sample_string W sample = Raise (unexpected_row sample).
Proof.
  intros Hn. destruct sample as [z|b| |items|items]; simpl in *;
    try tauto;
    (destruct (Z.eqb_spec (Z.of_nat (length items)) W); [tauto |]);
    destruct items as [|x [|y items]]; simpl in *; tauto.
Qed.





(** ** Counting the samples *)

Lemma format_0b_total W z : 0 <= W -> exists s, format_0b W z = Ok s.
Proof.
  intros HW. unfold format_0b. destruct (Z.ltb_spec W 0); [lia |].
  destruct (z <? 0); eauto.
Qed.

Lemma sequence_string_well_formed W items sample :
  0 <= W ->
  Z.of_nat (length items) = W \/ length items = 1%nat ->
  Forall int_like items
  /\ (Z.of_nat (length items) = W -> Forall short_int items) ->
  exists s,
    (if Z.of_nat (length items) =? W then join_bits items
     else match items with
          | [x] => z ← py_int x; format_0b W z
          | _ => Raise (unexpected_row sample)
          end) = Ok s.
Proof.
  intros HW Hshape [Hints Hshort].
  destruct (Z.eqb_spec (Z.of_nat (length items)) W) as [Heq | Hne].
  - apply join_bits_ints; auto.
  - destruct Hshape as [Hlen | Hlen]; [contradiction |].
    destruct items as [|x [|y items]]; try discriminate.
    inversion Hints as [|? ? Hx _]; subst.
    destruct x; simpl in Hx; try contradiction; simpl;
      now apply format_0b_total.
Qed.

Lemma sample_string_well_formed W sample :
  0 <= W -> well_formed_row W sample ->
  exists s, sample_string W sample = Ok s.
Proof.
  intros HW [Hshape Hints].
  destruct sample as [z|b| |items|items]; simpl in Hshape.
  - now apply format_0b_total.
  - now apply format_0b_total.
  - contradiction.
  - now apply sequence_string_well_formed.
  - now apply sequence_string_well_formed.
Qed.

Lemma lookup_Counter l s :
  default 0 (Counter l !! s)
  = Z.of_nat (length (filter (fun x => x = s) l)).
Proof.
  induction l as [|x l IH] using rev_ind; [reflexivity |].
  rewrite Counter_snoc, filter_app, length_app, Nat2Z.inj_add, <- IH.
  destruct (decide (x = s)) as [-> | Hne].
  - rewrite lookup_insert_eq, filter_cons_True by reflexivity. simpl. lia.
  - rewrite lookup_insert_ne, filter_cons_False by exact Hne. simpl. lia.
Qed.

(** C6: the counts mapping returned for a bit array counts every row
    exactly once: the strings correspond to the rows one for one, the
    count of a string is the number of rows converted to it, and the
    counts sum to the number of rows.  A mapping is returned whenever
    all rows have a recognised shape, with integer entries, of at most
    4300 digits each in a row of [W] entries. *)
Theorem every_row_counted_once bitarr rows :
  bitarr_rows bitarr = Ok rows ->
  (forall strings,
     _bitarray_to_strings bitarr = Ok strings ->
     bitarray_counts bitarr = Ok (Counter strings)
     /\ Forall2 (fun r s => sample_string (bitarr_width bitarr) r = Ok s)
                rows strings
     /\ (forall s, default 0 (Counter strings !! s)
                   = Z.of_nat (length (filter (fun x => x = s) strings)))
     /\ total (Counter strings) = Z.of_nat (length rows))
  /\ (0 <= bitarr_width bitarr ->
      Forall (well_formed_row (bitarr_width bitarr)) rows ->
      exists strings, _bitarray_to_strings bitarr = Ok strings).
Proof.
  intros Hrows. unfold bitarray_counts.
  rewrite (_bitarray_to_strings_rows _ _ Hrows). split.
  - intros strings Hs. rewrite Hs. simpl.
    apply rows_loop_ok in Hs as (strs & -> & HF2). simpl.
    repeat split; auto.
    + intros s. apply lookup_Counter.
    + rewrite total_Counter. f_equal. symmetry. eapply Forall2_length, HF2.
  - intros HW Hwf.
    destruct (rows_loop_all (bitarr_width bitarr) (fun _ => True) rows [])
      as (strs & -> & _ & _); [| eauto].
    eapply Forall_impl; [exact Hwf |]. intros r Hr.
    destruct (sample_string_well_formed _ _ HW Hr) as [s Hs]. eauto.
Qed.

(** ** Aggregation over the trials *)

Lemma trials_loop_total hw shots b n : forall i aggregated,
  (forall j, (i <= j < i + n)%nat ->
     exists counts, trial_counts hw shots b j = Ok counts
                    /\ total counts = shots) ->
  exists out, trials_loop hw shots b n i aggregated = Ok out
              /\ total out = total aggregated + Z.of_nat n * shots.
Proof.
  induction n as [|n IH]; intros i aggregated Htrials; simpl.
  - exists aggregated. split; [reflexivity | lia].
  - destruct (Htrials i) as (counts & Hc & Ht); [lia |].
    unfold_bind. rewrite Hc.
    destruct (IH (S i) (Counter_update aggregated counts)) as (out & -> & Hout).
    { intros j Hj. apply Htrials. lia. }
    exists out. split; [reflexivity |].
    rewrite Hout, total_Counter_update, Ht. lia.
Qed.

(** C2, amended: for a run of [T] trials with [S] shots each in which
    every trial's counts mapping sums to [S], the loop ends with an
    aggregate whose values sum to exactly [T * S]. *)
Theorem aggregate_total trials shots hw b :
  0 <= trials ->
  (forall i, (i < Z.to_nat trials)%nat ->
     exists counts, trial_counts hw shots b i = Ok counts
                    /\ total counts = shots) ->
  exists aggregated, run_trials trials shots hw b = Ok aggregated
                     /\ total aggregated = trials * shots.
Proof.
  intros HT Htrials. unfold run_trials.
  destruct (trials_loop_total hw shots b (Z.to_nat trials) 0%nat ∅)
    as (out & Hout & Htotal).
  { intros j Hj. apply Htrials. lia. }
  exists out. split; [exact Hout |].
  rewrite Htotal, total_empty, Z2Nat.id by lia. lia.
Qed.

(** ** Binary rendering and its inverse *)

Lemma int_base2_acc_bin_pos p acc a :
  int_base2_acc (bin_pos p acc) a
  = int_base2_acc acc (a * 2 ^ Z.of_nat (Pos.size_nat p) + Zpos p).
Proof.
  revert acc a. induction p as [p IH|p IH|]; intros acc a; simpl bin_pos.
  - rewrite IH. simpl int_base2_acc. f_equal.
    change (Pos.size_nat p~1) with (S (Pos.size_nat p)).
    rewrite Nat2Z.inj_succ, Z.pow_succ_r by lia. lia.
  - rewrite IH. simpl int_base2_acc. f_equal.
    change (Pos.size_nat p~0) with (S (Pos.size_nat p)).
    rewrite Nat2Z.inj_succ, Z.pow_succ_r by lia. lia.
  - simpl. f_equal. lia.
Qed.

Lemma int_base2_acc_bin_digits z :
  0 <= z -> int_base2_acc (bin_digits z) 0 = Ok z.
Proof.
  intros Hz. destruct z as [|p|p]; [reflexivity | | lia].
  simpl bin_digits. rewrite int_base2_acc_bin_pos. simpl. reflexivity.
Qed.

Lemma int_base2_acc_zeros n s :
  int_base2_acc (zeros n +:+ s) 0 = int_base2_acc s 0.
Proof.
  induction n as [|n IH]; [reflexivity |].
  change (zeros (S n) +:+ s) with (String "0" (zeros n +:+ s)).
  simpl. exact IH.
Qed.

Lemma int_base2_nonempty s :
  (0 < String.length s)%nat -> int_base2 s = int_base2_acc s 0.
Proof. destruct s; simpl; [lia | reflexivity]. Qed.

Lemma length_bin_digits_pos z : (0 < String.length (bin_digits z))%nat.
Proof.
  destruct z; simpl; try rewrite length_bin_pos; try lia;
    destruct p; simpl; lia.
Qed.

(** C8: an integer [n] of [[0, 2^W)], rendered as a zero-padded binary
    string of width [W] and read back in base 2, gives [n] again. *)
Theorem binary_round_trip W n :
  0 <= n < 2 ^ W ->
  exists s, format_0b W n = Ok s
            /\ int_base2 s = Ok n
            /\ (0 < W -> bitstring_of_width W s).
Proof.
  intros Hn.
  assert (HW : 0 <= W).
  { destruct (Z.ltb_spec W 0); [| assumption].
    rewrite Z.pow_neg_r in Hn by assumption. lia. }
  unfold format_0b.
  destruct (Z.ltb_spec W 0); [lia |].
  destruct (Z.ltb_spec n 0); [lia |].
  eexists. split; [reflexivity |]. split.
  - rewrite int_base2_nonempty.
    + unfold zfill. rewrite int_base2_acc_zeros.
      apply int_base2_acc_bin_digits. lia.
    + rewrite length_zfill. pose proof (length_bin_digits_pos n). lia.
  - intros HWpos.
    destruct (format_0b_in_range W n HWpos Hn) as (s & Hs & Hwidth).
    unfold format_0b in Hs.
    destruct (Z.ltb_spec W 0); [lia |].
    destruct (Z.ltb_spec n 0); [lia |].
    injection Hs as <-. exact Hwidth.
Qed.

(** ** Integers beyond the register *)

Lemma rows_loop_app W pre post strings :
  rows_loop W (pre ++ post) strings
  = (strs ← rows_loop W pre strings; rows_loop W post strs).
Proof.
  revert strings. induction pre as [|r pre IH]; intros strings; simpl.
  - reflexivity.
  - unfold_bind. destruct (sample_string W r); [apply IH | reflexivity].
Qed.

Lemma sample_string_wide W n row :
  0 <= W -> 2 ^ W <= n ->
  row = PInt n \/ (W <> 1 /\ (row = PList [PInt n] \/ row = PTuple [PInt n])) ->
  exists s, sample_string W row = Ok s /\ is_bitstring s = true
            /\ W < Z.of_nat (String.length s).
Proof.
  intros HW Hn [-> | [Hne [-> | ->]]].
  - now apply format_0b_above.
  - rewrite sample_string_single_list.
    destruct (Z.eqb_spec 1 W); [congruence |]. now apply format_0b_above.
  - rewrite sample_string_single_tuple.
    destruct (Z.eqb_spec 1 W); [congruence |]. now apply format_0b_above.
Qed.

(** C10, amended: a row that is a bare integer [n >= 2^W], or a
    single-element sequence holding such an integer when [W] is not 1,
    raises no error; among rows that convert, the normaliser returns at
    its position a bitstring strictly longer than [W]. *)
Theorem wide_integer_row bitarr pre row post n :
  0 <= bitarr_width bitarr ->
  2 ^ bitarr_width bitarr <= n ->
  row = PInt n
  \/ (bitarr_width bitarr <> 1
      /\ (row = PList [PInt n] \/ row = PTuple [PInt n])) ->
  bitarr_rows bitarr = Ok (pre ++ row :: post) ->
  Forall (fun x => exists s, sample_string (bitarr_width bitarr) x = Ok s)
         (pre ++ post) ->
  exists before s after,
    _bitarray_to_strings bitarr = Ok (before ++ s :: after)
    /\ length before = length pre
    /\ sample_string (bitarr_width bitarr) row = Ok s
    /\ is_bitstring s = true
    /\ bitarr_width bitarr < Z.of_nat (String.length s).
Proof.
  intros HW Hn Hrow Hrows Hothers.
  apply Forall_app in Hothers as [Hpre Hpost].
  destruct (sample_string_wide _ n row HW Hn Hrow) as (s & Hs & Hbits & Hlen).
  rewrite (_bitarray_to_strings_rows _ _ Hrows), rows_loop_app.
  destruct (rows_loop_all (bitarr_width bitarr) (fun _ => True) pre [])
    as (before & -> & HF2 & _).
  { eapply Forall_impl; [exact Hpre |]. intros r [x Hx]. eauto. }
  simpl. unfold_bind. rewrite Hs.
  destruct (rows_loop_all (bitarr_width bitarr) (fun _ => True) post (before ++ [s]))
    as (after & -> & _ & _).
  { eapply Forall_impl; [exact Hpost |]. intros r [x Hx]. eauto. }
  exists before, s, after. rewrite <- app_assoc. simpl.
  repeat split; auto. symmetry. eapply Forall2_length, HF2.
Qed.

Lemma is_AttributeError_spec e :
  is_AttributeError e = true <-> e = AttributeError.
Proof. destruct e; simpl; split; congruence. Qed.

(** When the two nested [try] statements of [_to_bits] let an exception
    through *)
Lemma nested_try_Raise (c j p : result string) e :
  try_except c is_AttributeError (try_except j is_Exception p) = Raise e <->
  (c = Raise e /\ e <> AttributeError)
  \/ (c = Raise AttributeError
      /\ ((j = Raise e /\ is_Exception e = false)
          \/ ((exists e', j = Raise e' /\ is_Exception e' = true)
              /\ p = Raise e))).
Proof.
  destruct c as [x|ec]; cbn [try_except].
  - split; [discriminate |]. intros [[H _] | [H _]]; discriminate.
  - destruct (is_AttributeError ec) eqn:Ha.
    + apply is_AttributeError_spec in Ha as ->.
      destruct j as [y|ej]; cbn [try_except].
      * split; [discriminate |].
        intros [[H1 H2] | [_ [[H _] | [(e' & H & _) _]]]]; try discriminate.
        injection H1 as <-. now destruct H2.
      * destruct (is_Exception ej) eqn:He.
        -- split.
           ++ intros Hp. right. split; [reflexivity |]. right. eauto.
           ++ intros [[H1 H2] | [_ [[H1 H2] | [_ Hp]]]].
              ** injection H1 as <-. now destruct H2.
              ** injection H1 as ->. congruence.
              ** exact Hp.
        -- split.
           ++ intros [= <-]. right. split; [reflexivity |]. left. auto.
           ++ intros [[H1 H2] | [_ [[H1 H2] | [(e' & H1 & H2) _]]]].
              ** injection H1 as <-. now destruct H2.
              ** congruence.
              ** injection H1 as <-. congruence.
    + split.
      * intros [= <-]. left. split; [reflexivity |]. intros ->. discriminate.
      * intros [[H1 _] | [H1 _]]; [congruence |].
        injection H1 as ->. discriminate.
Qed.

(** C9, amended: the conversion of a key raises in three cases only --
    [to01()] raises something other than [AttributeError]; the join
    raises something that is not an [Exception]; or, the join having
    failed with an [Exception], the final [str(key)] raises, as it does
    for an integer of more than 4300 digits.  So it never raises on a
    string, on a bit array, or on a plain value whose string form can
    be rendered.  A key that is not a string, has no [to01] and is not
    an iterable of integers that [str] renders falls back to
    [str(key)], and an iterable of such integers is joined from the
    decimal renderings of its elements. *)
Theorem to_bits_raises_only key :
  (forall e,
     _to_bits key = Raise e <->
     ~ is_str key
     /\ ((call_to01 key = Raise e /\ e <> AttributeError)
         \/ (call_to01 key = Raise AttributeError
             /\ ((join_key key = Raise e /\ is_Exception e = false)
                 \/ ((exists e', join_key key = Raise e'
                                 /\ is_Exception e' = true)
                     /\ py_str key = Raise e)))))
  /\ (forall text,
        is_str key \/ (exists bits, key = KTo01 bits)
        \/ (exists v, key = KVal v) ->
        py_str key = Ok text ->
        exists s, _to_bits key = Ok s)
  /\ (~ is_str key -> ~ has_to01 key -> ~ iterable_of_short_ints key ->
      (forall e, snd (key_items key) = Some e -> is_Exception e = true) ->
      _to_bits key = py_str key)
  /\ (forall items, ~ is_str key -> ~ has_to01 key ->
        key_iter key = Ok items ->
        Forall int_like items -> Forall short_int items ->
        _to_bits key = join_bits items).
Proof.
  split; [| split; [| split]].
  - intros e.
    assert (Hdec : is_str key \/ ~ is_str key) by (destruct key; simpl; tauto).
    destruct Hdec as [Hs | Hs].
    + destruct key; simpl in Hs; try contradiction.
      split; [discriminate | intros [H _]; now destruct H].
    + rewrite (_to_bits_not_str _ Hs), nested_try_Raise. tauto.
  - intros text [Hs | [[bits ->] | [v ->]]] Ht.
    + destruct key; simpl in Hs; try contradiction. simpl. eauto.
    + simpl. eauto.
    + destruct (_to_bits_value v) as [H | H]; [exact H |].
      exists text. now rewrite H.
  - apply _to_bits_fallback.
  - intros items. apply _to_bits_joined.
Qed.

(** ** Entries of the dict comprehension *)

Lemma dict_comp_lookup shots pairs d m :
  dict_comp shots pairs d = Ok m ->
  forall s c, m !! s = Some c ->
    d !! s = Some c
    \/ exists k p, (k, p) ∈ pairs /\ _to_bits k = Ok s
                   /\ count_of p shots = Ok c.
Proof.
  revert d. induction pairs as [|[k p] pairs IH]; intros d Hm s c Hs;
    simpl in Hm.
  - injection Hm as <-. auto.
  - unfold_bind. destruct (_to_bits k) as [sk|] eqn:Hk; [| discriminate].
    destruct (count_of p shots) as [ck|] eqn:Hc; [| discriminate].
    destruct (IH _ Hm s c Hs) as [Hd | (k' & p' & Hin & Hk' & Hc')].
    + destruct (decide (sk = s)) as [-> | Hne].
      * rewrite lookup_insert_eq in Hd. injection Hd as ->.
        right. exists k, p. split; [apply list_elem_of_here | auto].
      * rewrite lookup_insert_ne in Hd by exact Hne. auto.
    + right. exists k', p'. split; [now apply list_elem_of_further | auto].
Qed.

Lemma dict_comp_keep shots pairs d m s :
  dict_comp shots pairs d = Ok m ->
  (forall j k p, pairs !! j = Some (k, p) -> _to_bits k <> Ok s) ->
  m !! s = d !! s.
Proof.
  revert d. induction pairs as [|[k p] pairs IH]; intros d Hm Hother;
    simpl in Hm.
  - now injection Hm as <-.
  - unfold_bind. destruct (_to_bits k) as [sk|] eqn:Hk; [| discriminate].
    destruct (count_of p shots) as [ck|]; [| discriminate].
    rewrite (IH _ Hm).
    + apply lookup_insert_ne. intros ->. now apply (Hother 0%nat k p).
    + intros j k' p' Hj. apply (Hother (S j) k' p' Hj).
Qed.

(** The entry of a key is the count of the last pair converted to it. *)
Lemma dict_comp_own shots pairs : forall d m i k p s,
  dict_comp shots pairs d = Ok m ->
  pairs !! i = Some (k, p) ->
  _to_bits k = Ok s ->
  (forall j k' p', (i < j)%nat -> pairs !! j = Some (k', p') ->
                   _to_bits k' <> Ok s) ->
  exists c, count_of p shots = Ok c /\ m !! s = Some c.
Proof.
  induction pairs as [|[k0 p0] pairs IH]; intros d m i k p s Hm Hi Hk Hlater;
    [discriminate |].
  simpl in Hm. unfold_bind.
  destruct (_to_bits k0) as [s0|] eqn:Hk0; [| discriminate].
  destruct (count_of p0 shots) as [c0|] eqn:Hc0; [| discriminate].
  destruct i as [|i]; simpl in Hi.
  - injection Hi as -> ->. assert (s0 = s) as -> by congruence.
    exists c0. split; [exact Hc0 |].
    rewrite (dict_comp_keep _ _ _ _ s Hm).
    + apply lookup_insert_eq.
    + intros j k' p' Hj. apply (Hlater (S j) k' p'); [lia | exact Hj].
  - apply (IH _ m i k p s Hm Hi Hk).
    intros j k' p' Hij Hj. apply (Hlater (S j) k' p'); [lia | exact Hj].
Qed.

Lemma dict_comp_returns shots pairs : forall d,
  (forall k p, (k, p) ∈ pairs -> exists s, _to_bits k = Ok s) ->
  (forall k p, (k, p) ∈ pairs -> exists c, count_of p shots = Ok c) ->
  exists m, dict_comp shots pairs d = Ok m.
Proof.
  induction pairs as [|[k p] pairs IH]; intros d Hk Hc; simpl; [eauto |].
  unfold_bind. destruct (Hk k p) as [s ->]; [apply list_elem_of_here |].
  destruct (Hc k p) as [c ->]; [apply list_elem_of_here |].
  apply IH; intros k' p' Hin; [apply (Hk k' p') | apply (Hc k' p')];
    now apply list_elem_of_further.
Qed.

(** The comprehension stops at the first pair whose key or count
    raises. *)
Lemma dict_comp_raise shots pre k p post d e :
  Forall (fun kp => (exists s, _to_bits kp.1 = Ok s)
                    /\ exists c, count_of kp.2 shots = Ok c) pre ->
  (_to_bits k = Raise e
   \/ (exists s, _to_bits k = Ok s) /\ count_of p shots = Raise e) ->
  dict_comp shots (pre ++ (k, p) :: post) d = Raise e.
Proof.
  intros Hpre Hkp. revert d.
  induction Hpre as [|[k0 p0] pre [[s0 Hs0] [c0 Hc0]] _ IH]; intros d;
    simpl in *; unfold_bind.
  - destruct Hkp as [-> | [[s ->] ->]]; reflexivity.
  - rewrite Hs0, Hc0. apply IH.
Qed.

(** ** Rounding *)

(** [round_half_even m e] is an integer nearest to [m * 2^e]: exact for
    [e >= 0], and within one half otherwise, with exact halves going to
    the even neighbour. *)
Lemma round_half_even_nearest m e :
  (0 <= e -> round_half_even m e = Zpos m * 2 ^ e)
  /\ (e < 0 ->
      Z.abs (2 * (round_half_even m e * 2 ^ (- e) - Zpos m)) <= 2 ^ (- e)
      /\ (Z.abs (2 * (round_half_even m e * 2 ^ (- e) - Zpos m)) = 2 ^ (- e)
          -> Z.even (round_half_even m e) = true)).
Proof.
  unfold round_half_even. split.
  - intros He. apply Z.leb_le in He. now rewrite He.
  - intros He. destruct (Z.leb_spec 0 e); [lia |].
    assert (Hd : 0 < 2 ^ (- e)) by (apply Z.pow_pos_nonneg; lia).
    pose proof (Z.div_mod (Zpos m) (2 ^ (- e)) ltac:(lia)) as Hdm.
    pose proof (Z.mod_pos_bound (Zpos m) (2 ^ (- e)) Hd) as Hr.
    set (d := 2 ^ (- e)) in *.
    set (q := Zpos m / d) in *. set (r := Zpos m mod d) in *.
    cbv zeta.
    destruct (Z.compare_spec (2 * r) d) as [Heq | Hlt | Hgt].
    + destruct (Z.even q) eqn:Hq.
      * split; [nia |]. intros _. exact Hq.
      * split; [nia |]. intros _.
        rewrite Z.even_add, Hq. reflexivity.
    + split; [nia |]. intros Habs. exfalso. nia.
    + split; [nia |]. intros Habs. exfalso. nia.
Qed.

(** ** Signs of products and of rounded counts *)

Lemma round_half_even_nonneg m e : 0 <= round_half_even m e.
Proof.
  unfold round_half_even. destruct (0 <=? e) eqn:He.
  - apply Z.leb_le in He. apply Z.mul_nonneg_nonneg; [lia |].
    now apply Z.pow_nonneg.
  - apply Z.leb_gt in He.
    assert (Hd : 0 < 2 ^ (- e)) by (apply Z.pow_pos_nonneg; lia).
    assert (0 <= Zpos m / 2 ^ (- e)) by (apply Z.div_pos; lia).
    cbv zeta. destruct (2 * (Zpos m mod 2 ^ (- e)) ?= 2 ^ (- e));
      try destruct (Z.even _); lia.
Qed.

Lemma binary_round_aux_sign sx mx ex lx :
  has_sign sx (binary_round_aux prec emax sx mx ex lx).
Proof.
  unfold binary_round_aux.
  destruct (shr_fexp prec emax mx ex lx) as [mrs' e'].
  destruct (shr_fexp prec emax _ e' loc_Exact) as [mrs'' e''].
  destruct (shr_m mrs''); simpl; auto.
  destruct (e'' <=? emax - prec); simpl; auto.
Qed.

Lemma has_sign_nonneg x : has_sign false x -> nonneg_or_nan x.
Proof. destruct x; simpl; auto. Qed.

Lemma float_of_int_nonneg n f :
  0 <= n -> float_of_int n = Ok f -> nonneg_or_nan f.
Proof.
  intros Hn. unfold float_of_int, binary_normalize.
  destruct n as [|m|m]; [intros [= <-]; exact I | | lia].
  unfold binary_round.
  destruct (shl_align m 0 _) as [mz ez].
  pose proof (binary_round_aux_sign false (Zpos mz) ez loc_Exact) as Hs.
  apply has_sign_nonneg in Hs.
  destruct (binary_round_aux prec emax false (Zpos mz) ez loc_Exact);
    intros [= <-]; exact Hs.
Qed.

Lemma SFmul_nonneg p f :
  float_nonneg p = true -> nonneg_or_nan f ->
  nonneg_or_nan (SFmul prec emax p f).
Proof.
  intros Hp Hf.
  destruct p as [sp|sp| |sp mp ep]; try discriminate;
    destruct f as [sf|sf| |sf mf ef]; simpl in *; subst; auto;
    try (destruct sp; [discriminate | reflexivity]).
  destruct sp; [discriminate |].
  apply has_sign_nonneg, binary_round_aux_sign.
Qed.

Lemma py_round_nonneg x c :
  nonneg_or_nan x -> py_round x = Ok c -> 0 <= c.
Proof.
  destruct x as [s|s| |s m e]; simpl; intros Hs [= <-]; [lia |].
  subst s. simpl. apply round_half_even_nonneg.
Qed.

Lemma count_of_nonneg p shots c :
  float_nonneg p = true -> 0 <= shots -> count_of p shots = Ok c -> 0 <= c.
Proof.
  intros Hp Hshots. unfold count_of, mul_int. unfold_bind.
  destruct (float_of_int shots) as [f|] eqn:Hf; [| discriminate].
  apply py_round_nonneg, SFmul_nonneg; [exact Hp |].
  eapply float_of_int_nonneg; eauto.
Qed.

(** ** Products that stay finite *)

Lemma digits2_pos_bounds p :
  2 ^ (Zpos (digits2_pos p) - 1) <= Zpos p < 2 ^ Zpos (digits2_pos p).
Proof.
  induction p as [p IH|p IH|]; simpl digits2_pos.
  - rewrite Pos2Z.inj_succ.
    replace (Z.succ (Zpos (digits2_pos p)) - 1) with (Z.succ (Zpos (digits2_pos p) - 1)) by lia.
    rewrite !Z.pow_succ_r by lia. lia.
  - rewrite Pos2Z.inj_succ.
    replace (Z.succ (Zpos (digits2_pos p)) - 1) with (Z.succ (Zpos (digits2_pos p) - 1)) by lia.
    rewrite !Z.pow_succ_r by lia. lia.
  - simpl. lia.
Qed.

Lemma Zdigits2_nonneg m : 0 <= Zdigits2 m.
Proof. destruct m; simpl; lia. Qed.

Lemma Zdigits2_le m k : 0 <= m < 2 ^ k -> 0 <= k -> Zdigits2 m <= k.
Proof.
  intros [H0 H1] Hk. destruct m as [|p|p]; simpl; [lia | | lia].
  destruct (Z.le_gt_cases (Zpos (digits2_pos p)) k) as [|Hgt]; [assumption |].
  pose proof (digits2_pos_bounds p) as [Hlo _].
  assert (2 ^ k <= 2 ^ (Zpos (digits2_pos p) - 1)) by (apply Z.pow_le_mono_r; lia).
  lia.
Qed.

Lemma Zdigits2_upper m : 0 <= m -> m < 2 ^ Zdigits2 m.
Proof.
  intros H. destruct m as [|p|p]; simpl; [lia | | lia].
  apply digits2_pos_bounds.
Qed.

Lemma Zdigits2_mul a b :
  0 <= a -> 0 <= b -> Zdigits2 (a * b) <= Zdigits2 a + Zdigits2 b.
Proof.
  intros Ha Hb. apply Zdigits2_le.
  - split; [lia |]. rewrite Z.pow_add_r by apply Zdigits2_nonneg.
    pose proof (Zdigits2_upper a Ha). pose proof (Zdigits2_upper b Hb). nia.
  - pose proof (Zdigits2_nonneg a). pose proof (Zdigits2_nonneg b). lia.
Qed.

Lemma Zdigits2_succ m : 0 <= m -> Zdigits2 (m + 1) <= Zdigits2 m + 1.
Proof.
  intros H. apply Zdigits2_le; [| pose proof (Zdigits2_nonneg m); lia].
  split; [lia |]. rewrite Z.pow_add_r by (try apply Zdigits2_nonneg; lia).
  pose proof (Zdigits2_upper m H). lia.
Qed.

Lemma Zdigits2_div m n :
  0 <= m -> 0 <= n -> Zdigits2 (m / 2 ^ n) <= Z.max 0 (Zdigits2 m - n).
Proof.
  intros Hm Hn.
  assert (Hp : 0 < 2 ^ n) by (apply Z.pow_pos_nonneg; lia).
  pose proof (Zdigits2_upper m Hm) as Hu.
  pose proof (Zdigits2_nonneg m) as Hd.
  apply Zdigits2_le; [| lia].
  split; [apply Z.div_pos; lia |].
  apply Z.div_lt_upper_bound; [lia |].
  destruct (Z.le_gt_cases n (Zdigits2 m)).
  - rewrite Z.max_r by lia. rewrite <- Z.pow_add_r by lia.
    replace (n + (Zdigits2 m - n)) with (Zdigits2 m) by lia. exact Hu.
  - rewrite Z.max_l by lia. rewrite Z.pow_0_r, Z.mul_1_r.
    assert (2 ^ Zdigits2 m <= 2 ^ n) by (apply Z.pow_le_mono_r; lia). lia.
Qed.

(** Shifting right drops the low bits. *)
Lemma shr_1_m mrs : 0 <= shr_m mrs -> shr_m (shr_1 mrs) = shr_m mrs / 2.
Proof.
  destruct mrs as [m r s]. simpl. intros Hm.
  destruct m as [|[p|p|]|p]; simpl; try lia; try reflexivity.
  - rewrite Pos2Z.inj_xI. apply Z.div_unique with 1; lia.
  - rewrite Pos2Z.inj_xO. apply Z.div_unique with 0; lia.
Qed.

Lemma iter_pos_shr_1 n : forall mrs,
  0 <= shr_m mrs ->
  shr_m (SpecFloat.iter_pos shr_1 n mrs) = shr_m mrs / 2 ^ Zpos n.
Proof.
  induction n as [n IH|n IH|]; intros mrs Hm; simpl SpecFloat.iter_pos.
  - assert (H1 : 0 <= shr_m (shr_1 mrs)).
    { rewrite shr_1_m by assumption. apply Z.div_pos; lia. }
    assert (H2 : 0 <= shr_m (SpecFloat.iter_pos shr_1 n (shr_1 mrs))).
    { rewrite IH by assumption. apply Z.div_pos; [lia |]. apply Z.pow_pos_nonneg; lia. }
    rewrite IH, IH, shr_1_m by assumption.
    rewrite !Z.div_div by (try apply Z.pow_pos_nonneg; lia).
    f_equal. rewrite (Pos2Z.inj_xI n).
    rewrite Z.pow_add_r, Z.pow_twice_r, Z.pow_1_r by lia. lia.
  - assert (H2 : 0 <= shr_m (SpecFloat.iter_pos shr_1 n mrs)).
    { rewrite IH by assumption. apply Z.div_pos; [lia |]. apply Z.pow_pos_nonneg; lia. }
    rewrite IH, IH by assumption.
    rewrite !Z.div_div by (try apply Z.pow_pos_nonneg; lia).
    f_equal. rewrite (Pos2Z.inj_xO n).
    rewrite Z.pow_twice_r. lia.
  - rewrite shr_1_m by assumption. reflexivity.
Qed.

Lemma shr_m_of_loc m l : shr_m (shr_record_of_loc m l) = m.
Proof. destruct l as [|[]]; reflexivity. Qed.

Lemma fexp_eq x : fexp prec emax x = Z.max (x - 53) (-1074).
Proof. reflexivity. Qed.

Lemma shr_fexp_bounds m e l :
  0 <= m ->
  0 <= shr_m (fst (shr_fexp prec emax m e l))
  /\ snd (shr_fexp prec emax m e l)
     = Z.max e (fexp prec emax (Zdigits2 m + e))
  /\ Zdigits2 (shr_m (fst (shr_fexp prec emax m e l)))
     + snd (shr_fexp prec emax m e l)
     <= Z.max (Zdigits2 m + e) (fexp prec emax (Zdigits2 m + e)).
Proof.
  intros Hm. unfold shr_fexp, shr.
  destruct (fexp prec emax (Zdigits2 m + e) - e) as [|n|n] eqn:Hn;
    simpl fst; simpl snd; rewrite ?shr_m_of_loc.
  - split; [assumption |]. split; lia.
  - rewrite iter_pos_shr_1 by (rewrite shr_m_of_loc; assumption).
    rewrite shr_m_of_loc.
    split; [apply Z.div_pos; [lia | apply Z.pow_pos_nonneg; lia] |].
    split; [lia |].
    pose proof (Zdigits2_div m (Zpos n) Hm ltac:(lia)). lia.
  - split; [assumption |]. split; lia.
Qed.

Lemma round_nearest_even_bounds m l :
  0 <= m ->
  0 <= round_nearest_even m l
  /\ Zdigits2 (round_nearest_even m l) <= Zdigits2 m + 1.
Proof.
  intros Hm. pose proof (Zdigits2_succ m Hm).
  unfold round_nearest_even.
  destruct l as [|[]]; try destruct (Z.even m); split; lia.
Qed.

(** A product or sum that stays below [2^1023] rounds to a double. *)
Lemma binary_round_aux_finite sx m e l :
  0 <= m -> e <= 971 -> Zdigits2 m + e <= 1023 ->
  match binary_round_aux prec emax sx m e l with
  | S754_zero s => s = sx
  | S754_finite s m' e' =>
      s = sx /\ e' <= 971
      /\ Zpos (digits2_pos m') + e' <= Z.max (Zdigits2 m + e) (-1074) + 1
  | _ => False
  end.
Proof.
  intros Hm He Hd. unfold binary_round_aux.
  pose proof (shr_fexp_bounds m e l Hm) as (H1 & H2 & H3).
  destruct (shr_fexp prec emax m e l) as [mrs' e']. simpl fst in *; simpl snd in *.
  pose proof (round_nearest_even_bounds (shr_m mrs') (loc_of_shr_record mrs') H1)
    as [Hr0 Hr1].
  set (r := round_nearest_even (shr_m mrs') (loc_of_shr_record mrs')) in *.
  pose proof (shr_fexp_bounds r e' loc_Exact Hr0) as (H4 & H5 & H6).
  destruct (shr_fexp prec emax r e' loc_Exact) as [mrs'' e''].
  simpl fst in *; simpl snd in *.
  rewrite fexp_eq in *.
  destruct (shr_m mrs'') as [|m2|m2] eqn:Hm2; [reflexivity | | lia].
  simpl Zdigits2 in H6.
  destruct (Z.leb_spec e'' (emax - prec)) as [Hle | Hgt].
  - split; [reflexivity |]. unfold emax, prec in Hle. lia.
  - unfold emax, prec in Hgt. lia.
Qed.

Lemma digits2_pos_iter_xO m d :
  digits2_pos (Pos.iter xO m d) = (digits2_pos m + d)%positive.
Proof.
  induction d as [|d IH] using Pos.peano_ind.
  - simpl. lia.
  - rewrite Pos.iter_succ. simpl. rewrite IH. lia.
Qed.

Lemma shl_align_digits m e e' :
  Zpos (digits2_pos (fst (shl_align m e e'))) + snd (shl_align m e e')
  = Zpos (digits2_pos m) + e
  /\ snd (shl_align m e e') <= e.
Proof.
  unfold shl_align. destruct (e' - e) as [|d|d] eqn:Hd; simpl fst; simpl snd;
    try lia.
  rewrite digits2_pos_iter_xO. lia.
Qed.

Lemma is_probability_finite s m e :
  is_probability (S754_finite s m e) = true ->
  s = false /\ Zpos (digits2_pos m) + e <= 1 /\ e <= -52.
Proof.
  unfold is_probability. intros H.
  apply andb_prop in H as [H Hle1]. apply andb_prop in H as [Hvalid Hle0].
  simpl in Hvalid. unfold bounded, canonical_mantissa in Hvalid.
  apply andb_prop in Hvalid as [Hcanon _].
  apply Z.eqb_eq in Hcanon. rewrite fexp_eq in Hcanon.
  destruct s; [discriminate |]. split; [reflexivity |].
  unfold SFleb, SFcompare, f1_0 in Hle1.
  destruct (Z.compare_spec e (-52)); try discriminate; lia.
Qed.

Lemma binary_normalize_finite n :
  0 <= n < 2 ^ 1000 ->
  match binary_normalize prec emax n 0 false with
  | S754_zero _ => True
  | S754_finite s m e =>
      s = false /\ e <= 971 /\ Zpos (digits2_pos m) + e <= 1001
  | _ => False
  end.
Proof.
  intros [H0 H1]. unfold binary_normalize.
  destruct n as [|m|m]; [exact I | | lia].
  unfold binary_round.
  pose proof (shl_align_digits m 0 (fexp prec emax (Zpos (digits2_pos m) + 0)))
    as [Hd He].
  destruct (shl_align m 0 _) as [mz ez]. simpl fst in *; simpl snd in *.
  assert (Hm : Zdigits2 (Zpos m) <= 1000) by (apply Zdigits2_le; lia).
  simpl Zdigits2 in Hm.
  pose proof (binary_round_aux_finite false (Zpos mz) ez loc_Exact
                ltac:(lia) ltac:(lia) ltac:(simpl Zdigits2; lia)) as H.
  simpl Zdigits2 in H.
  destruct (binary_round_aux prec emax false (Zpos mz) ez loc_Exact);
    try contradiction; [exact I |].
  destruct H as (-> & ? & ?). repeat split; lia.
Qed.

Lemma SFmul_probability p n :
  is_probability p = true -> 0 <= n < 2 ^ 1000 ->
  match SFmul prec emax p (binary_normalize prec emax n 0 false) with
  | S754_zero _ | S754_finite false _ _ => True
  | _ => False
  end.
Proof.
  intros Hp Hn. pose proof (binary_normalize_finite n Hn) as Hf.
  destruct (binary_normalize prec emax n 0 false) as [sf|sf| |sf mf ef];
    try contradiction.
  - destruct p as [sp|sp| |sp mp ep]; try discriminate; simpl; auto.
    unfold is_probability in Hp. simpl in Hp. destruct sp; discriminate.
  - destruct Hf as (-> & Hef & Hdf).
    destruct p as [sp|sp| |sp mp ep]; try discriminate; simpl; auto.
    + unfold is_probability in Hp. simpl in Hp. destruct sp; discriminate.
    + apply is_probability_finite in Hp as (-> & Hdp & Hep).
      pose proof (Zdigits2_mul (Zpos mp) (Zpos mf) ltac:(lia) ltac:(lia)) as Hmul.
      simpl Zdigits2 in Hmul.
      pose proof (binary_round_aux_finite false (Zpos (mp * mf)) (ep + ef) loc_Exact
                    ltac:(lia) ltac:(lia) ltac:(simpl Zdigits2; lia)) as H.
      simpl xorb.
      destruct (binary_round_aux prec emax false (Zpos (mp * mf)) (ep + ef) loc_Exact);
        try contradiction; [exact I |].
      destruct H as [-> _]. exact I.
Qed.

Lemma is_probability_nonneg p : is_probability p = true -> float_nonneg p = true.
Proof.
  intros Hp. destruct p as [s|s| |s m e].
  - reflexivity.
  - destruct s; discriminate.
  - discriminate.
  - apply is_probability_finite in Hp as (-> & _). reflexivity.
Qed.

(** A probability times a number of shots below [2^1000] rounds to an
    integer. *)
Lemma count_of_total p shots :
  is_probability p = true -> 0 <= shots < 2 ^ 1000 ->
  exists c, count_of p shots = Ok c /\ 0 <= c.
Proof.
  intros Hp Hshots.
  assert (Hc : exists c, count_of p shots = Ok c).
  { unfold count_of, mul_int, float_of_int. unfold_bind.
    pose proof (binary_normalize_finite shots Hshots) as Hf.
    pose proof (SFmul_probability p shots Hp Hshots) as Hm.
    destruct (binary_normalize prec emax shots 0 false) as [sf|sf| |sf mf ef];
      try contradiction.
    - destruct (SFmul prec emax p (S754_zero sf)) as [s|s| |[|] m e];
        try contradiction; simpl; eauto.
    - destruct (SFmul prec emax p (S754_finite sf mf ef)) as [s|s| |[|] m e];
        try contradiction; simpl; eauto. }
  destruct Hc as [c Hc]. exists c. split; [exact Hc |].
  eapply count_of_nonneg; eauto; [now apply is_probability_nonneg | lia].
Qed.

(** [round] gives the nearest integer, the even one on a tie. *)
Lemma py_round_rounds_to x c : py_round x = Ok c -> rounds_to x c.
Proof.
  destruct x as [s|s| |s m e]; simpl; try discriminate.
  - now intros [= <-].
  - intros [= <-].
    destruct (round_half_even_nearest m e) as [Hpos Hneg].
    destruct (Z.leb_spec 0 e) as [He | He].
    + rewrite (Hpos He). destruct s; simpl; lia.
    + destruct (Hneg He) as [Hnear Htie].
      assert (Habs : Z.abs (2 * (cond_Zopp s (round_half_even m e) * 2 ^ (- e)
                                 - cond_Zopp s (Zpos m)))
                     = Z.abs (2 * (round_half_even m e * 2 ^ (- e) - Zpos m))).
      { destruct s; simpl; [| reflexivity].
        rewrite <- (Z.abs_opp (2 * (round_half_even m e * 2 ^ (- e) - Zpos m))).
        f_equal. lia. }
      rewrite Habs. split; [exact Hnear |].
      intros H. destruct s; simpl; [rewrite Z.even_opp |]; auto.
Qed.

(** Only one integer is the rounding of a double. *)
Lemma rounds_to_unique x c c' : rounds_to x c -> rounds_to x c' -> c = c'.
Proof.
  destruct x as [s|s| |s m e]; simpl; try tauto; try congruence.
  destruct (Z.leb_spec 0 e) as [He | He]; [congruence |].
  assert (Hd : 0 < 2 ^ (- e)) by (apply Z.pow_pos_nonneg; lia).
  set (d := 2 ^ (- e)) in *. set (v := cond_Zopp s (Zpos m)).
  intros [H1 T1] [H2 T2].
  assert (Hclose : c' = c \/ c' = c + 1 \/ c = c' + 1) by nia.
  destruct Hclose as [-> | [-> | ->]]; [reflexivity | |]; exfalso.
  - assert (E1 : Z.abs (2 * (c * d - v)) = d) by nia.
    assert (E2 : Z.abs (2 * ((c + 1) * d - v)) = d) by nia.
    specialize (T1 E1). specialize (T2 E2).
    rewrite Z.even_add, T1 in T2. discriminate.
  - assert (E1 : Z.abs (2 * ((c' + 1) * d - v)) = d) by nia.
    assert (E2 : Z.abs (2 * (c' * d - v)) = d) by nia.
    specialize (T1 E1). specialize (T2 E2).
    rewrite Z.even_add, T2 in T1. discriminate.
Qed.

Lemma count_of_rounds p shots c :
  count_of p shots = Ok c ->
  exists x, mul_int p shots = Ok x /\ rounds_to x c.
Proof.
  unfold count_of. unfold_bind.
  destruct (mul_int p shots) as [x|]; [| discriminate].
  intros H. exists x. split; [reflexivity | now apply py_round_rounds_to].
Qed.

(** ** Counts of a quasi-distribution *)

(** C4: the counts mapping of a quasi-distribution holds, under the
    bitstring of a key, the rounding of the double [p * shots] of that
    key's probability [p] (of the last such key when several keys
    convert to one bitstring), and nothing else: the integer nearest to
    the product, the even one on a tie.  It is returned as soon as
    every key converts and every product rounds to an integer, which is
    so for doubles of [[0, 1]] and fewer than [2^1000] shots.  In
    particular [{"011": 0.6, "100": 0.4}] with 10 shots gives
    [{"011": 6, "100": 4}], while [{"011": 0.5, "100": 0.5}] gives 2
    and 2 with 3 shots as with 5, and [{"011": 0.15}] with 10 shots
    gives 2, the product being the double [1.5]. *)
Theorem quasi_counts_round :
  quasi_counts 10 example_quasi = Ok {[ "011" := 6; "100" := 4 ]}
  /\ quasi_counts 3 coin_quasi = Ok {[ "011" := 2; "100" := 2 ]}
  /\ quasi_counts 5 coin_quasi = Ok {[ "011" := 2; "100" := 2 ]}
  /\ quasi_counts 10 fifteen_quasi = Ok {[ "011" := 2 ]}
  /\ forall shots q,
       (forall counts, quasi_counts shots q = Ok counts ->
          forall s c, counts !! s = Some c ->
            exists k p x, (k, p) ∈ zip (keys q) (probabilities q)
                          /\ _to_bits k = Ok s
                          /\ mul_int p shots = Ok x
                          /\ rounds_to x c)
       /\ (forall counts i k p s,
             quasi_counts shots q = Ok counts ->
             zip (keys q) (probabilities q) !! i = Some (k, p) ->
             _to_bits k = Ok s ->
             (forall j k' p', (i < j)%nat ->
                zip (keys q) (probabilities q) !! j = Some (k', p') ->
                _to_bits k' <> Ok s) ->
             exists x c, mul_int p shots = Ok x
                         /\ rounds_to x c
                         /\ counts !! s = Some c)
       /\ ((forall k p, (k, p) ∈ zip (keys q) (probabilities q) ->
              exists s, _to_bits k = Ok s) ->
           (forall k p, (k, p) ∈ zip (keys q) (probabilities q) ->
              exists x c, mul_int p shots = Ok x /\ py_round x = Ok c) ->
           exists counts, quasi_counts shots q = Ok counts)
       /\ ((forall k p, (k, p) ∈ zip (keys q) (probabilities q) ->
              exists s, _to_bits k = Ok s) ->
           Forall (fun p => is_probability p = true) (probabilities q) ->
           0 <= shots < 2 ^ 1000 ->
           exists counts, quasi_counts shots q = Ok counts).
Proof.
  split; [vm_compute; reflexivity |].
  split; [vm_compute; reflexivity |].
  split; [vm_compute; reflexivity |].
  split; [vm_compute; reflexivity |].
  intros shots q. unfold quasi_counts.
  split; [| split; [| split]].
  - intros counts Hc s c Hs.
    destruct (dict_comp_lookup _ _ _ _ Hc s c Hs)
      as [Hd | (k & p & Hin & Hk & Hcount)].
    + rewrite lookup_empty in Hd. discriminate.
    + destruct (count_of_rounds _ _ _ Hcount) as (x & Hx & Hr).
      exists k, p, x. auto.
  - intros counts i k p s Hc Hi Hk Hlater.
    destruct (dict_comp_own shots _ ∅ counts i k p s Hc Hi Hk Hlater)
      as (c & Hcount & Hs).
    destruct (count_of_rounds _ _ _ Hcount) as (x & Hx & Hr).
    exists x, c. auto.
  - intros Hkeys Hcounts. apply dict_comp_returns; [exact Hkeys |].
    intros k p Hin. destruct (Hcounts k p Hin) as (x & c & Hx & Hc).
    exists c. unfold count_of. unfold_bind. now rewrite Hx.
  - intros Hkeys Hprobs Hshots. apply dict_comp_returns; [exact Hkeys |].
    intros k p Hin.
    apply elem_of_zip_r in Hin. rewrite Forall_forall in Hprobs.
    destruct (count_of_total p shots (Hprobs p Hin) Hshots) as (c & Hc & _).
    eauto.
Qed.

(** C7, amended: for a quasi-distribution whose probabilities are zero
    or positive and a number of shots that is not negative, every count
    of the returned mapping is a non-negative integer. *)
Theorem quasi_counts_nonneg shots q counts :
  0 <= shots ->
  Forall (fun p => float_nonneg p = true) (probabilities q) ->
  quasi_counts shots q = Ok counts ->
  forall s c, counts !! s = Some c -> 0 <= c.
Proof.
  intros Hshots Hprobs Hc s c Hs. unfold quasi_counts in Hc.
  destruct (dict_comp_lookup _ _ _ _ Hc s c Hs) as [Hd | (k & p & Hin & _ & Hcount)].
  - rewrite lookup_empty in Hd. discriminate.
  - apply (count_of_nonneg p shots c); auto.
    rewrite Forall_forall in Hprobs. apply Hprobs.
    eapply elem_of_zip_r, Hin.
Qed.

(** C5: the rows [[[0,1,1],[0,1,1],[1,0,0]]] of a bit array of width 3
    are counted as [{"011": 2, "100": 1}]. *)
Theorem example_rows_counts bitarr :
  bitarr_rows bitarr = Ok example_rows ->
  bitarr_width bitarr = 3 ->
  bitarray_counts bitarr = Ok {[ "011" := 2; "100" := 1 ]}.
Proof.
  intros Hrows Hwidth. unfold bitarray_counts.
  rewrite (_bitarray_to_strings_rows _ _ Hrows), Hwidth.
  vm_compute. reflexivity.
Qed.

(** ** Inputs on which the stated properties fail *)

(** One trial of one shot on the quasi-distribution
    [{"011": 0.5, "100": 0.5}]: both counts round to 0, and the
    aggregate sums to 0, not to [1 * 1]. *)
Lemma aggregate_total_quasi_rounding :
  exists aggregated,
    run_trials 1 1 true (constant_backend (quasi_result coin_quasi) ∅)
    = Ok aggregated
    /\ aggregated = {[ "011" := 0; "100" := 0 ]}
    /\ total aggregated <> 1 * 1.
Proof.
  eexists. split; [vm_compute; reflexivity |].
  split; [reflexivity |]. vm_compute. discriminate.
Qed.

(** The quasi-probability [-0.25] with 8 shots gives the count [-2]. *)
Lemma negative_quasi_count :
  exists counts c,
    quasi_counts 8 negative_quasi = Ok counts
    /\ counts !! "011" = Some c /\ c < 0.
Proof.
  exists {[ "011" := -2 ]}, (-2).
  split; [vm_compute; reflexivity |]. split; [reflexivity | lia].
Qed.

(** The key [10**4300] is not a string, has no [to01] and is not
    iterable, and its conversion raises the [ValueError] of
    [str(key)].  The key [[2, 3]] is not an iterable of 0/1 values
    either, yet it is joined to ["23"] and does not fall back to its
    string form ["[2, 3]"]. *)
Lemma key_conversion_counterexamples :
  (~ is_str long_int_key
   /\ ~ has_to01 long_int_key
   /\ ~ iterable_of_bits long_int_key
   /\ _to_bits long_int_key = Raise ValueError)
  /\ (~ is_str (KVal (PList [PInt 2; PInt 3]))
      /\ ~ has_to01 (KVal (PList [PInt 2; PInt 3]))
      /\ ~ iterable_of_bits (KVal (PList [PInt 2; PInt 3]))
      /\ _to_bits (KVal (PList [PInt 2; PInt 3])) = Ok "23"
      /\ py_str (KVal (PList [PInt 2; PInt 3])) = Ok "[2, 3]").
Proof.
  split.
  - split; [intros H; exact H |]. split; [intros H; exact H |]. split.
    + intros (items & Hiter & _). discriminate Hiter.
    + unfold long_int_key. rewrite _to_bits_int.
      exact (proj1 (proj2 str_of_int_limit)).
  - split; [intros H; exact H |]. split; [intros H; exact H |]. split.
    + intros (items & [= <-] & HF).
      inversion HF as [|? ? [H | H] _]; discriminate.
    + split; reflexivity.
Qed.

(** An integer of 4301 digits cannot be rendered: a row of two entries
    that holds one raises the [ValueError] of its [repr] and not the
    data-shape error, and a row of three entries raises the
    [ValueError] of [str(int(b))]. *)
Lemma long_int_rows :
  py_repr (PList [PInt (10 ^ 4300); PInt 0]) = Raise ValueError
  /\ sample_string 3 (PList [PInt (10 ^ 4300); PInt 0]) = Raise ValueError
  /\ sample_string 3 (PList [PInt (10 ^ 4300); PInt 0; PInt 0])
     = Raise ValueError.
Proof.
  destruct str_of_int_limit as (_ & Hlong & _).
  assert (Hrepr : py_repr (PList [PInt (10 ^ 4300); PInt 0])
                  = Raise ValueError).
  { cbn [py_repr]. rewrite Hlong. reflexivity. }
  split; [exact Hrepr |]. split.
  - rewrite sample_string_unrecognised.
    + unfold unexpected_row. rewrite Hrepr. reflexivity.
    + cbn [recognised_shape length]. intros [H | H]; discriminate H.
  - rewrite (proj1 (sample_string_row 3 [PInt (10 ^ 4300); PInt 0; PInt 0]
                     eq_refl)).
    rewrite join_bits_cons. cbn [py_int]. unfold_bind. rewrite Hlong.
    reflexivity.
Qed.


(** With a width of 1 the single-element row [[2]] is read as a row of
    one bit: it gives ["2"], which is not longer than the width. *)
Lemma single_element_row_width_one :
  2 ^ 1 <= 2
  /\ _bitarray_to_strings (bitarr_of [PList [PInt 2]] (Some 1)) = Ok ["2"]
  /\ ~ (1 < Z.of_nat (String.length "2"))
  /\ is_bitstring "2" = false.
Proof. repeat split; try reflexivity; simpl; lia. Qed.

(** ** The theorems at concrete inputs *)

Lemma mixed_rows_valid : Forall (valid_row 3) mixed_rows.
Proof.
  unfold mixed_rows.
  constructor; [| constructor; [| constructor; [| constructor; [| constructor]]]].
  - apply vr_list. split; [reflexivity |].
    repeat (apply List.Forall_cons; [unfold is_bit; auto |]).
    apply List.Forall_nil.
  - apply vr_single_list. split; [lia | reflexivity].
  - apply vr_int. split; [lia | reflexivity].
  - apply vr_single_tuple. split; [lia | reflexivity].
Qed.

Lemma short_int_small z : -9 <= z <= 9 -> short_int (PInt z).
Proof.
  intros Hz. unfold short_int.
  assert (z = -9 \/ z = -8 \/ z = -7 \/ z = -6 \/ z = -5 \/ z = -4
          \/ z = -3 \/ z = -2 \/ z = -1 \/ z = 0 \/ z = 1 \/ z = 2
          \/ z = 3 \/ z = 4 \/ z = 5 \/ z = 6 \/ z = 7 \/ z = 8 \/ z = 9)
    as H by lia.
  repeat (destruct H as [-> | H]; [apply Nat.leb_le; reflexivity |]).
  subst z. apply Nat.leb_le. reflexivity.
Qed.

Lemma mixed_rows_well_formed : Forall (well_formed_row 3) mixed_rows.
Proof.
  unfold mixed_rows, well_formed_row.
  constructor; [| constructor; [| constructor; [| constructor; [| constructor]]]];
    simpl; (split; [auto |]); try exact I;
    (split; [repeat (apply List.Forall_cons; [exact I |]);
             apply List.Forall_nil |]);
    intros _;
    repeat (apply List.Forall_cons; [apply short_int_small; lia |]);
    apply List.Forall_nil.
Qed.

Lemma normaliser_keys_have_width_witness :
  0 < 3
  /\ valid_input 3
       (constant_backend (bitarray_result (bitarr_of mixed_rows (Some 3))) ∅)
       0 true
  /\ ((forall counts,
         trial_counts true 1024
           (constant_backend (bitarray_result (bitarr_of mixed_rows (Some 3))) ∅)
           0 = Ok counts ->
         forall s, s ∈ dom counts -> bitstring_of_width 3 s)
      /\ (true = false
          \/ selected_quasi
               (sampler_result
                  (constant_backend
                     (bitarray_result (bitarr_of mixed_rows (Some 3))) ∅) 0)
             = None ->
          exists counts,
            trial_counts true 1024
              (constant_backend (bitarray_result (bitarr_of mixed_rows (Some 3))) ∅)
              0 = Ok counts)).
Proof.
  assert (H0 : 0 < 3) by lia.
  assert (Hv : valid_input 3
           (constant_backend (bitarray_result (bitarr_of mixed_rows (Some 3))) ∅)
           0 true).
  { apply (valid_bitarray 3 _ 0%nat
             {[ "c" := bitarr_of mixed_rows (Some 3) ]} []
             (bitarr_of mixed_rows (Some 3)) mixed_rows);
      try reflexivity.
    exact mixed_rows_valid. }
  exact (conj H0 (conj Hv (normaliser_keys_have_width 3 _ 0%nat true 1024 H0 Hv))).
Defined.

Lemma aggregate_total_witness :
  0 <= 2
  /\ (forall i, (i < Z.to_nat 2)%nat ->
        exists counts,
          trial_counts true 3
            (constant_backend (bitarray_result (bitarr_of example_rows None)) ∅)
            i = Ok counts
          /\ total counts = 3)
  /\ exists aggregated,
       run_trials 2 3 true
         (constant_backend (bitarray_result (bitarr_of example_rows None)) ∅)
       = Ok aggregated
       /\ total aggregated = 2 * 3.
Proof.
  assert (H0 : 0 <= 2) by lia.
  assert (Ht : forall i, (i < Z.to_nat 2)%nat ->
    exists counts,
      trial_counts true 3
        (constant_backend (bitarray_result (bitarr_of example_rows None)) ∅)
        i = Ok counts
      /\ total counts = 3).
  { intros i _. eexists. split; [vm_compute; reflexivity |].
    vm_compute. reflexivity. }
  exact (conj H0 (conj Ht (aggregate_total 2 3 true _ H0 Ht))).
Defined.


Lemma example_rows_counts_witness :
  bitarray_counts
    {| tolist := None; _array := Some example_rows; array := None;
       num_bits := Some 3 |}
  = Ok {[ "011" := 2; "100" := 1 ]}.
Proof.
  exact (example_rows_counts
           {| tolist := None; _array := Some example_rows; array := None;
              num_bits := Some 3 |} eq_refl eq_refl).
Defined.

Lemma every_row_counted_once_witness :
  exists strings,
    _bitarray_to_strings (bitarr_of mixed_rows (Some 3)) = Ok strings
    /\ strings = ["011"; "011"; "101"; "111"]
    /\ bitarray_counts (bitarr_of mixed_rows (Some 3)) = Ok (Counter strings)
    /\ total (Counter strings) = Z.of_nat (length mixed_rows).
Proof.
  assert (H0 : 0 <= bitarr_width (bitarr_of mixed_rows (Some 3)))
    by (vm_compute; discriminate).
  pose proof (every_row_counted_once (bitarr_of mixed_rows (Some 3))
                mixed_rows eq_refl) as [Hcounted Hreturns].
  destruct (Hreturns H0 mixed_rows_well_formed) as [strings Hs].
  destruct (Hcounted strings Hs) as (Hc & _ & _ & Ht).
  exists strings. repeat split; auto.
  vm_compute in Hs. now injection Hs as <-.
Defined.

Lemma quasi_counts_nonneg_witness :
  quasi_counts 10 example_quasi = Ok {[ "011" := 6; "100" := 4 ]}
  /\ forall s c,
       ({[ "011" := 6; "100" := 4 ]} : gmap string Z) !! s = Some c -> 0 <= c.
Proof.
  assert (H0 : 0 <= 10) by lia.
  assert (Hp : Forall (fun p => float_nonneg p = true)
                 (probabilities example_quasi)).
  { repeat constructor. }
  assert (Hc : quasi_counts 10 example_quasi
               = Ok {[ "011" := 6; "100" := 4 ]})
    by (vm_compute; reflexivity).
  exact (conj Hc (quasi_counts_nonneg 10 example_quasi _ H0 Hp Hc)).
Defined.

Lemma binary_round_trip_witness :
  0 <= 5 < 2 ^ 3
  /\ exists s, format_0b 3 5 = Ok s /\ int_base2 s = Ok 5
               /\ (0 < 3 -> bitstring_of_width 3 s).
Proof.
  assert (H : 0 <= 5 < 2 ^ 3) by (simpl; lia).
  exact (conj H (binary_round_trip 3 5 H)).
Defined.

Lemma wide_integer_row_witness :
  exists before s after,
    _bitarray_to_strings (bitarr_of [PInt 1; PList [PInt 9]; PInt 2] (Some 3))
    = Ok (before ++ s :: after)
    /\ length before = length [PInt 1]
    /\ sample_string 3 (PList [PInt 9]) = Ok s
    /\ is_bitstring s = true
    /\ 3 < Z.of_nat (String.length s).
Proof.
  assert (H0 : 0 <= bitarr_width
                      (bitarr_of [PInt 1; PList [PInt 9]; PInt 2] (Some 3)))
    by (vm_compute; discriminate).
  assert (Hn : 2 ^ bitarr_width
                     (bitarr_of [PInt 1; PList [PInt 9]; PInt 2] (Some 3)) <= 9)
    by (vm_compute; discriminate).
  assert (Hothers : Forall (fun x => exists s, sample_string 3 x = Ok s)
                      ([PInt 1] ++ [PInt 2])).
  { repeat constructor; eexists; reflexivity. }
  refine (wide_integer_row
            (bitarr_of [PInt 1; PList [PInt 9]; PInt 2] (Some 3))
            [PInt 1] (PList [PInt 9]) [PInt 2] 9 H0 Hn _ eq_refl Hothers).
  right. split; [vm_compute; discriminate | left; reflexivity].
Defined.

(** * Further properties of the code *)

(** ** The aggregate, key by key *)

Lemma dom_Counter_update agg (counts : gmap string Z) :
  dom (Counter_update agg counts) = dom agg ∪ dom counts.
Proof.
  induction counts as [|j v counts Hj IH] using map_ind.
  - rewrite Counter_update_empty, dom_empty_L.
    apply set_eq. intros x. rewrite elem_of_union, elem_of_empty. tauto.
  - rewrite Counter_update_insert by exact Hj.
    rewrite !dom_insert_L, IH.
    apply set_eq. intros x. rewrite !elem_of_union. tauto.
Qed.

Lemma trials_loop_lookup hw shots b s n : forall i aggregated out,
  trials_loop hw shots b n i aggregated = Ok out ->
  default 0 (out !! s)
  = default 0 (aggregated !! s) + sum_from (trial_count hw shots b s) i n.
Proof.
  induction n as [|n IH]; intros i aggregated out Hout; simpl in *.
  - injection Hout as <-. lia.
  - unfold_bind. unfold trial_count at 1.
    destruct (trial_counts hw shots b i) as [counts|e]; [| discriminate].
    rewrite (IH _ _ _ Hout), lookup_Counter_update. lia.
Qed.

Lemma trials_loop_dom hw shots b s n : forall i aggregated out,
  trials_loop hw shots b n i aggregated = Ok out ->
  s ∈ dom out <->
  s ∈ dom aggregated
  \/ exists j counts, (i <= j < i + n)%nat
                      /\ trial_counts hw shots b j = Ok counts
                      /\ s ∈ dom counts.
Proof.
  induction n as [|n IH]; intros i aggregated out Hout; simpl in *.
  - injection Hout as <-. split; [auto |].
    intros [H | (j & _ & Hj & _)]; [exact H | lia].
  - unfold_bind.
    destruct (trial_counts hw shots b i) as [counts|e] eqn:Hi; [| discriminate].
    rewrite (IH _ _ _ Hout), dom_Counter_update, elem_of_union. split.
    + intros [[H | H] | (j & c & Hj & Hc & Hs)]; auto.
      * right. exists i, counts. split; [lia | auto].
      * right. exists j, c. split; [lia | auto].
    + intros [H | (j & c & Hj & Hc & Hs)]; auto.
      destruct (decide (j = i)) as [-> | Hne].
      * left. right. congruence.
      * right. exists j, c. split; [lia | auto].
Qed.

(** X1: when the loop of [run] completes, the aggregate holds for every
    bitstring the sum of what the trials counted for it, and its keys
    are exactly the keys seen in some trial. *)
Theorem aggregate_is_sum_of_trials trials shots hw b aggregated :
  run_trials trials shots hw b = Ok aggregated ->
  (forall s, default 0 (aggregated !! s)
             = sum_from (trial_count hw shots b s) 0 (Z.to_nat trials))
  /\ (forall s, s ∈ dom aggregated <->
        exists i counts, (i < Z.to_nat trials)%nat
                         /\ trial_counts hw shots b i = Ok counts
                         /\ s ∈ dom counts).
Proof.
  intros Hrun. unfold run_trials in Hrun. split.
  - intros s. rewrite (trials_loop_lookup _ _ _ s _ _ _ _ Hrun).
    rewrite lookup_empty. simpl. lia.
  - intros s. rewrite (trials_loop_dom _ _ _ s _ _ _ _ Hrun), dom_empty_L.
    split.
    + intros [H | (j & c & Hj & Hc & Hs)]; [now apply not_elem_of_empty in H |].
      exists j, c. split; [lia | auto].
    + intros (j & c & Hj & Hc & Hs). right. exists j, c. split; [lia | auto].
Qed.

(** ** A failing trial *)

Lemma trials_loop_raise hw shots b e n : forall i aggregated,
  trials_loop hw shots b n i aggregated = Raise e <->
  exists j, (i <= j < i + n)%nat
            /\ trial_counts hw shots b j = Raise e
            /\ forall k, (i <= k < j)%nat ->
                 exists counts, trial_counts hw shots b k = Ok counts.
Proof.
  induction n as [|n IH]; intros i aggregated; simpl.
  - split; [discriminate | intros (j & Hj & _); lia].
  - unfold_bind.
    destruct (trial_counts hw shots b i) as [counts|e'] eqn:Hi.
    + rewrite IH. split.
      * intros (j & Hj & He & Hbefore). exists j. split; [lia |].
        split; [exact He |]. intros k Hk.
        destruct (decide (k = i)) as [-> | Hne]; [eauto |].
        apply Hbefore. lia.
      * intros (j & Hj & He & Hbefore).
        assert (j <> i) by congruence.
        exists j. split; [lia |]. split; [exact He |].
        intros k Hk. apply Hbefore. lia.
    + split.
      * intros [= ->]. exists i. split; [lia |]. split; [exact Hi |].
        intros k Hk. lia.
      * intros (j & Hj & He & Hbefore).
        destruct (decide (j = i)) as [-> | Hne]; [congruence |].
        destruct (Hbefore i) as [c Hc]; [lia | congruence].
Qed.

(** X2: the loop of [run] raises exactly when a trial raises, and then
    with the error of the first failing trial: whatever the backend
    would answer to later jobs is never looked at, and nothing of the
    earlier trials is returned. *)
Theorem first_failing_trial_aborts trials shots hw b e :
  run_trials trials shots hw b = Raise e <->
  exists i, (i < Z.to_nat trials)%nat
            /\ trial_counts hw shots b i = Raise e
            /\ forall k, (k < i)%nat ->
                 exists counts, trial_counts hw shots b k = Ok counts.
Proof.
  unfold run_trials. rewrite trials_loop_raise. split.
  - intros (j & Hj & He & Hbefore). exists j. split; [lia |].
    split; [exact He |]. intros k Hk. apply Hbefore. lia.
  - intros (j & Hj & He & Hbefore). exists j. split; [lia |].
    split; [exact He |]. intros k Hk. apply Hbefore. lia.
Qed.

(** ** Rows that spell the same outcome *)

(** A bitstring read in base 2: the accumulator is shifted by the length
    and a value below [2^length] is added. *)
Lemma int_base2_acc_bitstring s :
  is_bitstring s = true ->
  exists v, 0 <= v < 2 ^ Z.of_nat (String.length s)
            /\ forall a, int_base2_acc s a
                         = Ok (a * 2 ^ Z.of_nat (String.length s) + v).
Proof.
  induction s as [|c s IH]; intros Hs.
  - exists 0. split; [simpl; lia |]. intros a. simpl. f_equal. lia.
  - cbn [is_bitstring] in Hs.
    apply andb_prop in Hs as [Hc Hs]. destruct (IH Hs) as (v & Hv & Hacc).
    cbn [String.length int_base2_acc].
    rewrite Nat2Z.inj_succ, Z.pow_succ_r by lia.
    destruct (Ascii.eqb c "0") eqn:H0.
    + exists v. split; [lia |]. intros a. rewrite Hacc. f_equal. lia.
    + simpl in Hc. rewrite Hc.
      exists (2 ^ Z.of_nat (String.length s) + v). split; [lia |].
      intros a. rewrite Hacc. f_equal. lia.
Qed.

Lemma bitstring_value_inj s : forall t,
  is_bitstring s = true -> is_bitstring t = true ->
  String.length s = String.length t ->
  int_base2_acc s 0 = int_base2_acc t 0 -> s = t.
Proof.
  induction s as [|c s IH]; intros [|d t] Hs Ht Hlen Hval;
    try discriminate; [reflexivity |].
  simpl in Hs, Ht, Hlen, Hval.
  apply andb_prop in Hs as [Hc Hs]. apply andb_prop in Ht as [Hd Ht].
  injection Hlen as Hlen.
  destruct (int_base2_acc_bitstring s Hs) as (v & Hv & Hsv).
  destruct (int_base2_acc_bitstring t Ht) as (w & Hw & Htw).
  rewrite <- Hlen in Hw, Htw.
  assert (Hpos : 0 < 2 ^ Z.of_nat (String.length s))
    by (apply Z.pow_pos_nonneg; lia).
  destruct (Ascii.eqb_spec c "0") as [-> | Hc0];
    destruct (Ascii.eqb_spec d "0") as [-> | Hd0]; simpl in Hc, Hd.
  - f_equal. apply IH; auto.
  - apply Ascii.eqb_eq in Hd. subst d. simpl in Hval.
    rewrite Hsv, Htw in Hval. injection Hval as Hval. lia.
  - apply Ascii.eqb_eq in Hc. subst c. simpl in Hval.
    rewrite Hsv, Htw in Hval. injection Hval as Hval. lia.
  - apply Ascii.eqb_eq in Hc. apply Ascii.eqb_eq in Hd. subst c d.
    f_equal. apply IH; auto. simpl in Hval.
    rewrite Hsv, Htw in Hval. injection Hval as Hval.
    rewrite Hsv, Htw. f_equal. lia.
Qed.

Lemma join_bits_value items s :
  Forall is_bit items -> join_bits items = Ok s ->
  forall a, int_base2_acc s a = Ok (bits_value items a).
Proof.
  intros HF. revert s. induction HF as [|b items Hb _ IH]; intros s Hs a.
  - injection Hs as <-. reflexivity.
  - rewrite join_bits_cons in Hs.
    destruct (join_bits items) as [s'|] eqn:Hs';
      [| destruct Hb as [-> | ->]; discriminate].
    destruct Hb as [-> | ->]; cbn [py_int] in Hs; unfold_bind;
      rewrite ?str_of_int_0, ?str_of_int_1 in Hs; injection Hs as <-.
    + change ("0" +:+ s') with (String "0" s'). simpl.
      rewrite (IH s' eq_refl). f_equal. f_equal. lia.
    + change ("1" +:+ s') with (String "1" s'). simpl.
      rewrite (IH s' eq_refl). reflexivity.
Qed.

Lemma int_base2_acc_format W n s :
  0 <= n -> format_0b W n = Ok s -> int_base2_acc s 0 = Ok n.
Proof.
  intros Hn. unfold format_0b.
  destruct (W <? 0); [discriminate |].
  destruct (Z.ltb_spec n 0); [lia |]. intros [= <-].
  unfold zfill. rewrite int_base2_acc_zeros.
  now apply int_base2_acc_bin_digits.
Qed.

(** X3: a row of [W] bits and the integer it spells in binary, most
    significant bit first, give the same string, whether the integer
    comes bare or (for [W] other than 1) alone in a sequence: the three
    row shapes agree on every outcome. *)
Theorem row_shapes_agree W items :
  0 < W -> bit_row W items ->
  0 <= bits_value items 0 < 2 ^ W
  /\ sample_string W (PList items) = sample_string W (PInt (bits_value items 0))
  /\ sample_string W (PTuple items) = sample_string W (PInt (bits_value items 0))
  /\ (W <> 1 ->
      sample_string W (PList [PInt (bits_value items 0)])
      = sample_string W (PList items)
      /\ sample_string W (PTuple [PInt (bits_value items 0)])
         = sample_string W (PList items)).
Proof.
  intros HW Hrow.
  destruct (join_bits_valid W items Hrow) as (s & Hs & Hbits & Hlen).
  destruct Hrow as [Hlenrow HF].
  pose proof (join_bits_value items s HF Hs 0) as Hval.
  destruct (int_base2_acc_bitstring s Hbits) as (v & Hv & Hsv).
  rewrite Hsv in Hval. injection Hval as Hval. simpl in Hval.
  rewrite Hlen in Hv.
  assert (Hrange : 0 <= bits_value items 0 < 2 ^ W) by lia.
  destruct (format_0b_in_range W _ HW Hrange) as (t & Ht & Htbits & Htlen).
  assert (Hst : s = t).
  { apply bitstring_value_inj; auto.
    - apply Nat2Z.inj. lia.
    - rewrite (int_base2_acc_format W _ t (proj1 Hrange) Ht).
      rewrite Hsv. f_equal. lia. }
  assert (Hlist : sample_string W (PList items) = Ok s).
  { simpl. now rewrite (proj2 (Z.eqb_eq _ _) Hlenrow). }
  assert (Htuple : sample_string W (PTuple items) = Ok s).
  { simpl. now rewrite (proj2 (Z.eqb_eq _ _) Hlenrow). }
  assert (Hint : sample_string W (PInt (bits_value items 0)) = Ok s).
  { simpl. now rewrite Ht, Hst. }
  split; [exact Hrange |]. rewrite Hlist, Htuple, Hint.
  split; [reflexivity |]. split; [reflexivity |].
  intros Hne.
  rewrite sample_string_single_list, sample_string_single_tuple.
  destruct (Z.eqb_spec 1 W); [congruence |]. now rewrite Ht, Hst.
Qed.

(** ** Integers are told apart *)

Lemma format_0b_negative W n :
  0 <= W -> n < 0 ->
  format_0b W n = Ok (String "-" (zfill (Z.to_nat W - 1) (bin_digits n))).
Proof.
  intros HW Hn. unfold format_0b.
  destruct (Z.ltb_spec W 0); [lia |].
  destruct (Z.ltb_spec n 0); [reflexivity | lia].
Qed.

Lemma format_0b_nonneg W n :
  0 <= W -> 0 <= n ->
  format_0b W n = Ok (zfill (Z.to_nat W) (bin_digits n)).
Proof.
  intros HW Hn. unfold format_0b.
  destruct (Z.ltb_spec W 0); [lia |].
  destruct (Z.ltb_spec n 0); [lia | reflexivity].
Qed.

Lemma int_base2_acc_zfill w n :
  0 <= n -> int_base2_acc (zfill w (bin_digits n)) 0 = Ok n.
Proof.
  intros Hn. unfold zfill. rewrite int_base2_acc_zeros.
  now apply int_base2_acc_bin_digits.
Qed.

Lemma bin_digits_opp n : bin_digits (- n) = bin_digits n.
Proof. destruct n; reflexivity. Qed.

Lemma zfill_head w n :
  exists c t, zfill w (bin_digits n) = String c t /\ c <> "-"%char.
Proof.
  assert (Hb : is_bitstring (zfill w (bin_digits n)) = true)
    by now rewrite is_bitstring_zfill, is_bitstring_bin_digits.
  assert (Hl : (0 < String.length (zfill w (bin_digits n)))%nat).
  { rewrite length_zfill. pose proof (length_bin_digits_pos n). lia. }
  destruct (zfill w (bin_digits n)) as [|c t]; [simpl in Hl; lia |].
  exists c, t. split; [reflexivity |]. intros ->. discriminate.
Qed.

(** X4: for a width that is not negative, two integers are rendered to
    the same string only when they are equal, so distinct bare integers
    are never merged under one key; a negative integer is not rejected
    but gives a string that starts with a minus sign, and no such string
    is the rendering of a non-negative one. *)
Theorem integer_rows_are_told_apart W n m :
  0 <= W ->
  (sample_string W (PInt n) = sample_string W (PInt m) -> n = m)
  /\ (n < 0 ->
      exists t, sample_string W (PInt n) = Ok (String "-" t)
                /\ is_bitstring t = true
                /\ int_base2 t = Ok (- n)).
Proof.
  intros HW. simpl. split.
  - destruct (Z.ltb_spec n 0) as [Hn | Hn], (Z.ltb_spec m 0) as [Hm | Hm].
    + rewrite !format_0b_negative by assumption. intros [= Heq].
      pose proof (int_base2_acc_zfill (Z.to_nat W - 1) (- n) ltac:(lia)) as H1.
      pose proof (int_base2_acc_zfill (Z.to_nat W - 1) (- m) ltac:(lia)) as H2.
      rewrite bin_digits_opp in H1, H2. rewrite Heq in H1.
      rewrite H1 in H2. injection H2. lia.
    + rewrite (format_0b_negative W n), (format_0b_nonneg W m) by assumption.
      destruct (zfill_head (Z.to_nat W) m) as (c & t & -> & Hc).
      intros [= Heq _]. congruence.
    + rewrite (format_0b_negative W m), (format_0b_nonneg W n) by assumption.
      destruct (zfill_head (Z.to_nat W) n) as (c & t & -> & Hc).
      intros [= Heq _]. congruence.
    + rewrite !format_0b_nonneg by assumption. intros [= Heq].
      pose proof (int_base2_acc_zfill (Z.to_nat W) n Hn) as H1.
      pose proof (int_base2_acc_zfill (Z.to_nat W) m Hm) as H2.
      rewrite Heq in H1. rewrite H1 in H2. now injection H2.
  - intros Hn. rewrite format_0b_negative by assumption.
    eexists. split; [reflexivity |]. split.
    + now rewrite is_bitstring_zfill, is_bitstring_bin_digits.
    + rewrite int_base2_nonempty.
      * rewrite <- bin_digits_opp. apply int_base2_acc_zfill. lia.
      * rewrite length_zfill. pose proof (length_bin_digits_pos n). lia.
Qed.

(** ** Counts of a bit array *)

Lemma Counter_lookup_Some l s c :
  Counter l !! s = Some c ->
  c = Z.of_nat (length (filter (fun x => x = s) l)) /\ s ∈ l.
Proof.
  intros Hc. split.
  - rewrite <- lookup_Counter, Hc. reflexivity.
  - apply dom_Counter, elem_of_dom. eauto.
Qed.

(** X5: every count that the normaliser returns for a bit array is at
    least 1 and at most the number of rows. *)
Theorem bitarray_counts_bounds bitarr rows counts :
  bitarr_rows bitarr = Ok rows ->
  bitarray_counts bitarr = Ok counts ->
  forall s c, counts !! s = Some c -> 1 <= c <= Z.of_nat (length rows).
Proof.
  intros Hrows Hcounts s c Hs. unfold bitarray_counts in Hcounts.
  rewrite (_bitarray_to_strings_rows _ _ Hrows) in Hcounts. unfold_bind.
  destruct (rows_loop (bitarr_width bitarr) rows []) as [strings|] eqn:Hloop;
    [| discriminate].
  injection Hcounts as <-.
  apply rows_loop_ok in Hloop as (strs & -> & HF2). simpl in Hs.
  apply Counter_lookup_Some in Hs as [-> Hin].
  rewrite (Forall2_length _ _ _ HF2).
  pose proof (length_filter (fun x => x = s) strs) as Hle.
  assert (Hpos : (0 < length (filter (fun x => x = s) strs))%nat).
  { destruct (filter (fun x => x = s) strs) as [|y l] eqn:Hf; [| simpl; lia].
    assert (Hs : s ∈ filter (fun x => x = s) strs)
      by (apply list_elem_of_filter; auto).
    rewrite Hf in Hs. now apply not_elem_of_nil in Hs. }
  lia.
Qed.

(** ** Unpaired keys and probabilities *)

Lemma zip_take {A B} (l : list A) (k : list B) :
  zip l k
  = zip (take (Nat.min (length l) (length k)) l)
        (take (Nat.min (length l) (length k)) k).
Proof.
  revert k. induction l as [|a l IH]; intros [|c k]; simpl; try reflexivity.
  f_equal. apply IH.
Qed.

(** X6: only the keys and probabilities that [zip] pairs reach the
    counts: what either sequence holds beyond the length of the other is
    dropped without an error, whatever it is. *)
Theorem unpaired_entries_are_dropped shots q :
  quasi_counts shots q
  = quasi_counts shots
      {| keys := take (Nat.min (length (keys q)) (length (probabilities q)))
                      (keys q);
         probabilities :=
           take (Nat.min (length (keys q)) (length (probabilities q)))
                (probabilities q) |}.
Proof. unfold quasi_counts. simpl. now rewrite <- zip_take. Qed.

(** ** Building circuits *)

Lemma valid_qargs_spec qc qs :
  valid_qargs qc qs = true <->
  Forall (fun q => (q < num_qubits qc)%nat) qs /\ NoDup qs.
Proof.
  unfold valid_qargs. rewrite andb_true_iff, bool_decide_eq_true.
  rewrite forallb_forall, Forall_forall.
  split; intros [H1 H2]; split; auto; intros q Hq.
  - apply Nat.ltb_lt, H1. now apply list_elem_of_In.
  - apply Nat.ltb_lt, H1. now apply list_elem_of_In.
Qed.

Lemma add_gate_Some qc g qs qc' :
  add_gate qc g qs = Some qc' <->
  (Forall (fun q => (q < num_qubits qc)%nat) qs /\ NoDup qs)
  /\ qc' = append_instruction qc g.
Proof.
  unfold add_gate. rewrite <- valid_qargs_spec.
  destruct (valid_qargs qc qs); split.
  - intros [= <-]. auto.
  - intros [_ ->]. reflexivity.
  - discriminate.
  - intros [? _]. discriminate.
Qed.

Lemma add_gate_valid qc g qs :
  Forall (fun q => (q < num_qubits qc)%nat) qs -> NoDup qs ->
  add_gate qc g qs = Some (append_instruction qc g).
Proof. intros H1 H2. apply add_gate_Some. auto. Qed.

Lemma add_gate_None qc g qs :
  ~ (Forall (fun q => (q < num_qubits qc)%nat) qs /\ NoDup qs) ->
  add_gate qc g qs = None.
Proof.
  intros H. destruct (add_gate qc g qs) as [qc'|] eqn:E; [| reflexivity].
  apply add_gate_Some in E as [E _]. contradiction.
Qed.

Lemma NoDup_4 (i j a c : nat) :
  NoDup [i; j; a; c] <->
  i <> j /\ i <> a /\ i <> c /\ j <> a /\ j <> c /\ a <> c.
Proof.
  split.
  - intros H.
    apply NoDup_cons in H as [Hi H]. apply NoDup_cons in H as [Hj H].
    apply NoDup_cons in H as [Ha _].
    apply not_elem_of_cons in Hi as [? Hi].
    apply not_elem_of_cons in Hi as [? Hi].
    apply not_elem_of_cons in Hi as [? _].
    apply not_elem_of_cons in Hj as [? Hj].
    apply not_elem_of_cons in Hj as [? _].
    apply not_elem_of_cons in Ha as [? _]. auto 10.
  - intros (? & ? & ? & ? & ? & ?).
    repeat (apply NoDup_cons; split);
      rewrite ?not_elem_of_cons; repeat split; auto using not_elem_of_nil.
    apply NoDup_nil_2.
Qed.

Lemma NoDup_3 (i j a : nat) :
  NoDup [i; j; a] <-> i <> j /\ i <> a /\ j <> a.
Proof.
  split.
  - intros H.
    apply NoDup_cons in H as [Hi H]. apply NoDup_cons in H as [Hj _].
    apply not_elem_of_cons in Hi as [? Hi].
    apply not_elem_of_cons in Hi as [? _].
    apply not_elem_of_cons in Hj as [? _]. auto.
  - intros (? & ? & ?).
    repeat (apply NoDup_cons; split);
      rewrite ?not_elem_of_cons; repeat split; auto using not_elem_of_nil.
    apply NoDup_nil_2.
Qed.

Lemma NoDup_2 (i j : nat) : NoDup [i; j] <-> i <> j.
Proof.
  split.
  - intros H. apply NoDup_cons in H as [Hi _].
    now apply not_elem_of_cons in Hi as [? _].
  - intros ?. repeat (apply NoDup_cons; split);
      rewrite ?not_elem_of_cons; repeat split; auto using not_elem_of_nil.
    apply NoDup_nil_2.
Qed.

Ltac solve_qargs :=
  match goal with
  | |- Forall _ _ => repeat constructor; simpl; lia
  | |- NoDup [_] => apply NoDup_singleton
  | |- NoDup [_; _] => apply NoDup_2; auto
  | |- NoDup [_; _; _] => apply NoDup_3; auto
  end.

Lemma compare_and_swap_Some qc i j anc_notj anc_cond :
  (i < num_qubits qc /\ j < num_qubits qc
   /\ anc_notj < num_qubits qc /\ anc_cond < num_qubits qc)%nat ->
  NoDup [i; j; anc_notj; anc_cond] ->
  compare_and_swap qc i j anc_notj anc_cond
  = Some {| num_qubits := num_qubits qc; num_clbits := num_clbits qc;
            data := data qc ++
              [XGate j; CXGate j anc_notj; XGate j;
               CCXGate i anc_notj anc_cond; CSwapGate anc_cond i j;
               CCXGate i anc_notj anc_cond; CXGate j anc_notj] |}.
Proof.
  intros (Hi & Hj & Ha & Hc) Hnd.
  apply NoDup_4 in Hnd as (? & ? & ? & ? & ? & ?).
  unfold compare_and_swap, qc_x, qc_cx, qc_ccx, qc_cswap.
  repeat (rewrite add_gate_valid by solve_qargs; simpl).
  unfold append_instruction. simpl. rewrite <- !app_assoc. reflexivity.
Qed.

(** X7: [compare_and_swap] completes exactly when its four indices name
    four different qubits of the circuit, and then appends seven gates;
    in every other case a [CircuitError] stops it. *)
Theorem compare_and_swap_builds qc i j anc_notj anc_cond :
  ((i < num_qubits qc /\ j < num_qubits qc
    /\ anc_notj < num_qubits qc /\ anc_cond < num_qubits qc)%nat
   /\ NoDup [i; j; anc_notj; anc_cond] ->
   compare_and_swap qc i j anc_notj anc_cond
   = Some {| num_qubits := num_qubits qc; num_clbits := num_clbits qc;
             data := data qc ++
               [XGate j; CXGate j anc_notj; XGate j;
                CCXGate i anc_notj anc_cond; CSwapGate anc_cond i j;
                CCXGate i anc_notj anc_cond; CXGate j anc_notj] |})
  /\ (~ ((i < num_qubits qc /\ j < num_qubits qc
          /\ anc_notj < num_qubits qc /\ anc_cond < num_qubits qc)%nat
         /\ NoDup [i; j; anc_notj; anc_cond]) ->
      compare_and_swap qc i j anc_notj anc_cond = None).
Proof.
  split.
  - intros [Hrange Hnd]. now apply compare_and_swap_Some.
  - intros Hbad.
    destruct (compare_and_swap qc i j anc_notj anc_cond) as [qc'|] eqn:E;
      [| reflexivity].
    exfalso. apply Hbad.
    unfold compare_and_swap, qc_x, qc_cx, qc_ccx, qc_cswap in E.
    destruct (add_gate qc (XGate j) [j]) as [q1|] eqn:E1; [| discriminate].
    apply add_gate_Some in E1 as [[F1 _] ->]. simpl in E.
    destruct (add_gate _ (CXGate j anc_notj) _) as [q2|] eqn:E2; [| discriminate].
    apply add_gate_Some in E2 as [[F2 N2] ->]. simpl in E.
    destruct (add_gate _ (XGate j) _) as [q3|] eqn:E3; [| discriminate].
    apply add_gate_Some in E3 as [_ ->]. simpl in E.
    destruct (add_gate _ (CCXGate i anc_notj anc_cond) _) as [q4|] eqn:E4;
      [| discriminate].
    apply add_gate_Some in E4 as [[F4 N4] ->]. simpl in E.
    destruct (add_gate _ (CSwapGate anc_cond i j) _) as [q5|] eqn:E5;
      [| discriminate].
    apply add_gate_Some in E5 as [[F5 N5] ->]. simpl in *.
    inversion F2 as [|? ? Hj F2']; inversion F2' as [|? ? Ha _]; subst.
    inversion F4 as [|? ? Hi F4']; inversion F4' as [|? ? _ F4''];
      inversion F4'' as [|? ? Hc _]; subst.
    split; [auto |].
    apply NoDup_2 in N2. apply NoDup_3 in N4 as (? & ? & ?).
    apply NoDup_3 in N5 as (? & ? & ?).
    apply NoDup_4. auto 10.
Qed.

(** ** Gates on basis states *)

Lemma qubit_insert qs q v q' :
  (q < length qs)%nat ->
  qubit (<[q := v]> qs) q' = if decide (q' = q) then v else qubit qs q'.
Proof.
  intros Hq. unfold qubit. destruct (decide (q' = q)) as [-> | Hne].
  - now rewrite list_lookup_insert_eq.
  - now rewrite list_lookup_insert_ne by congruence.
Qed.

Lemma exec_basis_list_app gs hs st :
  exec_basis_list (gs ++ hs) st
  = (st' ← exec_basis_list gs st; exec_basis_list hs st').
Proof.
  revert st. induction gs as [|g gs IH]; intros st; simpl.
  - reflexivity.
  - destruct (exec_basis g st) as [st'|]; simpl; [apply IH | reflexivity].
Qed.

Section Renaming.
Variable ks : list nat.
Hypothesis ks_NoDup : NoDup ks.

Lemma nth_lookup_ks p :
  (p < length ks)%nat -> ks !! p = Some (nth p ks O).
Proof.
  intros Hp. destruct (lookup_lt_is_Some_2 ks p Hp) as [k Hk].
  rewrite Hk. f_equal. symmetry. now apply nth_lookup_Some with (d := O).
Qed.

Lemma qubit_view qs p :
  (p < length ks)%nat -> qubit (qubit qs <$> ks) p = qubit qs (nth p ks O).
Proof.
  intros Hp. unfold qubit at 1.
  now rewrite list_lookup_fmap, (nth_lookup_ks p Hp).
Qed.

Lemma view_insert qs p v :
  (p < length ks)%nat -> (nth p ks O < length qs)%nat ->
  qubit (<[nth p ks O := v]> qs) <$> ks = <[p := v]> (qubit qs <$> ks).
Proof.
  intros Hp Hq. apply list_eq. intros p'.
  rewrite list_lookup_fmap.
  destruct (decide (p' = p)) as [-> | Hne].
  - rewrite list_lookup_insert_eq by now rewrite length_fmap.
    rewrite (nth_lookup_ks p Hp). simpl. f_equal.
    rewrite qubit_insert by exact Hq. now rewrite decide_True.
  - rewrite list_lookup_insert_ne by congruence.
    rewrite list_lookup_fmap.
    destruct (ks !! p') as [k'|] eqn:Hk'; [| reflexivity]. simpl. f_equal.
    rewrite qubit_insert by exact Hq.
    rewrite decide_False; [reflexivity |]. intros ->.
    apply Hne. eapply NoDup_lookup; eauto using nth_lookup_ks.
Qed.

Lemma outside_insert qs p v k :
  (p < length ks)%nat -> (nth p ks O < length qs)%nat -> k ∉ ks ->
  qubit (<[nth p ks O := v]> qs) k = qubit qs k.
Proof.
  intros Hp Hq Hk. rewrite qubit_insert by exact Hq.
  rewrite decide_False; [reflexivity |]. intros ->. apply Hk.
  eapply list_elem_of_lookup_2, nth_lookup_ks, Hp.
Qed.

(** A gate on the qubits [ks] acts on them as the gate on positions
    acts on the small register, and touches nothing else. *)
Lemma exec_basis_rename g qs cs small' cs' :
  Forall (fun k => (k < length qs)%nat) ks ->
  gate_below (length ks) g ->
  exec_basis g (qubit qs <$> ks, cs) = Some (small', cs') ->
  exists qs',
    exec_basis (rename_gate ks g) (qs, cs) = Some (qs', cs')
    /\ length qs' = length qs
    /\ qubit qs' <$> ks = small'
    /\ forall k, k ∉ ks -> qubit qs' k = qubit qs k.
Proof.
  intros Hks Hg Hexec.
  assert (Hin : forall p, (p < length ks)%nat -> (nth p ks O < length qs)%nat).
  { intros p Hp. rewrite Forall_forall in Hks. apply Hks.
    eapply list_elem_of_lookup_2, nth_lookup_ks, Hp. }
  destruct g as [q|q|c t|c1 c2 t|c a b| |q c]; simpl in Hg, Hexec |- *.
  - injection Hexec as <- <-. eexists. split; [reflexivity |].
    rewrite length_insert. split; [reflexivity |]. split.
    + rewrite view_insert, qubit_view by auto. reflexivity.
    + intros k Hk. apply outside_insert; auto.
  - discriminate.
  - destruct Hg as [Hc Ht]. injection Hexec as <- <-.
    eexists. split; [reflexivity |].
    rewrite length_insert. split; [reflexivity |]. split.
    + rewrite view_insert, !qubit_view by auto. reflexivity.
    + intros k Hk. apply outside_insert; auto.
  - destruct Hg as (Hc1 & Hc2 & Ht). injection Hexec as <- <-.
    eexists. split; [reflexivity |].
    rewrite length_insert. split; [reflexivity |]. split.
    + rewrite view_insert, !qubit_view by auto. reflexivity.
    + intros k Hk. apply outside_insert; auto.
  - destruct Hg as (Hc & Ha & Hb). injection Hexec as <- <-.
    rewrite !qubit_view by auto.
    eexists. split; [reflexivity |].
    destruct (qubit qs (nth c ks O)).
    + rewrite !length_insert. split; [reflexivity |]. split.
      * rewrite !view_insert by (rewrite ?length_insert; auto).
        reflexivity.
      * intros k Hk.
        rewrite !outside_insert by (rewrite ?length_insert; auto).
        reflexivity.
    + auto.
  - injection Hexec as <- <-. eexists. eauto.
  - injection Hexec as <- <-. rewrite qubit_view by auto.
    eexists. eauto.
Qed.

Lemma exec_basis_list_rename gs : forall qs cs small' cs',
  Forall (fun k => (k < length qs)%nat) ks ->
  Forall (gate_below (length ks)) gs ->
  exec_basis_list gs (qubit qs <$> ks, cs) = Some (small', cs') ->
  exists qs',
    exec_basis_list (rename_gate ks <$> gs) (qs, cs) = Some (qs', cs')
    /\ length qs' = length qs
    /\ qubit qs' <$> ks = small'
    /\ forall k, k ∉ ks -> qubit qs' k = qubit qs k.
Proof.
  induction gs as [|g gs IH]; intros qs cs small' cs' Hks Hgs Hexec.
  - simpl in Hexec. injection Hexec as <- <-. exists qs. simpl. auto.
  - inversion Hgs as [|? ? Hg Hgs']; subst.
    cbn [exec_basis_list] in Hexec.
    destruct (exec_basis g (qubit qs <$> ks, cs)) as [[small1 cs1]|] eqn:Hstep;
      simpl in Hexec; [| discriminate].
    destruct (exec_basis_rename g qs cs small1 cs1 Hks Hg Hstep)
      as (qs1 & E1 & L1 & V1 & O1).
    simpl in Hexec. rewrite <- V1 in Hexec.
    destruct (IH qs1 cs1 small' cs') as (qs' & E & L & V & O); auto.
    { rewrite L1. exact Hks. }
    exists qs'. cbn [fmap list_fmap exec_basis_list].
    rewrite E1. simpl. rewrite E. repeat split; auto; try congruence.
    intros k Hk. rewrite O, O1; auto.
Qed.
End Renaming.

(** ** The comparators on basis states *)

(** X8: on a basis state with both ancillas at 0, [compare_and_swap]
    leaves the smaller bit in [q[i]] and the larger in [q[j]] and touches
    no other data qubit; but the ancillas are not restored: [anc_cond]
    ends at 1 exactly when the pair was swapped and [anc_notj] at 1
    exactly when it was not. *)
Theorem compare_and_swap_on_basis_states qc i j anc_notj anc_cond st0 qs cs :
  (i < num_qubits qc /\ j < num_qubits qc
   /\ anc_notj < num_qubits qc /\ anc_cond < num_qubits qc)%nat ->
  NoDup [i; j; anc_notj; anc_cond] ->
  exec_basis_list (data qc) st0 = Some (qs, cs) ->
  length qs = num_qubits qc ->
  qubit qs anc_notj = false -> qubit qs anc_cond = false ->
  exists qc' qs',
    compare_and_swap qc i j anc_notj anc_cond = Some qc'
    /\ exec_basis_list (data qc') st0 = Some (qs', cs)
    /\ length qs' = length qs
    /\ qubit qs' i = qubit qs i && qubit qs j
    /\ qubit qs' j = qubit qs i || qubit qs j
    /\ qubit qs' anc_cond = qubit qs i && negb (qubit qs j)
    /\ qubit qs' anc_notj = negb (qubit qs i && negb (qubit qs j))
    /\ forall k, k ∉ [i; j; anc_notj; anc_cond] -> qubit qs' k = qubit qs k.
Proof.
  intros Hrange Hnd Hrun Hlen Hanc Hcond.
  rewrite (compare_and_swap_Some qc i j anc_notj anc_cond Hrange Hnd).
  destruct (exec_basis_list_rename [i; j; anc_notj; anc_cond] Hnd
              [XGate 1; CXGate 1 2; XGate 1; CCXGate 0 2 3; CSwapGate 3 0 1;
               CCXGate 0 2 3; CXGate 1 2] qs cs
              [qubit qs i && qubit qs j; qubit qs i || qubit qs j;
               negb (qubit qs i && negb (qubit qs j));
               qubit qs i && negb (qubit qs j)] cs)
    as (qs' & E & L & V & O).
  - rewrite Hlen. destruct Hrange as (? & ? & ? & ?). repeat constructor; auto.
  - repeat constructor; simpl; lia.
  - cbn [fmap list_fmap]. rewrite Hanc, Hcond.
    destruct (qubit qs i), (qubit qs j); reflexivity.
  - eexists. exists qs'. split; [reflexivity |]. cbn [data].
    rewrite exec_basis_list_app, Hrun. simpl mbind.
    split; [exact E |].
    split; [exact L |]. cbn [fmap list_fmap] in V.
    injection V as Vi Vj Va Vc. auto 10.
Qed.

Lemma comparator_Some qc a b ancilla :
  (a < num_qubits qc /\ b < num_qubits qc /\ ancilla < num_qubits qc)%nat ->
  NoDup [a; b; ancilla] ->
  comparator qc a b ancilla
  = Some {| num_qubits := num_qubits qc; num_clbits := num_clbits qc;
            data := data qc ++
              [CXGate b ancilla; CXGate a ancilla; CCXGate ancilla a b;
               CXGate a ancilla; CXGate b ancilla] |}.
Proof.
  intros (Ha & Hb & Hanc) Hnd. apply NoDup_3 in Hnd as (? & ? & ?).
  unfold comparator, qc_cx, qc_ccx.
  repeat (rewrite add_gate_valid by solve_qargs; simpl).
  unfold append_instruction. simpl. rewrite <- !app_assoc. reflexivity.
Qed.

(** X9: on a basis state with the ancilla at 0, [comparator] does not
    exchange anything: [q[a]] is kept, [q[b]] becomes the OR of the two
    bits, the ancilla ends at 1 exactly when [q[a]] was 1 and [q[b]] was
    0, and no other qubit changes. *)
Theorem comparator_on_basis_states qc a b ancilla st0 qs cs :
  (a < num_qubits qc /\ b < num_qubits qc /\ ancilla < num_qubits qc)%nat ->
  NoDup [a; b; ancilla] ->
  exec_basis_list (data qc) st0 = Some (qs, cs) ->
  length qs = num_qubits qc ->
  qubit qs ancilla = false ->
  exists qc' qs',
    comparator qc a b ancilla = Some qc'
    /\ exec_basis_list (data qc') st0 = Some (qs', cs)
    /\ length qs' = length qs
    /\ qubit qs' a = qubit qs a
    /\ qubit qs' b = qubit qs a || qubit qs b
    /\ qubit qs' ancilla = qubit qs a && negb (qubit qs b)
    /\ forall k, k ∉ [a; b; ancilla] -> qubit qs' k = qubit qs k.
Proof.
  intros Hrange Hnd Hrun Hlen Hanc.
  rewrite (comparator_Some qc a b ancilla Hrange Hnd).
  destruct (exec_basis_list_rename [a; b; ancilla] Hnd
              [CXGate 1 2; CXGate 0 2; CCXGate 2 0 1; CXGate 0 2; CXGate 1 2]
              qs cs
              [qubit qs a; qubit qs a || qubit qs b;
               qubit qs a && negb (qubit qs b)] cs)
    as (qs' & E & L & V & O).
  - rewrite Hlen. destruct Hrange as (? & ? & ?). repeat constructor; auto.
  - repeat constructor; simpl; lia.
  - cbn [fmap list_fmap]. rewrite Hanc.
    destruct (qubit qs a), (qubit qs b); reflexivity.
  - eexists. exists qs'. split; [reflexivity |]. cbn [data].
    rewrite exec_basis_list_app, Hrun. simpl mbind.
    split; [exact E |].
    split; [exact L |]. cbn [fmap list_fmap] in V.
    injection V as Va Vb Vanc. auto 10.
Qed.

(** ** The two scripts on every input of three bits *)

(** X10: for every input of three bits, the circuit of
    [quantum_sort_3pass] gives back the data qubits as they were loaded
    and leaves the ancillas at 1 and 0; every shot measures the key made
    of the three input bits followed by ["10"], and the [sorted_q] that
    the script reads at positions 4, 3 and 2 of that key is [0], [1] and
    the third input bit. *)
Theorem quantum_sort_3pass_outcome (b0 b1 b2 : bool) :
  exists qc,
    quantum_sort_3pass [PInt (Z.b2z b0); PInt (Z.b2z b1); PInt (Z.b2z b2)]
    = Some qc
    /\ run_basis qc
       = Some ([b0; b1; b2; true; false], [false; true; b2; b1; b0])
    /\ basis_counts qc 1024
       = Some {[ String (bit_char b0)
                   (String (bit_char b1) (String (bit_char b2) "10"))
                 := 1024 ]}
    /\ sorted_q (String (bit_char b0)
                   (String (bit_char b1) (String (bit_char b2) "10")))
       = Ok [0; 1; Z.b2z b2].
Proof.
  destruct b0, b1, b2; eexists; (split; [vm_compute; reflexivity |]);
    repeat split; vm_compute; reflexivity.
Qed.

(** X11: for each of the eight inputs of the script, the circuit of
    [run_quantum_sort] measures in every shot the key whose bits are,
    from the left, [b1 or (b2 and not b0)], [b0 or b1] and [b0]: the
    first input bit is kept and ORed into the second, and the ancilla
    ends at [(b0 or b1) and not b2]. *)
Theorem run_quantum_sort_outcome (b0 b1 b2 : bool) :
  Ok (bits3 b0 b1 b2) ∈ inputs
  /\ exists qc,
       run_quantum_sort (bits3 b0 b1 b2) = Some qc
       /\ run_basis qc
          = Some ([b0; b0 || b1; b1 || (b2 && negb b0);
                   (b0 || b1) && negb b2],
                  [b0; b0 || b1; b1 || (b2 && negb b0)])
       /\ basis_counts qc 1024
          = Some {[ bits3 (b1 || (b2 && negb b0)) (b0 || b1) b0 := 1024 ]}.
Proof.
  split.
  - unfold inputs. cbn [seq map].
    destruct b0, b1, b2; vm_compute;
      repeat first [apply list_elem_of_here | apply list_elem_of_further].
  - destruct b0, b1, b2; eexists; (split; [vm_compute; reflexivity |]);
      split; vm_compute; reflexivity.
Qed.

(** ** The Grover circuit on amplitudes *)

Lemma exec_amps_list_app gs hs st :
  exec_amps_list (gs ++ hs) st = exec_amps_list hs (exec_amps_list gs st).
Proof. unfold exec_amps_list. apply foldl_app. Qed.

Lemma qc_x_Some qc q :
  (q < num_qubits qc)%nat -> qc_x qc q = Some (append_instruction qc (XGate q)).
Proof. intros. unfold qc_x. apply add_gate_valid; solve_qargs. Qed.

Lemma qc_h_Some qc q :
  (q < num_qubits qc)%nat -> qc_h qc q = Some (append_instruction qc (HGate q)).
Proof. intros. unfold qc_h. apply add_gate_valid; solve_qargs. Qed.

Lemma qc_ccx_Some qc c1 c2 t :
  (c1 < num_qubits qc /\ c2 < num_qubits qc /\ t < num_qubits qc)%nat ->
  c1 <> c2 /\ c1 <> t /\ c2 <> t ->
  qc_ccx qc c1 c2 t = Some (append_instruction qc (CCXGate c1 c2 t)).
Proof.
  intros (? & ? & ?) (? & ? & ?). unfold qc_ccx.
  apply add_gate_valid; solve_qargs.
Qed.

Ltac build_step :=
  first [ rewrite qc_x_Some by (cbn [num_qubits append_instruction]; lia)
        | rewrite qc_h_Some by (cbn [num_qubits append_instruction]; lia)
        | rewrite qc_ccx_Some
            by (cbn [num_qubits append_instruction]; repeat split; lia) ];
  cbn [mbind option_bind].

Lemma qc_h_each_3 qc :
  (3 <= num_qubits qc)%nat ->
  qc_h_each qc [0; 1; 2]%nat
  = Some {| num_qubits := num_qubits qc; num_clbits := num_clbits qc;
            data := data qc ++ [HGate 0; HGate 1; HGate 2] |}.
Proof.
  intros Hn. cbn [qc_h_each]. do 3 build_step.
  unfold append_instruction. cbn [num_qubits num_clbits data].
  rewrite <- !app_assoc. reflexivity.
Qed.

Lemma qc_x_each_3 qc :
  (3 <= num_qubits qc)%nat ->
  qc_x_each qc [0; 1; 2]%nat
  = Some {| num_qubits := num_qubits qc; num_clbits := num_clbits qc;
            data := data qc ++ [XGate 0; XGate 1; XGate 2] |}.
Proof.
  intros Hn. cbn [qc_x_each]. do 3 build_step.
  unfold append_instruction. cbn [num_qubits num_clbits data].
  rewrite <- !app_assoc. reflexivity.
Qed.

Lemma apply_oracle_Some qc :
  (3 <= num_qubits qc)%nat ->
  apply_oracle qc
  = Some {| num_qubits := num_qubits qc; num_clbits := num_clbits qc;
            data := data qc ++
              [XGate 2; HGate 0; CCXGate 1 2 0; HGate 0; XGate 2] |}.
Proof.
  intros Hn. unfold apply_oracle. do 4 build_step.
  rewrite qc_x_Some by (cbn [num_qubits append_instruction]; lia).
  unfold append_instruction. cbn [num_qubits num_clbits data].
  rewrite <- !app_assoc. reflexivity.
Qed.

Lemma apply_diffusion_Some qc :
  (3 <= num_qubits qc)%nat ->
  apply_diffusion qc
  = Some {| num_qubits := num_qubits qc; num_clbits := num_clbits qc;
            data := data qc ++
              [HGate 0; HGate 1; HGate 2; XGate 0; XGate 1; XGate 2;
               HGate 2; CCXGate 0 1 2; HGate 2;
               XGate 0; XGate 1; XGate 2; HGate 0; HGate 1; HGate 2] |}.
Proof.
  intros Hn. unfold apply_diffusion.
  rewrite qc_h_each_3 by exact Hn. cbn [mbind option_bind].
  rewrite qc_x_each_3 by exact Hn. cbn [mbind option_bind].
  do 3 build_step.
  rewrite qc_x_each_3 by exact Hn. cbn [mbind option_bind].
  rewrite qc_h_each_3 by exact Hn.
  unfold append_instruction. cbn [num_qubits num_clbits data].
  rewrite <- !app_assoc. reflexivity.
Qed.

Ltac eight_amplitudes st :=
  let h := fresh "h" in
  let v := fresh "v" in
  destruct st as [h v]; cbn [amps hcount] in *;
  do 9 (try destruct v as [|? v]); try discriminate.

Lemma oracle_gates_amps st :
  length (amps st) = 8%nat ->
  exec_amps_list [XGate 2; HGate 0; CCXGate 1 2 0; HGate 0; XGate 2] st
  = {| hcount := hcount st + 2;
       amps := imap (fun i a => if (i =? 3)%nat then - 2 * a else 2 * a)
                    (amps st) |}.
Proof.
  intros Hlen. eight_amplitudes st.
  cbn. f_equal; [lia |]. repeat (f_equal; try lia).
Qed.

Lemma diffusion_gates_amps st :
  length (amps st) = 8%nat ->
  exec_amps_list
    [HGate 0; HGate 1; HGate 2; XGate 0; XGate 1; XGate 2;
     HGate 2; CCXGate 0 1 2; HGate 2;
     XGate 0; XGate 1; XGate 2; HGate 0; HGate 1; HGate 2] st
  = {| hcount := hcount st + 8;
       amps := (fun a => 16 * a - 4 * foldr Z.add 0 (amps st)) <$> amps st |}.
Proof.
  intros Hlen. eight_amplitudes st.
  cbn. f_equal; [lia |]. repeat (f_equal; try lia).
Qed.

(** X12: on every state of three qubits, the gates of [apply_oracle]
    negate the amplitude of the basis state number 3, whose key is
    [TARGET_STATE], and keep all the others (the integers double while
    two H gates are counted). *)
Theorem apply_oracle_marks_target qc st0 :
  (num_qubits qc = 3)%nat ->
  length (amps (exec_amps_list (data qc) st0)) = 8%nat ->
  format_0b 3 3 = Ok TARGET_STATE
  /\ exists qc',
       apply_oracle qc = Some qc'
       /\ num_qubits qc' = 3%nat
       /\ hcount (exec_amps_list (data qc') st0)
          = (hcount (exec_amps_list (data qc) st0) + 2)%nat
       /\ amps (exec_amps_list (data qc') st0)
          = imap (fun i a => if (i =? 3)%nat then - 2 * a else 2 * a)
                 (amps (exec_amps_list (data qc) st0)).
Proof.
  intros Hn Hlen. split; [reflexivity |].
  rewrite apply_oracle_Some by lia. eexists. split; [reflexivity |].
  cbn [num_qubits data]. split; [exact Hn |].
  rewrite exec_amps_list_app, oracle_gates_amps by exact Hlen.
  split; reflexivity.
Qed.

(** X13: on every state of three qubits, the gates of [apply_diffusion]
    replace each amplitude [a] by [a - 2 * mean], the inversion about
    the mean up to a global sign: with eight more H gates counted, the
    integer [a] becomes [16 * a - 4 * sum]. *)
Theorem apply_diffusion_inverts_about_mean qc st0 :
  (num_qubits qc = 3)%nat ->
  length (amps (exec_amps_list (data qc) st0)) = 8%nat ->
  exists qc',
    apply_diffusion qc = Some qc'
    /\ num_qubits qc' = 3%nat
    /\ hcount (exec_amps_list (data qc') st0)
       = (hcount (exec_amps_list (data qc) st0) + 8)%nat
    /\ amps (exec_amps_list (data qc') st0)
       = (fun a => 16 * a
                   - 4 * foldr Z.add 0 (amps (exec_amps_list (data qc) st0)))
         <$> amps (exec_amps_list (data qc) st0).
Proof.
  intros Hn Hlen.
  rewrite apply_diffusion_Some by lia. eexists. split; [reflexivity |].
  cbn [num_qubits data]. split; [exact Hn |].
  rewrite exec_amps_list_app, diffusion_gates_amps by exact Hlen.
  split; reflexivity.
Qed.

Lemma build_circuit_Some :
  build_circuit
  = Some {| num_qubits := 3; num_clbits := 3;
            data :=
              [HGate 0; HGate 1; HGate 2;
               XGate 2; HGate 0; CCXGate 1 2 0; HGate 0; XGate 2;
               HGate 0; HGate 1; HGate 2; XGate 0; XGate 1; XGate 2;
               HGate 2; CCXGate 0 1 2; HGate 2;
               XGate 0; XGate 1; XGate 2; HGate 0; HGate 1; HGate 2;
               XGate 2; HGate 0; CCXGate 1 2 0; HGate 0; XGate 2;
               HGate 0; HGate 1; HGate 2; XGate 0; XGate 1; XGate 2;
               HGate 2; CCXGate 0 1 2; HGate 2;
               XGate 0; XGate 1; XGate 2; HGate 0; HGate 1; HGate 2;
               Measure 0 0; Measure 1 1; Measure 2 2] |}.
Proof. vm_compute. reflexivity. Qed.

(** X14: [build_circuit] succeeds, and before its measurements the
    basis state whose key is [TARGET_STATE] has probability 121/128 and
    each of the seven others 1/128; the three measurements copy qubit
    [q] to bit [q], so the key of the basis state number [i] is [i]
    written on three binary digits. *)
Theorem build_circuit_amplifies_target :
  exists qc,
    build_circuit = Some qc
    /\ num_qubits qc = 3%nat
    /\ (exists gates,
          data qc = gates ++ [Measure 0 0; Measure 1 1; Measure 2 2]
          /\ Forall (fun g => match g with Measure _ _ => False | _ => True end)
                    gates)
    /\ format_0b 3 3 = Ok TARGET_STATE
    /\ 128 * prob_num (run_amps qc) 3 = 121 * prob_den (run_amps qc)
    /\ forall i, (i < 8)%nat -> i <> 3%nat ->
         128 * prob_num (run_amps qc) i = prob_den (run_amps qc).
Proof.
  rewrite build_circuit_Some. eexists. split; [reflexivity |].
  split; [reflexivity |]. split.
  - cbn [data].
    match goal with
    | |- exists gates, ?l = _ /\ _ => exists (take 43 l)
    end.
    split; [reflexivity |]. cbn [take]. repeat constructor.
  - split; [reflexivity |]. split; [vm_compute; reflexivity |].
    intros i Hi Hne.
    do 8 (destruct i as [|i]; [try congruence; vm_compute; reflexivity |]).
    lia.
Qed.

Lemma grover_iteration_amps st t o :
  amps st = [o; o; o; t; o; o; o; o] ->
  exec_amps_list
    ([XGate 2; HGate 0; CCXGate 1 2 0; HGate 0; XGate 2] ++
     [HGate 0; HGate 1; HGate 2; XGate 0; XGate 1; XGate 2;
      HGate 2; CCXGate 0 1 2; HGate 2;
      XGate 0; XGate 1; XGate 2; HGate 0; HGate 1; HGate 2]) st
  = {| hcount := hcount st + 10;
       amps := let (t', o') := grover_step (t, o) in
               [o'; o'; o'; t'; o'; o'; o'; o'] |}.
Proof.
  intros Hv. rewrite exec_amps_list_app.
  rewrite oracle_gates_amps by (rewrite Hv; reflexivity).
  rewrite diffusion_gates_amps by (cbn [amps]; rewrite Hv; reflexivity).
  cbn [amps hcount]. rewrite Hv. cbn.
  f_equal; [lia |]. repeat (f_equal; try lia).
Qed.

Lemma iter_shift {A} (f : A -> A) n x :
  Nat.iter (S n) f x = Nat.iter n f (f x).
Proof.
  induction n as [|n IH]; [reflexivity |].
  cbn [Nat.iter nat_rect] in *. now rewrite IH.
Qed.

(** X15: from a state of three qubits in which the basis state number 3
    has the amplitude [t] and the seven others all have [o], [n] rounds
    of [apply_oracle] then [apply_diffusion] succeed and give the state
    of the same shape whose pair is [grover_step] iterated [n] times,
    with [10 * n] more H gates counted. *)
Theorem grover_iterations_amplify n :
  forall qc st0 t o,
    (num_qubits qc = 3)%nat ->
    amps (exec_amps_list (data qc) st0) = [o; o; o; t; o; o; o; o] ->
    exists qc',
      grover_iterations n qc = Some qc'
      /\ num_qubits qc' = 3%nat
      /\ hcount (exec_amps_list (data qc') st0)
         = (hcount (exec_amps_list (data qc) st0) + 10 * n)%nat
      /\ amps (exec_amps_list (data qc') st0)
         = let (t', o') := Nat.iter n grover_step (t, o) in
           [o'; o'; o'; t'; o'; o'; o'; o'].
Proof.
  induction n as [|n IH]; intros qc st0 t o Hn Hv.
  - exists qc. cbn [grover_iterations Nat.iter nat_rect].
    repeat split; [exact Hn | lia | exact Hv].
  - cbn [grover_iterations].
    rewrite apply_oracle_Some by lia. cbn [mbind option_bind].
    rewrite apply_diffusion_Some by (cbn [num_qubits]; lia).
    cbn [mbind option_bind num_qubits num_clbits data].
    rewrite <- app_assoc.
    match goal with
    | |- context [grover_iterations n ?q] =>
        destruct (IH q st0 (fst (grover_step (t, o)))
                    (snd (grover_step (t, o)))) as (qc' & Hq & Hn' & Hh & Ha)
    end.
    + exact Hn.
    + cbn [data]. rewrite exec_amps_list_app.
      rewrite (grover_iteration_amps _ t o Hv). cbn [amps].
      destruct (grover_step (t, o)); reflexivity.
    + exists qc'. split; [exact Hq |]. split; [exact Hn' |]. split.
      * rewrite Hh. cbn [data]. rewrite exec_amps_list_app.
        rewrite (grover_iteration_amps _ t o Hv). cbn [hcount]. lia.
      * rewrite Ha, iter_shift.
        destruct (grover_step (t, o)); reflexivity.
Qed.

(** ** The report of [run] *)

Lemma true_div_error_zero a : true_div_error a 0 = Some ZeroDivisionError.
Proof. reflexivity. Qed.







Lemma float_overflow_bound_pos : 0 < float_overflow_bound.
Proof. reflexivity. Qed.

Lemma true_div_error_None a b :
  true_div_error a b = None <->
  b <> 0 /\ Z.abs a < float_overflow_bound * Z.abs b.
Proof.
  unfold true_div_error.
  destruct (Z.eqb_spec b 0) as [-> | Hb].
  - split; [discriminate | intros [[] _]; reflexivity].
  - destruct (Z.leb_spec (float_overflow_bound * Z.abs b) (Z.abs a)).
    + split; [discriminate | intros [_ ?]; lia].
    + split; auto.
Qed.

Lemma items_error_None total items :
  items_error total items = None <->
  Forall (fun kc => true_div_error (100 * kc.2) total = None) items.
Proof.
  induction items as [|[k c] rest IH]; cbn [items_error].
  - split; [constructor | reflexivity].
  - rewrite Forall_cons. cbn [snd].
    destruct (true_div_error (100 * c) total);
      [split; [discriminate | intros [? _]; discriminate] |].
    rewrite IH. tauto.
Qed.

Lemma report_Returns total aggregated :
  report total aggregated = Returns <->
  total <> 0
  /\ forall s c, aggregated !! s = Some c ->
       Z.abs (100 * c) < float_overflow_bound * Z.abs total.
Proof.
  unfold report. split.
  - destruct (items_error total (map_to_list aggregated)) eqn:Hi;
      [discriminate |].
    destruct (true_div_error _ total) eqn:Hd; [discriminate |].
    intros _. apply true_div_error_None in Hd as [Ht _].
    split; [exact Ht |]. intros s c Hs.
    apply items_error_None in Hi. rewrite Forall_forall in Hi.
    apply elem_of_map_to_list in Hs. apply Hi in Hs. cbn [snd] in Hs.
    now apply true_div_error_None in Hs.
  - intros [Ht Hall].
    assert (Hi : items_error total (map_to_list aggregated) = None).
    { apply items_error_None, Forall_forall. intros [s c] Hs.
      apply elem_of_map_to_list in Hs. cbn [snd].
      apply true_div_error_None. split; [exact Ht |]. now apply (Hall s). }
    rewrite Hi.
    assert (Hd : true_div_error
                   (100 * default 0 (aggregated !! TARGET_STATE)) total
                 = None).
    { apply true_div_error_None. split; [exact Ht |].
      destruct (aggregated !! TARGET_STATE) as [c |] eqn:Hc; cbn [default].
      - now apply (Hall TARGET_STATE).
      - pose proof float_overflow_bound_pos. change (100 * 0) with 0.
        cbn [Z.abs]. nia. }
    now rewrite Hd.
Qed.

(** X17: [run] returns exactly when the runtime is there if needed,
    every trial succeeds, [trials * shots] is not 0 and every percentage
    [100 * cnt / total] fits a float; in every other case it raises. *)
Theorem run_returns_iff runtime_installed trials shots hw b :
  run runtime_installed trials shots hw b = Returns <->
  (hw = true -> runtime_installed = true)
  /\ exists aggregated,
       run_trials trials shots hw b = Ok aggregated
       /\ trials * shots <> 0
       /\ forall s c, aggregated !! s = Some c ->
            Z.abs (100 * c) < float_overflow_bound * Z.abs (trials * shots).
Proof.
  unfold run. split.
  - destruct hw, runtime_installed; cbn [andb negb]; try discriminate;
      (destruct (run_trials trials shots _ b) as [aggregated |];
       [| discriminate]);
      intros Hret; apply report_Returns in Hret;
      (split; [intros; congruence | now exists aggregated]).
  - intros [Hi (aggregated & Hr & Hrep)].
    replace (hw && negb runtime_installed) with false
      by (destruct hw, runtime_installed; try reflexivity;
          discriminate (Hi eq_refl)).
    rewrite Hr. now apply report_Returns.
Qed.

(** ** Loading the input *)

Lemma qc_x_None qc q : (num_qubits qc <= q)%nat -> qc_x qc q = None.
Proof.
  intros Hq. unfold qc_x. apply add_gate_None. intros [H _].
  apply Forall_cons in H as [H _]. lia.
Qed.

Lemma load_input_bits_sizes input_bits : forall qc idx qc',
  load_input_bits qc idx input_bits = Some qc' ->
  num_qubits qc' = num_qubits qc /\ num_clbits qc' = num_clbits qc.
Proof.
  induction input_bits as [|bit rest IH]; intros qc idx qc';
    cbn [load_input_bits].
  - intros [= <-]. auto.
  - destruct (py_eq_1 bit).
    + destruct (le_lt_dec (num_qubits qc) idx) as [Hle | Hlt].
      * rewrite qc_x_None by exact Hle. discriminate.
      * rewrite qc_x_Some by exact Hlt. cbn [mbind option_bind].
        intros H. now apply IH in H.
    + cbn [mbind option_bind]. apply IH.
Qed.

Lemma load_input_bits_None input_bits : forall qc idx,
  load_input_bits qc idx input_bits = None <->
  exists k bit, input_bits !! k = Some bit /\ py_eq_1 bit = true
                /\ (num_qubits qc <= idx + k)%nat.
Proof.
  induction input_bits as [|bit rest IH]; intros qc idx;
    cbn [load_input_bits].
  - split; [discriminate | intros (k & bit & H & _); discriminate].
  - destruct (py_eq_1 bit) eqn:Hb.
    + destruct (le_lt_dec (num_qubits qc) idx) as [Hle | Hlt].
      * rewrite qc_x_None by exact Hle. split; [| reflexivity].
        intros _. exists 0%nat, bit. repeat split; [exact Hb | lia].
      * rewrite qc_x_Some by exact Hlt. cbn [mbind option_bind].
        rewrite IH. cbn [num_qubits append_instruction].
        split; intros (k & bit' & Hk & Hb' & Hle).
        -- exists (S k), bit'. repeat split; auto. lia.
        -- destruct k as [|k]; [lia |].
           exists k, bit'. repeat split; auto. lia.
    + cbn [mbind option_bind]. rewrite IH.
      split; intros (k & bit' & Hk & Hb' & Hle).
      * exists (S k), bit'. repeat split; auto. lia.
      * destruct k as [|k].
        -- cbn in Hk. congruence.
        -- exists k, bit'. repeat split; auto. lia.
Qed.

Lemma load_bit_chars_sizes bits : forall qc i qc',
  load_bit_chars qc i bits = Some qc' ->
  num_qubits qc' = num_qubits qc /\ num_clbits qc' = num_clbits qc.
Proof.
  induction bits as [|bit rest IH]; intros qc i qc'; cbn [load_bit_chars].
  - intros [= <-]. auto.
  - destruct (Ascii.eqb bit "1").
    + destruct (le_lt_dec (num_qubits qc) i) as [Hle | Hlt].
      * rewrite qc_x_None by exact Hle. discriminate.
      * rewrite qc_x_Some by exact Hlt. cbn [mbind option_bind].
        intros H. now apply IH in H.
    + cbn [mbind option_bind]. apply IH.
Qed.

Lemma load_bit_chars_None bits : forall qc i,
  load_bit_chars qc i bits = None <->
  exists k, String.get k bits = Some "1"%char
            /\ (num_qubits qc <= i + k)%nat.
Proof.
  induction bits as [|bit rest IH]; intros qc i; cbn [load_bit_chars].
  - split; [discriminate | intros (k & H & _)].
    destruct k; discriminate.
  - destruct (Ascii.eqb_spec bit "1") as [-> | Hb].
    + destruct (le_lt_dec (num_qubits qc) i) as [Hle | Hlt].
      * rewrite qc_x_None by exact Hle. split; [| reflexivity].
        intros _. exists 0%nat. split; [reflexivity | lia].
      * rewrite qc_x_Some by exact Hlt. cbn [mbind option_bind].
        rewrite IH. cbn [num_qubits append_instruction].
        split; intros (k & Hk & Hle).
        -- exists (S k). split; [exact Hk | lia].
        -- destruct k as [|k]; [lia |].
           exists k. split; [exact Hk | lia].
    + cbn [mbind option_bind]. rewrite IH.
      split; intros (k & Hk & Hle).
      * exists (S k). split; [exact Hk | lia].
      * destruct k as [|k].
        -- cbn in Hk. congruence.
        -- exists k. split; [exact Hk | lia].
Qed.

Lemma measure_one_Some qc q c :
  (q < num_qubits qc)%nat -> (c < num_clbits qc)%nat ->
  measure_one qc q c = Some (append_instruction qc (Measure q c)).
Proof.
  intros Hq Hc. unfold measure_one.
  apply Nat.ltb_lt in Hq, Hc. now rewrite Hq, Hc.
Qed.

(** X18: whatever list it is given, [quantum_sort_3pass] fails with a
    [CircuitError] exactly when some entry at position 5 or beyond
    equals 1: lists of any other length and entries that are not bits
    are accepted without a check. *)
Theorem quantum_sort_3pass_raises input_bits :
  quantum_sort_3pass input_bits = None <->
  exists idx bit, input_bits !! idx = Some bit /\ py_eq_1 bit = true
                  /\ (5 <= idx)%nat.
Proof.
  rewrite <- (load_input_bits_None input_bits (new_circuit 5 5) 0).
  unfold quantum_sort_3pass.
  destruct (load_input_bits (new_circuit 5 5) 0 input_bits) as [qc |] eqn:Hl;
    [| split; reflexivity].
  apply load_input_bits_sizes in Hl as [Hq Hc].
  cbn [num_qubits num_clbits new_circuit] in Hq, Hc.
  cbn [mbind option_bind].
  rewrite compare_and_swap_Some
    by (rewrite ?Hq; first [lia | apply NoDup_4; lia]).
  cbn [mbind option_bind].
  rewrite compare_and_swap_Some
    by (cbn [num_qubits]; rewrite ?Hq; first [lia | apply NoDup_4; lia]).
  cbn [mbind option_bind].
  rewrite compare_and_swap_Some
    by (cbn [num_qubits]; rewrite ?Hq; first [lia | apply NoDup_4; lia]).
  cbn [mbind option_bind].
  unfold qc_measure. cbn [length Nat.eqb zip zip_with measure_pairs].
  do 5 (rewrite measure_one_Some
          by (cbn [num_qubits num_clbits append_instruction qc_barrier];
              rewrite ?Hq, ?Hc; lia);
        cbn [mbind option_bind]).
  split; discriminate.
Qed.

(** X19: whatever string it is given, [run_quantum_sort] fails with a
    [CircuitError] exactly when some character at position 4 or beyond
    is ["1"]: strings of any other length and other characters are
    accepted without a check, and a ["1"] at position 3 sets the
    ancilla. *)
Theorem run_quantum_sort_raises bits :
  run_quantum_sort bits = None <->
  exists k, String.get k bits = Some "1"%char /\ (4 <= k)%nat.
Proof.
  rewrite <- (load_bit_chars_None bits (new_circuit 4 3) 0).
  unfold run_quantum_sort.
  destruct (load_bit_chars (new_circuit 4 3) 0 bits) as [qc |] eqn:Hl;
    [| split; reflexivity].
  apply load_bit_chars_sizes in Hl as [Hq Hc].
  cbn [num_qubits num_clbits new_circuit] in Hq, Hc.
  cbn [mbind option_bind].
  rewrite comparator_Some
    by (cbn [num_qubits qc_barrier append_instruction]; rewrite ?Hq;
        first [lia | apply NoDup_3; lia]).
  cbn [mbind option_bind].
  rewrite comparator_Some
    by (cbn [num_qubits qc_barrier append_instruction]; rewrite ?Hq;
        first [lia | apply NoDup_3; lia]).
  cbn [mbind option_bind].
  unfold qc_measure. cbn [length Nat.eqb zip zip_with measure_pairs].
  do 3 (rewrite measure_one_Some
          by (cbn [num_qubits num_clbits append_instruction qc_barrier];
              rewrite ?Hq, ?Hc; lia);
        cbn [mbind option_bind]).
  split; discriminate.
Qed.

(** ** The further properties on concrete inputs *)

Lemma aggregate_is_sum_of_trials_witness :
  run_trials 2 3 false
    (constant_backend (quasi_result example_quasi) {[ "011" := 3 ]})
  = Ok {[ "011" := 6 ]}
  /\ (forall s,
        default 0 (({[ "011" := 6 ]} : gmap string Z) !! s)
        = sum_from
            (trial_count false 3
               (constant_backend (quasi_result example_quasi)
                  {[ "011" := 3 ]}) s)
            0 (Z.to_nat 2))
  /\ (forall s,
        s ∈ dom ({[ "011" := 6 ]} : gmap string Z) <->
        exists i counts,
          (i < Z.to_nat 2)%nat
          /\ trial_counts false 3
               (constant_backend (quasi_result example_quasi)
                  {[ "011" := 3 ]}) i = Ok counts
          /\ s ∈ dom counts).
Proof.
  assert (H : run_trials 2 3 false
                (constant_backend (quasi_result example_quasi)
                   {[ "011" := 3 ]})
              = Ok {[ "011" := 6 ]}) by (vm_compute; reflexivity).
  exact (conj H (aggregate_is_sum_of_trials 2 3 false _ _ H)).
Defined.

Lemma row_shapes_agree_witness :
  0 <= bits_value [PInt 0; PInt 1; PInt 1] 0 < 2 ^ 3
  /\ sample_string 3 (PList [PInt 0; PInt 1; PInt 1])
     = sample_string 3 (PInt (bits_value [PInt 0; PInt 1; PInt 1] 0))
  /\ sample_string 3 (PTuple [PInt 0; PInt 1; PInt 1])
     = sample_string 3 (PInt (bits_value [PInt 0; PInt 1; PInt 1] 0))
  /\ (3 <> 1 ->
      sample_string 3 (PList [PInt (bits_value [PInt 0; PInt 1; PInt 1] 0)])
      = sample_string 3 (PList [PInt 0; PInt 1; PInt 1])
      /\ sample_string 3
           (PTuple [PInt (bits_value [PInt 0; PInt 1; PInt 1] 0)])
         = sample_string 3 (PList [PInt 0; PInt 1; PInt 1])).
Proof.
  apply (row_shapes_agree 3 [PInt 0; PInt 1; PInt 1]); [lia |].
  split; [reflexivity |].
  constructor; [left; reflexivity |].
  constructor; [right; reflexivity |].
  constructor; [right; reflexivity |]. constructor.
Defined.

Lemma integer_rows_are_told_apart_witness :
  (sample_string 3 (PInt (-3)) = sample_string 3 (PInt 5) -> -3 = 5)
  /\ (-3 < 0 ->
      exists t, sample_string 3 (PInt (-3)) = Ok (String "-" t)
                /\ is_bitstring t = true
                /\ int_base2 t = Ok (- -3)).
Proof. apply (integer_rows_are_told_apart 3 (-3) 5). lia. Defined.

Lemma bitarray_counts_bounds_witness :
  bitarr_rows (bitarr_of example_rows None) = Ok example_rows
  /\ bitarray_counts (bitarr_of example_rows None)
     = Ok {[ "011" := 2; "100" := 1 ]}
  /\ ({[ "011" := 2; "100" := 1 ]} : gmap string Z) !! "011" = Some 2
  /\ 1 <= 2 <= Z.of_nat (length example_rows).
Proof.
  assert (Hr : bitarr_rows (bitarr_of example_rows None) = Ok example_rows)
    by reflexivity.
  assert (Hc : bitarray_counts (bitarr_of example_rows None)
               = Ok {[ "011" := 2; "100" := 1 ]})
    by (vm_compute; reflexivity).
  assert (Hs : ({[ "011" := 2; "100" := 1 ]} : gmap string Z) !! "011"
               = Some 2) by reflexivity.
  exact (conj Hr (conj Hc (conj Hs
           (bitarray_counts_bounds _ _ _ Hr Hc "011" 2 Hs)))).
Defined.

Lemma compare_and_swap_on_basis_states_witness :
  exists qc' qs',
    compare_and_swap (new_circuit 5 5) 0 1 3 4 = Some qc'
    /\ exec_basis_list (data qc')
         ([true; false; true; false; false], replicate 5 false)
       = Some (qs', replicate 5 false)
    /\ length qs' = length [true; false; true; false; false]
    /\ qubit qs' 0 = qubit [true; false; true; false; false] 0
                     && qubit [true; false; true; false; false] 1
    /\ qubit qs' 1 = qubit [true; false; true; false; false] 0
                     || qubit [true; false; true; false; false] 1
    /\ qubit qs' 4 = qubit [true; false; true; false; false] 0
                     && negb (qubit [true; false; true; false; false] 1)
    /\ qubit qs' 3
       = negb (qubit [true; false; true; false; false] 0
               && negb (qubit [true; false; true; false; false] 1))
    /\ forall k, k ∉ [0; 1; 3; 4]%nat ->
         qubit qs' k = qubit [true; false; true; false; false] k.
Proof.
  apply (compare_and_swap_on_basis_states (new_circuit 5 5) 0 1 3 4
           ([true; false; true; false; false], replicate 5 false)
           [true; false; true; false; false] (replicate 5 false)).
  - cbn. lia.
  - apply NoDup_4. lia.
  - reflexivity.
  - reflexivity.
  - reflexivity.
  - reflexivity.
Defined.

Lemma comparator_on_basis_states_witness :
  exists qc' qs',
    comparator (new_circuit 4 3) 0 1 3 = Some qc'
    /\ exec_basis_list (data qc')
         ([true; false; true; false], replicate 3 false)
       = Some (qs', replicate 3 false)
    /\ length qs' = length [true; false; true; false]
    /\ qubit qs' 0 = qubit [true; false; true; false] 0
    /\ qubit qs' 1 = qubit [true; false; true; false] 0
                     || qubit [true; false; true; false] 1
    /\ qubit qs' 3 = qubit [true; false; true; false] 0
                     && negb (qubit [true; false; true; false] 1)
    /\ forall k, k ∉ [0; 1; 3]%nat ->
         qubit qs' k = qubit [true; false; true; false] k.
Proof.
  apply (comparator_on_basis_states (new_circuit 4 3) 0 1 3
           ([true; false; true; false], replicate 3 false)
           [true; false; true; false] (replicate 3 false)).
  - cbn. lia.
  - apply NoDup_3. lia.
  - reflexivity.
  - reflexivity.
  - reflexivity.
Defined.

Lemma apply_oracle_marks_target_witness :
  format_0b 3 3 = Ok TARGET_STATE
  /\ exists qc',
       apply_oracle (new_circuit 3 3) = Some qc'
       /\ num_qubits qc' = 3%nat
       /\ hcount (exec_amps_list (data qc') (zero_state 3))
          = (hcount (exec_amps_list (data (new_circuit 3 3)) (zero_state 3))
             + 2)%nat
       /\ amps (exec_amps_list (data qc') (zero_state 3))
          = imap (fun i a => if (i =? 3)%nat then - 2 * a else 2 * a)
              (amps (exec_amps_list (data (new_circuit 3 3)) (zero_state 3))).
Proof.
  apply (apply_oracle_marks_target (new_circuit 3 3) (zero_state 3));
    reflexivity.
Defined.

Lemma apply_diffusion_inverts_about_mean_witness :
  exists qc',
    apply_diffusion (new_circuit 3 3) = Some qc'
    /\ num_qubits qc' = 3%nat
    /\ hcount (exec_amps_list (data qc') (zero_state 3))
       = (hcount (exec_amps_list (data (new_circuit 3 3)) (zero_state 3))
          + 8)%nat
    /\ amps (exec_amps_list (data qc') (zero_state 3))
       = (fun a =>
            16 * a
            - 4 * foldr Z.add 0
                    (amps (exec_amps_list (data (new_circuit 3 3))
                             (zero_state 3))))
         <$> amps (exec_amps_list (data (new_circuit 3 3)) (zero_state 3)).
Proof.
  apply (apply_diffusion_inverts_about_mean (new_circuit 3 3) (zero_state 3));
    reflexivity.
Defined.

Lemma grover_iterations_amplify_witness :
  exists qc',
    grover_iterations 2
      {| num_qubits := 3; num_clbits := 3;
         data := [HGate 0; HGate 1; HGate 2] |} = Some qc'
    /\ num_qubits qc' = 3%nat
    /\ hcount (exec_amps_list (data qc') (zero_state 3))
       = (hcount (exec_amps_list [HGate 0; HGate 1; HGate 2] (zero_state 3))
          + 10 * 2)%nat
    /\ amps (exec_amps_list (data qc') (zero_state 3))
       = let (t', o') := Nat.iter 2 grover_step (1, 1) in
         [o'; o'; o'; t'; o'; o'; o'; o'].
Proof.
  apply (grover_iterations_amplify 2
           {| num_qubits := 3; num_clbits := 3;
              data := [HGate 0; HGate 1; HGate 2] |} (zero_state 3) 1 1);
    reflexivity.
Defined.

